(** * Candidate deduplication and bulk ingestion: a shallow embedding

    The definitions below follow [server/ats/candidate-dedup.js], the bulk
    upload router and the [/upload] endpoint of the API server.  A
    JavaScript string is modelled as a Rocq string, one character per code
    unit: the strings covered are those of code units below 256 (Basic Latin
    and Latin-1 Supplement), with JavaScript's white space and letter case
    on that range.  A value that may be [null], [undefined] or not a string
    at all is an [option string]. *)

From Stdlib Require Import String Ascii ZArith QArith Qround Lia.
From stdpp Require Import gmap strings list.

Close Scope Q_scope.

#[local] Set Warnings "-clear-no-such-hyp".

(** ** Strings *)

Module Str.

Definition is_digit (c : ascii) : bool :=
  (48 <=? nat_of_ascii c) && (nat_of_ascii c <=? 57).

(** White space removed by [String.prototype.trim] and matched by [\s]:
    tab, line feed, vertical tab, form feed, carriage return, space and the
    no-break space U+00A0.  (U+0085 is not white space in JavaScript.) *)
Definition is_space (c : ascii) : bool :=
  let n := nat_of_ascii c in
  ((9 <=? n) && (n <=? 13)) || (n =? 32) || (n =? 160).

(** The letters that [toLowerCase] changes: [A] to [Z], and U+00C0 to
    U+00DE without the multiplication sign U+00D7. *)
Definition is_upper (c : ascii) : bool :=
  let n := nat_of_ascii c in
  ((65 <=? n) && (n <=? 90))
  || ((192 <=? n) && (n <=? 222) && negb (n =? 215)).

(** [toLowerCase] of one code unit: a capital letter moves up by 32. *)
Definition lower_char (c : ascii) : ascii :=
  if is_upper c then ascii_of_nat (nat_of_ascii c + 32) else c.

Fixpoint filter (p : ascii → bool) (s : string) : string :=
  match s with
  | EmptyString => EmptyString
  | String c r => if p c then String c (filter p r) else filter p r
  end.

Fixpoint map (f : ascii → ascii) (s : string) : string :=
  match s with
  | EmptyString => EmptyString
  | String c r => String (f c) (map f r)
  end.

Definition toLowerCase : string → string := map lower_char.

Fixpoint trimStart (s : string) : string :=
  match s with
  | EmptyString => EmptyString
  | String c r => if is_space c then trimStart r else s
  end.

Definition trim (s : string) : string :=
  String.rev (trimStart (String.rev (trimStart s))).

Definition startsWith (p s : string) : bool := String.prefix p s.

(** [hay.includes(needle)] *)
Fixpoint includes (needle hay : string) : bool :=
  String.prefix needle hay ||
  match hay with
  | EmptyString => false
  | String _ r => includes needle r
  end.

(** [s.split(':')[0]]: the text before the first colon, the whole string
    when there is none. *)
Fixpoint split_colon_head (s : string) : string :=
  match s with
  | EmptyString => EmptyString
  | String c r =>
      if Ascii.eqb c ":"%char then EmptyString
      else String c (split_colon_head r)
  end.

(** [s.replace(/\s+/g, ' ')]: every maximal run of white space becomes
    one space. *)
Fixpoint collapse_spaces (in_run : bool) (s : string) : string :=
  match s with
  | EmptyString => EmptyString
  | String c r =>
      if is_space c then
        if in_run then collapse_spaces true r
        else String " "%char (collapse_spaces true r)
      else String c (collapse_spaces false r)
  end.

(** A string is truthy when it is not empty. *)
Definition truthy (s : string) : bool :=
  match s with EmptyString => false | _ => true end.

(** Insertion sort by code-unit order, the order of [Array.prototype.sort]
    without a comparator. *)
Fixpoint insert_sorted (x : string) (l : list string) : list string :=
  match l with
  | [] => [x]
  | y :: r => if String.leb x y then x :: l else y :: insert_sorted x r
  end.

Definition sort (l : list string) : list string :=
  foldr insert_sorted [] l.

End Str.

(** ** Identity normalizer *)

(** The characters that [\D] does not match. *)
Definition decimal_digits : list ascii :=
  ["0"; "1"; "2"; "3"; "4"; "5"; "6"; "7"; "8"; "9"]%char.

Definition normalizeEmail (value : option string) : option string :=
  match value with
  | None => None
  | Some v =>
      if Str.truthy v then
        let normalized := Str.toLowerCase (Str.trim v) in
        if Str.truthy normalized then Some normalized else None
      else None
  end.

Definition normalizePhone (value : option string) : option string :=
  match value with
  | None => None
  | Some v =>
      if Str.truthy v then
        let digits := Str.filter Str.is_digit v in
        if negb (Str.truthy digits) then None
        else if String.length digits =? 10 then Some ("+1" +:+ digits)
        else if (String.length digits =? 11) && Str.startsWith "1" digits
             then Some ("+" +:+ digits)
        else Some ("+" +:+ digits)
      else None
  end.

Definition normalizeName (value : option string) : option string :=
  match value with
  | None => None
  | Some v =>
      if Str.truthy v then
        let normalized := Str.collapse_spaces false (Str.trim v) in
        if Str.truthy normalized then Some normalized else None
      else None
  end.

(** [Array.from(new Set(xs))]: first occurrences, in order. *)
Fixpoint dedup_first (seen : list string) (xs : list string) : list string :=
  match xs with
  | [] => []
  | x :: r =>
      if bool_decide (x ∈ seen) then dedup_first seen r
      else x :: dedup_first (x :: seen) r
  end.

(** An entry of [skills] that is not a string is [None]. *)
Definition normalizeSkills (skills : option (list (option string))) : list string :=
  match skills with
  | None => []
  | Some l =>
      dedup_first []
        (List.filter Str.truthy
           (List.map (λ skill, match skill with
                               | Some s => Str.toLowerCase (Str.trim s)
                               | None => EmptyString
                               end) l))
  end.

(** ** Dedup keys *)

Definition key_of (tag : string) (value : option string) : option string :=
  match value with
  | Some v => if Str.truthy v then Some (tag +:+ ":" +:+ v) else None
  | None => None
  end.

Definition buildDedupKeys (email phone resumeHash : option string) : list string :=
  Str.sort (omap id [key_of "email" email; key_of "phone" phone; key_of "hash" resumeHash]).

(** ** Records and errors *)

(** A row of the [candidates] table ([schema.sql]). *)
Record Candidate := {
  cand_id : string;
  cand_name : option string;
  cand_email : option string;
  cand_phone : option string;
  cand_skills : list string;
  cand_resume_url : option string
}.

(** The [details] object of a [DuplicateCandidateError]: [{}] has neither
    field, the lock sets [matchBy] only, the finder's result sets both. *)
Record Details := {
  candidate : option Candidate;
  matchBy : option string
}.

Definition no_details : Details := {| candidate := None; matchBy := None |}.

Inductive exn :=
| DuplicateCandidateError (message : string) (details : Details)
| Error (message : string).

Definition is_duplicate (e : exn) : bool :=
  match e with DuplicateCandidateError _ _ => true | Error _ => false end.

(** ** Process state and the monad of asynchronous code

    The module-level set [inFlightDedupKeys] is the only state of the
    process itself; [world] stands for everything outside it (the store,
    the blob store, the file system).  An [async] function is a state
    transformer that either throws or returns. *)

Record Proc (W : Type) := mkProc {
  inFlightDedupKeys : gset string;
  world : W
}.
Arguments mkProc {W} _ _.
Arguments inFlightDedupKeys {W} _.
Arguments world {W} _.

Definition M (W A : Type) : Type := Proc W → Proc W * (exn + A).

Definition ret {W A} (a : A) : M W A := λ st, (st, inr a).
Definition throw {W A} (e : exn) : M W A := λ st, (st, inl e).
Definition bind {W A B} (m : M W A) (k : A → M W B) : M W B := λ st,
  match m st with
  | (st1, inl e) => (st1, inl e)
  | (st1, inr a) => k a st1
  end.

(** A call to the outside world: it may change the world, never the set. *)
Definition call {W A} (f : W → W * A) : M W A := λ st,
  let '(w, a) := f (world st) in (mkProc (inFlightDedupKeys st) w, inr a).

(** The same for a call that may throw. *)
Definition attempt {W A} (f : W → W * (exn + A)) : M W A := λ st,
  let '(w, r) := f (world st) in (mkProc (inFlightDedupKeys st) w, r).

Notation "'let*' x := m 'in' k" := (bind m (λ x, k))
  (at level 10, x name, m at level 100, k at level 200).

(** ** In-process exclusion lock *)

(** The [for] loop of [withDedupLock]: the first key of [keys] that the set
    already has. *)
Definition collision (held : gset string) (keys : list string) : option string :=
  List.find (λ key, bool_decide (key ∈ held)) keys.

(** [keys.forEach((key) => inFlightDedupKeys.add(key))] *)
Definition mark (held : gset string) (keys : list string) : gset string :=
  foldl (λ s key, {[key]} ∪ s) held keys.

(** [keys.forEach((key) => inFlightDedupKeys.delete(key))] *)
Definition unmark (held : gset string) (keys : list string) : gset string :=
  foldl (λ s key, s ∖ {[key]}) held keys.

Definition in_flight_error (key : string) : exn :=
  DuplicateCandidateError "Duplicate candidate is already being processed."
    {| candidate := None; matchBy := Some (Str.split_colon_head key) |}.

Definition withDedupLock {W A} (keys : list string) (fn : M W A) : M W A := λ st,
  match collision (inFlightDedupKeys st) keys with
  | Some key => (st, inl (in_flight_error key))
  | None =>
      let '(st', r) := fn (mkProc (mark (inFlightDedupKeys st) keys) (world st)) in
      (mkProc (unmark (inFlightDedupKeys st') keys) (world st'), r)
  end.

(** ** Interleaved calls of [withDedupLock]

    The process runs one task at a time and switches tasks only at an
    [await].  [withDedupLock] has one: [await fn()].  What comes before it
    (the loop, the marking, the start of [fn]) runs without interruption, and
    so does the [finally] block after it.  A call is therefore two atomic
    steps, one that enters or is rejected and one that leaves; the steps of
    different calls interleave in any order, given as a schedule. *)

Module Interleaving.

Inductive phase :=
| Pending            (* not called yet *)
| Rejected (e : exn) (* threw in the loop, [fn] never started *)
| Running            (* inside [await fn()] *)
| Done.              (* [finally] has run *)

Record sys := mkSys {
  held : gset string;
  phases : list phase
}.

Section Calls.

(** The key list of each call. *)
Variable calls : list (list string).

Definition init : sys := mkSys ∅ (replicate (length calls) Pending).

Definition step (i : nat) (s : sys) : option sys :=
  match phases s !! i, calls !! i with
  | Some Pending, Some keys =>
      match collision (held s) keys with
      | Some key => Some (mkSys (held s) (<[i := Rejected (in_flight_error key)]> (phases s)))
      | None => Some (mkSys (mark (held s) keys) (<[i := Running]> (phases s)))
      end
  | Some Running, Some keys =>
      Some (mkSys (unmark (held s) keys) (<[i := Done]> (phases s)))
  | _, _ => None
  end.

Fixpoint run (schedule : list nat) (s : sys) : option sys :=
  match schedule with
  | [] => Some s
  | i :: rest =>
      match step i s with
      | Some s' => run rest s'
      | None => None
      end
  end.

(** Call [i] is inside its critical section. *)
Definition running (s : sys) (i : nat) (keys : list string) : Prop :=
  phases s !! i = Some Running ∧ calls !! i = Some keys.

(** The set holds exactly the keys of the calls that are running, and no
    two running calls share a key. *)
Record inv (s : sys) : Prop := {
  inv_held : ∀ key, key ∈ held s ↔
               ∃ i keys, running s i keys ∧ key ∈ keys;
  inv_excl : ∀ i j ki kj key,
               running s i ki → running s j kj →
               key ∈ ki → key ∈ kj → i = j
}.

End Calls.

End Interleaving.

(** ** External collaborators

    The store, the blob store and the file system answer as they please:
    each call takes the world and returns the next world with its answer. *)

(** [{ data, error }] of a [select]: a truthy [error], or the rows. *)
Inductive QueryResult :=
| QError (message : string)
| QData (rows : list Candidate).

(** The [error] of a storage upload. [statusCode] holds the value of
    [Number(error.statusCode)], [None] when that is not a number. *)
Record StorageError := {
  statusCode : option Z;
  storage_message : option string
}.

(** The [error] of an insert. *)
Record InsertError := {
  code : option string;
  insert_message : option string
}.

(** The object sent to [insert]: [normalizeCandidatePayload]'s result. *)
Record Payload := {
  name : option string;
  email : option string;
  phone : option string;
  skills : list string;
  resume_url : option string
}.

(** What [parseResumeText] extracts; every field may be missing. *)
Record Parsed := {
  parsed_name : option string;
  parsed_email : option string;
  parsed_phone : option string;
  parsed_skills : option (list (option string))
}.

(** A file as multer hands it over. *)
Record File := {
  path : string;
  originalname : string
}.

Class Store (W : Type) := {
  (** [from('candidates').select('*').eq(column, value).order(...).limit(1)] *)
  select_eq : string → string → W → W * QueryResult;
  (** [storage.from(bucket).upload(path, bytes, ...)], its [error] *)
  storage_upload : string → string → string → W → W * option StorageError;
  (** [storage.from(bucket).getPublicUrl(path)], [data?.publicUrl] *)
  public_url : string → string → option string;
  (** [from('candidates').insert(payload).select('*').single()] *)
  insert_candidate : Payload → W → W * (InsertError + Candidate);
  (** [fsPromises.readFile(path)] *)
  read_file : string → W → W * (exn + string);
  (** [fsPromises.unlink(path).catch(() => {})] *)
  unlink_file : string → W → W * unit;
  (** [parseResumeBuffer(fileBuffer)] *)
  parse_resume : string → W → W * (exn + Parsed);
  (** [crypto.createHash('sha256').update(bytes).digest('hex')] *)
  sha256_hex : string → string
}.

(** An interpolated [${x.message}] prints [undefined] for a missing one. *)
Definition show (message : option string) : string :=
  default "undefined" message.

Definition exn_message (e : exn) : string :=
  match e with
  | DuplicateCandidateError message _ => message
  | Error message => message
  end.

(** [error.message || String(error)] for an error object. *)
Definition message_or_string (message : option string) : string :=
  match message with
  | Some v => if Str.truthy v then v else "[object Object]"
  | None => "[object Object]"
  end.

(** A value that is [null] or the empty string is falsy. *)
Definition truthy_opt (value : option string) : option string :=
  match value with
  | Some v => if Str.truthy v then Some v else None
  | None => None
  end.

Definition normalizeCandidatePayload (parsed : Parsed) (resumeUrl : option string) : Payload :=
  {| name := normalizeName (parsed_name parsed);
     email := normalizeEmail (parsed_email parsed);
     phone := normalizePhone (parsed_phone parsed);
     skills := normalizeSkills (parsed_skills parsed);
     resume_url := truthy_opt resumeUrl |}.

Fixpoint strip_leading_slashes (s : string) : string :=
  match s with
  | String c r => if Ascii.eqb c "/"%char then strip_leading_slashes r else s
  | EmptyString => EmptyString
  end.

(** [String(prefix || 'uploads').replace(/^\/+|\/+$/g, '')] and the path *)
Definition buildResumeStoragePath (resumeHash : string) (prefix : string) : string :=
  let p := if Str.truthy prefix then prefix else "uploads" in
  let normalizedPrefix :=
    String.rev (strip_leading_slashes (String.rev (strip_leading_slashes p))) in
  normalizedPrefix +:+ "/" +:+ resumeHash +:+ ".pdf".

Definition isStorageAlreadyExistsError (error : option StorageError) : bool :=
  match error with
  | None => false
  | Some e =>
      let message := Str.toLowerCase (default "" (storage_message e)) in
      bool_decide (statusCode e = Some 409%Z) || Str.includes "already exists" message
  end.

Definition isUniqueViolation (error : InsertError) : bool :=
  bool_decide (code error = Some "23505").

Section Pipeline.

Context {W : Type} `{Store W}.

(** The three [queryCandidateBy...] functions differ in the column and in
    the label of their error message. *)
Definition queryCandidateBy (column label : string) (value : option string)
  : M W (option Candidate) :=
  match truthy_opt value with
  | None => ret None
  | Some v =>
      let* r := call (select_eq column v) in
      match r with
      | QError message => throw (Error ("Failed duplicate check by " +:+ label +:+ ": " +:+ message))
      | QData rows => ret (head rows)
      end
  end.

Definition queryCandidateByEmail := queryCandidateBy "email" "email".
Definition queryCandidateByPhone := queryCandidateBy "phone" "phone".
Definition queryCandidateByResumeUrl := queryCandidateBy "resume_url" "resume URL".

(** The result is [null] or [{ candidate, matchBy }]. *)
Definition findExistingCandidate (email phone resumeUrl : option string)
  : M W (option (Candidate * string)) :=
  let* byEmail := queryCandidateByEmail email in
  match byEmail with
  | Some c => ret (Some (c, "email"))
  | None =>
      let* byPhone := queryCandidateByPhone phone in
      match byPhone with
      | Some c => ret (Some (c, "phone"))
      | None =>
          let* byResumeUrl := queryCandidateByResumeUrl resumeUrl in
          match byResumeUrl with
          | Some c => ret (Some (c, "resume"))
          | None => ret None
          end
      end
  end.

Definition found_details (existing : Candidate * string) : Details :=
  {| candidate := Some (fst existing); matchBy := Some (snd existing) |}.

Definition duplicate_skipped (existing : Candidate * string) : exn :=
  DuplicateCandidateError
    ("Duplicate candidate skipped (matched by " +:+ snd existing +:+ ").")
    (found_details existing).

(** [existing?.matchBy || 'constraint'] and [existing || {}] *)
Definition duplicate_after_conflict (existing : option (Candidate * string)) : exn :=
  match existing with
  | Some ex => duplicate_skipped ex
  | None => DuplicateCandidateError "Duplicate candidate skipped (matched by constraint)." no_details
  end.

(** The function passed to [withDedupLock] by [saveCandidateFromFile] is
    written in three parts, one per group of awaited calls. *)

(** From the insert to the end. *)
Definition insertCandidate (payload : Payload) (resumeUrl : option string)
  : M W Candidate :=
  let* r := call (insert_candidate payload) in
  match r with
  | inr insertedCandidate => ret insertedCandidate
  | inl insertError =>
      if isUniqueViolation insertError then
        let* existingAfterConflict :=
          findExistingCandidate (email payload) (phone payload) resumeUrl in
        throw (duplicate_after_conflict existingAfterConflict)
      else
        throw (Error ("Failed to save candidate in database: " +:+ show (insert_message insertError)))
  end.

(** From the upload to the insert. *)
Definition putResume (bucket storagePath fileBuffer : string)
    (payload : Payload) (resumeUrl : option string) : M W unit :=
  let* storageError := call (storage_upload bucket storagePath fileBuffer) in
  match storageError with
  | Some e =>
      if negb (isStorageAlreadyExistsError storageError) then
        throw (Error ("Failed to upload resume to Supabase Storage: " +:+ show (storage_message e)))
      else
        let* existingByFile :=
          findExistingCandidate (email payload) (phone payload) resumeUrl in
        match existingByFile with
        | Some ex => throw (duplicate_skipped ex)
        | None => ret ()
        end
  | None => ret ()
  end.

Definition saveCandidateLocked (bucket storagePath fileBuffer : string)
    (payload : Payload) (resumeUrl : option string) : M W Candidate :=
  let* existingBeforeUpload :=
    findExistingCandidate (email payload) (phone payload) resumeUrl in
  match existingBeforeUpload with
  | Some ex => throw (duplicate_skipped ex)
  | None =>
      let* _ := putResume bucket storagePath fileBuffer payload resumeUrl in
      insertCandidate payload resumeUrl
  end.

Definition saveCandidateFromFile (bucket : string) (file : File) : M W Candidate :=
  let* fileBuffer := attempt (read_file (path file)) in
  let* parsed := attempt (parse_resume fileBuffer) in
  let resumeHash := sha256_hex fileBuffer in
  let storagePath := buildResumeStoragePath resumeHash "uploads" in
  let resumeUrl := truthy_opt (public_url bucket storagePath) in
  let payload := normalizeCandidatePayload parsed resumeUrl in
  let dedupKeys := buildDedupKeys (email payload) (phone payload) (Some resumeHash) in
  withDedupLock dedupKeys
    (saveCandidateLocked bucket storagePath fileBuffer payload resumeUrl).

(** *** The bulk route's handler and response *)

Inductive Outcome :=
| Uploaded (fileName : string) (c : Candidate)
| Failed (fileName : string) (error : string).


(** The [try]/[catch]/[finally] around [saveCandidateFromFile]. *)
Definition uploadHandler (bucket : string) (file : File) : M W Outcome := λ st,
  let '(st1, r) := saveCandidateFromFile bucket file st in
  let outcome := match r with
                 | inr c => Uploaded (originalname file) c
                 | inl error => Failed (originalname file) (exn_message error)
                 end in
  let w := if Str.truthy (path file)
           then fst (unlink_file (path file) (world st1))
           else world st1 in
  (mkProc (inFlightDedupKeys st1) w, inr outcome).

(** *** The [/upload] endpoint

    Only the fields of the request body that reach the dedup logic are
    kept; the other columns of the inserted row are left out. *)
Definition uploadPut (bucket storagePath fileBuffer : string) : M W unit :=
  let* uploadError := call (storage_upload bucket storagePath fileBuffer) in
  match uploadError with
  | Some e =>
      if negb (isStorageAlreadyExistsError uploadError)
      then throw (Error (message_or_string (storage_message e)))
      else ret ()
  | None => ret ()
  end.

Definition uploadLocked (bucket storagePath fileBuffer : string)
    (payload : Payload) : M W unit :=
  let* existingBeforeUpload :=
    findExistingCandidate (email payload) (phone payload) None in
  match existingBeforeUpload with
  | Some ex => throw (duplicate_skipped ex)
  | None => uploadPut bucket storagePath fileBuffer
  end.

Definition uploadInsert (payload : Payload) : M W unit :=
  let* r := call (insert_candidate payload) in
  match r with
  | inr _ => ret ()
  | inl insertError =>
      if isUniqueViolation insertError then
        let* existingAfterConflict :=
          findExistingCandidate (email payload) (phone payload) None in
        throw (duplicate_after_conflict existingAfterConflict)
      else throw (Error (message_or_string (insert_message insertError)))
  end.

(** The keys of [/upload]: [buildDedupKeys({ email, phone })], the hash
    computed just before is not passed. *)
Definition uploadDedupKeys (body_email body_phone : option string) : list string :=
  buildDedupKeys (normalizeEmail body_email) (normalizePhone body_phone) None.

Definition upload (body_name body_email body_phone : option string)
    (body_skills : list string) (fileBuffer : string) : M W unit :=
  let normalizedEmail := normalizeEmail body_email in
  let normalizedPhone := normalizePhone body_phone in
  let resumeHash := sha256_hex fileBuffer in
  let storagePath := buildResumeStoragePath resumeHash "resumes" in
  let resumeUrl := truthy_opt (public_url "resumes" storagePath) in
  let dedupKeys := uploadDedupKeys body_email body_phone in
  let record := {| name := body_name; email := normalizedEmail;
                   phone := normalizedPhone; skills := body_skills;
                   resume_url := resumeUrl |} in
  withDedupLock dedupKeys
    (let* _ := uploadLocked "resumes" storagePath fileBuffer record in
     uploadInsert record).

End Pipeline.

(** ** Bounded concurrency dispatcher

    [processFilesWithConcurrency] starts [workerCount] workers.  A worker
    runs without interruption from one [await] to the next: it stores the
    value its handler call resolved with, takes the next index and either
    calls the handler on that file or returns.  The order in which handler
    calls resolve, and the values they resolve with, are given from outside
    as a list of events. *)

Module Dispatcher.

Section Pool.

Context {F R : Type}.
Variable files : list F.

Inductive worker :=
| Awaiting (currentIndex : nat) (file : F) (* in [await handler(files[currentIndex])] *)
| Returned.                               (* left the loop *)

(** An entry of [results] is [None] until it is assigned. *)
Record pool := mkPool {
  results : list (option R);
  nextIndex : nat;
  workers : list worker
}.

(** [Math.max(1, Math.min(concurrency, files.length))]. The concurrency is
    an integer: the route passes [config.bulkUploadConcurrency], which
    [getConfig] makes with [Math.floor] or sets to 8. *)
Definition workerCount (concurrency : Z) : nat :=
  Z.to_nat (Z.max 1 (Z.min concurrency (Z.of_nat (length files)))).

(** The head of the loop for [currentIndex]: [files !! currentIndex] is
    [None] exactly when [currentIndex >= files.length]. *)
Definition claim (currentIndex : nat) : worker :=
  match files !! currentIndex with
  | Some file => Awaiting currentIndex file
  | None => Returned
  end.

(** [Array.from({ length: n }, () => worker())]: each call runs to its
    first [await]. *)
Fixpoint spawn (n : nat) (p : pool) : pool :=
  match n with
  | 0 => p
  | S n' =>
      spawn n' (mkPool (results p) (S (nextIndex p))
                  (workers p ++ [claim (nextIndex p)]))
  end.

Definition start (concurrency : Z) : pool :=
  spawn (workerCount concurrency)
    (mkPool (replicate (length files) None) 0 []).

(** The handler call of worker [w] resolves with [value]. *)
Definition settle (w : nat) (value : R) (p : pool) : option pool :=
  match workers p !! w with
  | Some (Awaiting currentIndex _) =>
      Some (mkPool (<[currentIndex := Some value]> (results p))
              (S (nextIndex p))
              (<[w := claim (nextIndex p)]> (workers p)))
  | _ => None
  end.

Fixpoint run (events : list (nat * R)) (p : pool) : option pool :=
  match events with
  | [] => Some p
  | (w, value) :: rest =>
      match settle w value p with
      | Some p' => run rest p'
      | None => None
      end
  end.

(** The handler calls that resolved during [events]: index, file, value. *)
Fixpoint resolved (events : list (nat * R)) (p : pool) : list (nat * F * R) :=
  match events with
  | [] => []
  | (w, value) :: rest =>
      match workers p !! w, settle w value p with
      | Some (Awaiting currentIndex file), Some p' =>
          (currentIndex, file, value) :: resolved rest p'
      | _, _ => []
      end
  end.

Definition is_returned (x : worker) : bool :=
  match x with Returned => true | Awaiting _ _ => false end.

(** [Promise.all] resolves when every worker has returned; the function
    then returns [results]. *)
Definition all_returned (p : pool) : bool := forallb is_returned (workers p).


(** What holds of the pool and of the calls resolved so far, [log]:
    a worker waits on an index already taken, of a call not yet
    resolved, and no two wait on the same; an index taken is waited on
    or has its value; a worker has returned only after the indices ran
    out; no index resolved twice. *)
Record inv (p : pool) (log : list (nat * F * R)) : Prop := {
  inv_len : length (results p) = length files;
  inv_await : ∀ w i f, workers p !! w = Some (Awaiting i f) →
                i < nextIndex p ∧ files !! i = Some f;
  inv_uniq : ∀ w1 w2 i f1 f2,
                workers p !! w1 = Some (Awaiting i f1) →
                workers p !! w2 = Some (Awaiting i f2) → w1 = w2;
  inv_fresh : ∀ w i f, workers p !! w = Some (Awaiting i f) →
                i ∉ (λ t : nat * F * R, t.1.1) <$> log;
  inv_claimed : ∀ i f, i < nextIndex p → files !! i = Some f →
                (∃ w, workers p !! w = Some (Awaiting i f)) ∨
                (∃ v, results p !! i = Some (Some v) ∧ (i, f, v) ∈ log);
  inv_log : ∀ i f v, (i, f, v) ∈ log →
                results p !! i = Some (Some v) ∧ files !! i = Some f ∧
                i < nextIndex p;
  inv_ret : ∀ w, workers p !! w = Some Returned → length files ≤ nextIndex p;
  inv_nodup : NoDup ((λ t : nat * F * R, t.1.1) <$> log)
}.

End Pool.

(** Every handler call resolves at once, lowest worker first: one way for
    the whole call to run, with a handler that is a function. *)
Section Sequential.

Context {F R : Type}.
Variable handler : F → R.




End Sequential.

End Dispatcher.

(** ** The bulk upload route *)

Record Config := {
  maxFilesPerRequest : Z;
  bulkUploadConcurrency : Z;
  resumeBucket : string
}.

(** [getConfig()]. A numeric variable of the environment is [None] when
    [Number(...)] of it is not finite, else the number it denotes; the
    limit is [Math.floor] of a number above zero and 8 otherwise. *)
Definition getConfig (maxFiles concurrency : option Q) (bucket : option string) : Config :=
  {| maxFilesPerRequest :=
       match maxFiles with
       | Some q => if Qle_bool 0 q then Qfloor q else 500%Z
       | None => 500%Z
       end;
     bulkUploadConcurrency :=
       match concurrency with
       | Some q => if Qle_bool q 0 then 8%Z else Qfloor q
       | None => 8%Z
       end;
     resumeBucket := default "resumes" (truthy_opt bucket) |}.

Record BulkReport := {
  status : nat;
  message : string;
  totalFiles : nat;
  concurrencyUsed : Z;
  uploadedCount : nat;
  failedCount : nat;
  uploaded : list (string * Candidate);
  failed : list (string * string)
}.

Inductive Response :=
| BadRequest (error : string)
| Report (body : BulkReport).

(** What the route builds from [outcomes], the value that
    [processFilesWithConcurrency] returned. *)
Definition bulkReport (config : Config) (files : list File)
    (outcomes : list (option Outcome)) : BulkReport :=
  let uploaded :=
    omap (λ result, match result with
                    | Some (Uploaded fileName c) => Some (fileName, c)
                    | _ => None
                    end) outcomes in
  let failed :=
    omap (λ result, match result with
                    | Some (Failed fileName error) => Some (fileName, error)
                    | _ => None
                    end) outcomes in
  let hasFailures := negb (length failed =? 0) in
  {| status := if hasFailures then 207 else 201;
     message := if hasFailures
                then "Bulk upload finished with partial failures."
                else "Bulk upload finished successfully.";
     totalFiles := length files;
     concurrencyUsed := bulkUploadConcurrency config;
     uploadedCount := length uploaded;
     failedCount := length failed;
     uploaded := uploaded;
     failed := failed |}.

Definition uploadResumes (config : Config) (files : list File)
    (outcomes : list (option Outcome)) : Response :=
  match files with
  | [] => BadRequest "Missing files. Send one or more PDFs in form-data."
  | _ => Report (bulkReport config files outcomes)
  end.

(** ** A store in memory

    An instance of the interface to run the pipeline on: a table with the
    three unique indexes of [schema.sql] (on [lower(email)], on [phone], on
    [resume_url], each over the values that are neither null nor blank), a
    set of blob paths and a disk.  Rows are kept newest first.  The parser
    and the hash are stand-ins: a file whose text has an [@] is read as an
    e-mail address, any other as a phone number, and the digest of a file is
    its text. *)

Module MemoryStore.

Record world := mkWorld {
  table : list Candidate;
  blobs : list string;
  disk : list (string * string)
}.

Definition column (c : string) (row : Candidate) : option string :=
  if String.eqb c "email" then cand_email row
  else if String.eqb c "phone" then cand_phone row
  else if String.eqb c "resume_url" then cand_resume_url row
  else None.

Definition select (c v : string) (w : world) : world * QueryResult :=
  (w, QData (take 1 (List.filter (λ row, bool_decide (column c row = Some v)) (table w)))).

(** The value an index sees: none for null and for blank text. *)
Definition indexed (f : string → string) (value : option string) : option string :=
  match value with
  | Some v => if Str.truthy (Str.trim v) then Some (f v) else None
  | None => None
  end.

Definition same_indexed (f : string → string) (a b : option string) : bool :=
  match indexed f a, indexed f b with
  | Some x, Some y => String.eqb x y
  | _, _ => false
  end.

Definition conflicts (payload : Payload) (row : Candidate) : bool :=
  same_indexed Str.toLowerCase (email payload) (cand_email row)
  || same_indexed id (phone payload) (cand_phone row)
  || same_indexed id (resume_url payload) (cand_resume_url row).

Definition unique_violation : InsertError :=
  {| code := Some "23505";
     insert_message := Some "duplicate key value violates unique constraint" |}.

Definition new_row (payload : Payload) (n : nat) : Candidate :=
  {| cand_id := "row-" +:+ String.concat "" (replicate n "i");
     cand_name := name payload;
     cand_email := email payload;
     cand_phone := phone payload;
     cand_skills := skills payload;
     cand_resume_url := resume_url payload |}.

Definition insert (payload : Payload) (w : world) : world * (InsertError + Candidate) :=
  if existsb (conflicts payload) (table w) then (w, inl unique_violation)
  else
    let row := new_row payload (length (table w)) in
    (mkWorld (row :: table w) (blobs w) (disk w), inr row).

Definition already_exists : StorageError :=
  {| statusCode := Some 409%Z;
     storage_message := Some "The resource already exists" |}.

Definition put (bucket p bytes : string) (w : world) : world * option StorageError :=
  let object := bucket +:+ "/" +:+ p in
  if bool_decide (object ∈ blobs w) then (w, Some already_exists)
  else (mkWorld (table w) (object :: blobs w) (disk w), None).

Definition url (bucket p : string) : option string :=
  Some ("https://store.example/" +:+ bucket +:+ "/" +:+ p).

Fixpoint lookup_disk (p : string) (d : list (string * string)) : option string :=
  match d with
  | [] => None
  | (q, text) :: rest => if String.eqb p q then Some text else lookup_disk p rest
  end.

Definition read (p : string) (w : world) : world * (exn + string) :=
  match lookup_disk p (disk w) with
  | Some text => (w, inr text)
  | None => (w, inl (Error "ENOENT: no such file or directory"))
  end.

Definition unlink (p : string) (w : world) : world * unit :=
  (mkWorld (table w) (blobs w)
     (List.filter (λ entry, negb (String.eqb p (fst entry))) (disk w)), ()).

Definition parse (text : string) (w : world) : world * (exn + Parsed) :=
  (w, inr (if Str.includes "@" text
           then {| parsed_name := None; parsed_email := Some text;
                   parsed_phone := None; parsed_skills := None |}
           else {| parsed_name := None; parsed_email := None;
                   parsed_phone := Some text; parsed_skills := None |})).

#[global] Instance store : Store world := {|
  select_eq := select;
  storage_upload := put;
  public_url := url;
  insert_candidate := insert;
  read_file := read;
  unlink_file := unlink;
  parse_resume := parse;
  sha256_hex := id
|}.

Definition empty : world := mkWorld [] [] [].

End MemoryStore.

(** ** Shapes of strings

    Predicates on strings used to state what the normalizers accept and
    return. *)

Module Text.

Fixpoint all (p : ascii → bool) (s : string) : bool :=
  match s with
  | EmptyString => true
  | String c r => p c && all p r
  end.

(** The first character satisfies [p]. *)
Definition starts (p : ascii → bool) (s : string) : bool :=
  match s with
  | EmptyString => false
  | String c _ => p c
  end.

(** No white space at either end. *)
Definition trimmed (s : string) : bool :=
  negb (starts Str.is_space s) && negb (starts Str.is_space (String.rev s)).

End Text.

Module Spacing.

(** Every white-space character is a space, and no two are adjacent;
    [after_space] tells whether the character before was white space. *)
Fixpoint single_spaced (after_space : bool) (s : string) : bool :=
  match s with
  | EmptyString => true
  | String c r =>
      if Str.is_space c
      then Ascii.eqb c " "%char && negb after_space && single_spaced true r
      else single_spaced false r
  end.

End Spacing.

(** A computation that leaves the set of held keys as it found it,
    whatever it returns or throws. *)
Definition keeps_keys {W A : Type} (m : M W A) : Prop :=
  ∀ st, inFlightDedupKeys (fst (m st)) = inFlightDedupKeys st.

(** What an error thrown inside the lock can be. *)
Definition pipeline_error (e : exn) : Prop :=
  match e with
  | DuplicateCandidateError message details =>
      (message = "Duplicate candidate skipped (matched by constraint)." ∧
       details = no_details) ∨
      (∃ c dimension,
          dimension ∈ ["email"; "phone"; "resume"] ∧
          message = "Duplicate candidate skipped (matched by " +:+ dimension +:+ ")." ∧
          details = {| candidate := Some c; matchBy := Some dimension |})
  | Error message =>
      ∃ rest, message = "Failed duplicate check by " +:+ rest ∨
              message = "Failed to upload resume to Supabase Storage: " +:+ rest ∨
              message = "Failed to save candidate in database: " +:+ rest
  end.

(** ** The search route ([search-routes.js]) *)

Module Search.

(** [s.split(sep)] for a separator of one character: the pieces between
    the separators, empty pieces included. *)
Fixpoint split (sep : ascii) (s : string) : list string :=
  match s with
  | EmptyString => [EmptyString]
  | String c r =>
      if Ascii.eqb c sep then EmptyString :: split sep r
      else match split sep r with
           | x :: xs => String c x :: xs
           | [] => [String c EmptyString]
           end
  end.

(** The same function is in the ATS router. *)
Definition parseSkillsParam (rawSkills : option string) : list string :=
  match rawSkills with
  | None => []
  | Some raw =>
      if Str.truthy raw then
        List.filter Str.truthy
          (List.map (λ skill, Str.toLowerCase (Str.trim skill)) (split "," raw))
      else []
  end.

(** A character that the class [[a-z0-9+#.]] matches under the [i] flag:
    a letter of either case, a digit, or one of [+], [#], [.]. *)
Definition word_char (c : ascii) : bool :=
  let n := nat_of_ascii (Str.lower_char c) in
  ((97 <=? n) && (n <=? 122)) || Str.is_digit c
  || Ascii.eqb c "+" || Ascii.eqb c "#" || Ascii.eqb c ".".

(** [term] read at the start of [s], letter case aside: what follows it. *)
Fixpoint after_prefix (term s : string) : option string :=
  match term, s with
  | EmptyString, _ => Some s
  | String a term', String b s' =>
      if Ascii.eqb (Str.lower_char a) (Str.lower_char b)
      then after_prefix term' s' else None
  | String _ _, EmptyString => None
  end.

(** [($|[^a-z0-9+#.])] at the start of [s]. *)
Definition ends_word (s : string) : bool :=
  match s with
  | EmptyString => true
  | String c _ => negb (word_char c)
  end.

(** [new RegExp(`(^|[^a-z0-9+#.])${escapeRegExp(term)}($|[^a-z0-9+#.])`, 'i')
    .test(s)].  The escaped term stands for its own characters, so the
    pattern matches when [term] occurs in [s], letter case aside, with the
    start of [s] or a character outside the class before it, and the end of
    [s] or a character outside the class after it.  [at_start] tells
    whether the position reached is the start or follows such a character. *)
Fixpoint pattern_test (at_start : bool) (term s : string) : bool :=
  (at_start && match after_prefix term s with
               | Some rest => ends_word rest
               | None => false
               end)
  || match s with
     | EmptyString => false
     | String c r => pattern_test (negb (word_char c)) term r
     end.

Definition skillMatchesTerm (skill term : string) : bool :=
  if Str.truthy skill && Str.truthy term then
    let normalizedSkill := Str.toLowerCase (Str.trim skill) in
    if Str.truthy normalizedSkill then pattern_test true term normalizedSkill
    else false
  else false.

Definition candidateHasAllTerms (candidate : Candidate) (terms : list string) : bool :=
  let candidateSkills := List.map Str.toLowerCase (cand_skills candidate) in
  if length candidateSkills =? 0 then false
  else forallb (λ term, existsb (λ skill, skillMatchesTerm skill term) candidateSkills)
         terms.

(** [mergedById.set(candidate.id, candidate)]: a [Map] keeps the place of a
    key it already has and takes the new value. *)
Fixpoint map_set (key : string) (value : Candidate) (m : list (string * Candidate))
  : list (string * Candidate) :=
  match m with
  | [] => [(key, value)]
  | (k, v) :: rest =>
      if String.eqb k key then (k, value) :: rest
      else (k, v) :: map_set key value rest
  end.

Definition mergeById (rows : list Candidate) : list Candidate :=
  List.map snd (foldl (λ m candidate, map_set (cand_id candidate) candidate m) [] rows).

(** The rows the route goes on with; [partialMatches] is [None] when the
    second query failed or did not return an array. *)
Definition mergedResults (overlapMatches : list Candidate)
    (partialMatches : option (list Candidate)) : list Candidate :=
  match partialMatches with
  | Some (first :: others) => mergeById ((first :: others) ++ overlapMatches)
  | _ => overlapMatches
  end.

(** What holds of the map after the rows [rows] have been put in it. *)
Record merged (m : list (string * Candidate)) (rows : list Candidate) : Prop := {
  merged_nodup : NoDup m.*1;
  merged_last : ∀ k v, (k, v) ∈ m →
      cand_id v = k ∧
      ∃ before after, rows = before ++ v :: after ∧
                      ∀ x, x ∈ after → cand_id x ≠ k;
  merged_all : ∀ x, x ∈ rows → cand_id x ∈ m.*1
}.

End Search.

(** ** Paging of [GET /candidates] *)

Module Paging.

(** A JavaScript number: [Number(req.query.limit)] can be any of these. *)
Inductive number :=
| NaN
| NegInf
| PosInf
| Finite (q : Q).

(** [x || d]: [NaN] and zero are falsy. *)
Definition or_else (x : number) (d : Q) : number :=
  match x with
  | NaN => Finite d
  | Finite q => if Qeq_bool q 0 then Finite d else x
  | _ => x
  end.

(** [Math.max(a, b)] *)
Definition max (a b : number) : number :=
  match a, b with
  | NaN, _ | _, NaN => NaN
  | PosInf, _ | _, PosInf => PosInf
  | NegInf, y => y
  | x, NegInf => x
  | Finite p, Finite q => if Qle_bool p q then Finite q else Finite p
  end.

(** [Math.min(a, b)] *)
Definition min (a b : number) : number :=
  match a, b with
  | NaN, _ | _, NaN => NaN
  | NegInf, _ | _, NegInf => NegInf
  | PosInf, y => y
  | x, PosInf => x
  | Finite p, Finite q => if Qle_bool p q then Finite p else Finite q
  end.

(** [Math.min(Math.max(Number(req.query.limit) || 50, 1), 200)] *)
Definition limit (raw : number) : number :=
  min (max (or_else raw 50) (Finite 1)) (Finite 200).

(** [Math.max(Number(req.query.offset) || 0, 0)] *)
Definition offset (raw : number) : number :=
  max (or_else raw 0) (Finite 0).

End Paging.

(** ** The resume parser *)

Module Resume.

Definition SKILL_LIST : list string :=
  [ "java"; "spring"; "spring boot"; "javascript"; "typescript"; "node.js";
    "express"; "react"; "angular"; "vue"; "python"; "django"; "flask";
    "fastapi"; "c"; "c++"; "c#"; ".net"; "go"; "rust"; "php"; "laravel";
    "ruby"; "rails"; "sql"; "postgresql"; "mysql"; "mongodb"; "redis"; "html";
    "css"; "tailwind"; "docker"; "kubernetes"; "aws"; "azure"; "gcp";
    "terraform"; "git"; "graphql"; "rest"; "microservices"; "linux"; "ci/cd";
    "jenkins"; "github actions"; "machine learning"; "data analysis";
    "pandas"; "numpy" ].

(** The classes [a-z] and [A-Z] of a regular expression without the [i]
    flag. *)
Definition is_lower (c : ascii) : bool :=
  (97 <=? nat_of_ascii c) && (nat_of_ascii c <=? 122).

Definition is_capital (c : ascii) : bool :=
  (65 <=? nat_of_ascii c) && (nat_of_ascii c <=? 90).

(** [toUpperCase] of one code unit: [a] to [z], and U+00E0 to U+00FE
    without the division sign U+00F7, move down by 32.  The upper-case
    forms of U+00B5, U+00DF and U+00FF lie outside the range of code units
    covered; [toTitleCase] never meets them, since [extractName] hands it
    text of letters [a-zA-Z], spaces, apostrophes, dots and hyphens only. *)
Definition upper_char (c : ascii) : ascii :=
  let n := nat_of_ascii c in
  if ((97 <=? n) && (n <=? 122))
     || ((224 <=? n) && (n <=? 254) && negb (n =? 247))
  then ascii_of_nat (n - 32) else c.

(** [word.charAt(0).toUpperCase() + word.slice(1)] *)
Definition capitalize (word : string) : string :=
  match word with
  | EmptyString => EmptyString
  | String c r => String (upper_char c) r
  end.

Definition toTitleCase (value : string) : string :=
  String.concat " "
    (List.map capitalize
       (List.filter Str.truthy (Search.split " " (Str.toLowerCase value)))).

(** [text.split(/\r?\n/)]: a carriage return right before a line feed
    belongs to the separator, so the pieces are those of the rest. *)
Fixpoint split_lines (text : string) : list string :=
  match text with
  | EmptyString => [EmptyString]
  | String c r =>
      if Ascii.eqb c "010" then EmptyString :: split_lines r
      else if Ascii.eqb c "013" && Text.starts (Ascii.eqb "010") r then split_lines r
      else match split_lines r with
           | x :: xs => String c x :: xs
           | [] => [String c EmptyString]
           end
  end.

(** [/\d{3,}/.test(line)]; [run] counts the digits just before, up to 2. *)
Fixpoint three_digits (run : nat) (line : string) : bool :=
  match line with
  | EmptyString => false
  | String c r =>
      if Str.is_digit c then (2 <=? run) || three_digits (S run) r
      else three_digits 0 r
  end.

(** The characters that [/[^a-zA-Z\s'.-]/g] leaves in place. *)
Definition name_char (c : ascii) : bool :=
  is_lower c || is_capital c || Str.is_space c
  || Ascii.eqb c "'" || Ascii.eqb c "." || Ascii.eqb c "-".

(** One round of the loop of [extractName]: the name returned at this
    line, or [None] when the loop goes on to the next line. *)
Definition name_of_line (line : string) : option string :=
  if (String.length line <? 3) || (60 <? String.length line) then None
  else if Str.includes "@" line then None
  else if three_digits 0 line then None
  else
    let cleaned :=
      Str.trim (Str.collapse_spaces false (Str.filter name_char line)) in
    let words := List.filter Str.truthy (Search.split " " cleaned) in
    if (2 <=? length words) && (length words <=? 4)
    then Some (toTitleCase cleaned) else None.

Fixpoint first_name (lines : list string) : string :=
  match lines with
  | [] => "Unknown"
  | line :: rest =>
      match name_of_line line with
      | Some found => found
      | None => first_name rest
      end
  end.

Definition extractName (text : string) : string :=
  first_name
    (take 20 (List.filter Str.truthy (List.map Str.trim (split_lines text)))).

Definition extractSkills (text : string) : list string :=
  let normalizedText := Str.toLowerCase text in
  let found :=
    List.map Str.toLowerCase
      (List.filter (λ skill, Search.pattern_test true skill normalizedText)
         SKILL_LIST) in
  dedup_first [] found.

(** [parseResumeText]; the e-mail address and the phone number are cut out
    of the text by regular expressions, which are left as parameters. *)
Definition parseResumeText (extractEmail extractPhone : string → option string)
    (text : string) : Parsed :=
  {| parsed_name := Some (extractName text);
     parsed_email := extractEmail text;
     parsed_phone := extractPhone text;
     parsed_skills := Some (Some <$> extractSkills text) |}.

(** A word of a name as [toTitleCase] leaves it: not empty, a capital
    letter [A-Z], an apostrophe, a dot or a hyphen in front, then only
    letters [a-z], apostrophes, dots and hyphens. *)
Definition word_tail (c : ascii) : bool :=
  is_lower c || Ascii.eqb c "'" || Ascii.eqb c "." || Ascii.eqb c "-".

Definition titled (word : string) : bool :=
  match word with
  | EmptyString => false
  | String c r =>
      (is_capital c || Ascii.eqb c "'" || Ascii.eqb c "." || Ascii.eqb c "-")
      && Text.all word_tail r
  end.

End Resume.

(** ** What a query of the finder meets

    The outcomes of looking [value] up in [column], from the world [w] to
    the world [w'].  A value that is [null] or empty is not asked about:
    nothing is found and the world stays as it is. *)

Module Lookup.

Section Store.

Context {W : Type} `{Store W}.

Definition miss (column : string) (value : option string) (w w' : W) : Prop :=
  match truthy_opt value with
  | None => w' = w
  | Some v => select_eq column v w = (w', QData [])
  end.

Definition hit (column : string) (value : option string) (w w' : W)
    (c : Candidate) : Prop :=
  ∃ v rows, truthy_opt value = Some v ∧
            select_eq column v w = (w', QData (c :: rows)).

Definition failure (column : string) (value : option string) (w w' : W)
    (message : string) : Prop :=
  ∃ v, truthy_opt value = Some v ∧ select_eq column v w = (w', QError message).

End Store.

End Lookup.

(** ** A store whose database answers once

    An instance of the interface in which the database answers the first
    query, with no row, and every later query fails with a timeout; inserts
    go through.  The blob store keeps the set of its paths and refuses a
    path it has with status 409. *)

Module OutageStore.

Record world := mkWorld {
  answered : nat;
  stored : list string
}.

Definition select (c v : string) (w : world) : world * QueryResult :=
  (mkWorld (S (answered w)) (stored w),
   if answered w =? 0 then QData [] else QError "timeout").

Definition put (bucket p bytes : string) (w : world) : world * option StorageError :=
  let object := bucket +:+ "/" +:+ p in
  if bool_decide (object ∈ stored w) then (w, Some MemoryStore.already_exists)
  else (mkWorld (answered w) (object :: stored w), None).

Definition insert (payload : Payload) (w : world) : world * (InsertError + Candidate) :=
  (w, inr (MemoryStore.new_row payload 0)).

#[global] Instance store : Store world := {|
  select_eq := select;
  storage_upload := put;
  public_url := MemoryStore.url;
  insert_candidate := insert;
  read_file := λ p w, (w, inl (Error "ENOENT: no such file or directory"));
  unlink_file := λ p w, (w, ());
  parse_resume := λ text w, (w, inl (Error "Invalid PDF structure."));
  sha256_hex := id
|}.

End OutageStore.

(** * Properties *)

(** ** The key set *)

Lemma collision_None (held : gset string) (keys : list string) :
  collision held keys = None ↔ ∀ key, key ∈ keys → key ∉ held.
Proof.
  unfold collision. split.
  - intros Hnone key Hin Hheld.
    apply list_elem_of_In in Hin.
    pose proof (List.find_none _ _ Hnone key Hin) as Hb.
    by apply bool_decide_eq_false in Hb.
  - intros Hfree. induction keys as [|key keys IH]; [done|]. simpl.
    rewrite bool_decide_eq_false_2; [|apply Hfree; left].
    apply IH. intros k Hk. apply Hfree. by right.
Qed.

Lemma collision_Some (held : gset string) (keys : list string) (key : string) :
  collision held keys = Some key →
  key ∈ held ∧ ∃ before after,
    keys = before ++ key :: after ∧ ∀ k, k ∈ before → k ∉ held.
Proof.
  unfold collision. induction keys as [|k keys IH]; [done|]. simpl.
  case_bool_decide as Hk.
  - intros [= ->]. split; [done|]. exists [], keys. split; [done|].
    intros k' Hk'. by apply elem_of_nil in Hk'.
  - intros Hfind. destruct (IH Hfind) as (Hheld & before & after & -> & Hfree).
    split; [done|]. exists (k :: before), after. split; [done|].
    intros k' [->|Hk']%elem_of_cons; auto.
Qed.

Lemma elem_of_mark (held : gset string) (keys : list string) (key : string) :
  key ∈ mark held keys ↔ key ∈ held ∨ key ∈ keys.
Proof.
  unfold mark. revert held. induction keys as [|k keys IH]; intros held; simpl.
  - rewrite elem_of_nil. tauto.
  - rewrite IH, elem_of_cons. set_solver.
Qed.

Lemma elem_of_unmark (held : gset string) (keys : list string) (key : string) :
  key ∈ unmark held keys ↔ key ∈ held ∧ key ∉ keys.
Proof.
  unfold unmark. revert held. induction keys as [|k keys IH]; intros held; simpl.
  - rewrite elem_of_nil. tauto.
  - rewrite IH, elem_of_cons. set_solver.
Qed.

Lemma proc_eta {W} (st : Proc W) : mkProc (inFlightDedupKeys st) (world st) = st.
Proof. by destruct st. Qed.

(** ** Keys built by [buildDedupKeys] *)

Lemma elem_of_insert_sorted (x key : string) (l : list string) :
  key ∈ Str.insert_sorted x l ↔ key = x ∨ key ∈ l.
Proof.
  induction l as [|y l IH]; simpl.
  - rewrite list_elem_of_singleton, elem_of_nil. tauto.
  - destruct (String.leb x y); rewrite !elem_of_cons; [tauto|].
    rewrite IH. tauto.
Qed.

Lemma elem_of_sort (key : string) (l : list string) :
  key ∈ Str.sort l ↔ key ∈ l.
Proof.
  unfold Str.sort. induction l as [|x l IH]; simpl; [done|].
  rewrite elem_of_insert_sorted, IH, elem_of_cons. tauto.
Qed.

Lemma key_of_head (tag : string) (value : option string) (key : string) :
  key_of tag value = Some key → ∃ v, key = tag +:+ ":" +:+ v.
Proof.
  unfold key_of. destruct value as [v|]; [|done].
  destruct (Str.truthy v); [|done]. intros [= <-]. by exists v.
Qed.

Lemma elem_of_buildDedupKeys (email phone resumeHash : option string) (key : string) :
  key ∈ buildDedupKeys email phone resumeHash ↔
  key_of "email" email = Some key ∨ key_of "phone" phone = Some key ∨
  key_of "hash" resumeHash = Some key.
Proof.
  unfold buildDedupKeys. rewrite elem_of_sort, list_elem_of_omap. split.
  - intros (o & Hin & Ho). unfold id in Ho. subst o.
    rewrite !elem_of_cons, elem_of_nil in Hin. intuition auto.
  - intros Hk. exists (Some key). split; [|done].
    rewrite !elem_of_cons. intuition auto.
Qed.


(** ** Interleaved calls: the invariant *)

Module InterleavingFacts.
Import Interleaving.

Section Calls.

Variable calls : list (list string).

Lemma inv_init : inv calls (init calls).
Proof.
  split.
  - intros key. split.
    + intros Hin. by apply elem_of_empty in Hin.
    + intros (i & keys & [Hph _] & _). simpl in Hph.
      apply lookup_replicate in Hph as [? _]. done.
  - intros i j ki kj key [Hph _]. simpl in Hph.
    apply lookup_replicate in Hph as [? _]. done.
Qed.

Lemma running_insert_other (s : sys) (h : gset string) (i j : nat)
    (ph : phase) (keys : list string) :
  ph ≠ Running →
  running calls (mkSys h (<[i := ph]> (phases s))) j keys ↔
  j ≠ i ∧ running calls s j keys.
Proof.
  intros Hph. unfold running. simpl. split.
  - intros [Hj Hc]. destruct (decide (j = i)) as [->|Hne].
    + apply list_lookup_insert_Some in Hj as [(_ & Heq & _)|[? _]]; congruence.
    + rewrite list_lookup_insert_ne in Hj by done. done.
  - intros (Hne & Hj & Hc). by rewrite list_lookup_insert_ne.
Qed.

Lemma running_insert_running (s : sys) (h : gset string) (i j : nat)
    (keys : list string) :
  i < length (phases s) →
  running calls (mkSys h (<[i := Running]> (phases s))) j keys ↔
  (j = i ∧ calls !! i = Some keys) ∨ (j ≠ i ∧ running calls s j keys).
Proof.
  intros Hlt. unfold running. simpl. split.
  - intros [Hj Hc]. destruct (decide (j = i)) as [->|Hne]; [by left|].
    rewrite list_lookup_insert_ne in Hj by done. by right.
  - intros [[-> Hc]|(Hne & Hj & Hc)].
    + by rewrite list_lookup_insert_eq.
    + by rewrite list_lookup_insert_ne.
Qed.

Lemma inv_step (i : nat) (s s' : sys) :
  inv calls s → step calls i s = Some s' → inv calls s'.
Proof.
  intros [Hheld Hexcl]. unfold step.
  destruct (phases s !! i) as [ph|] eqn:Hi; [|done].
  destruct (calls !! i) as [keys|] eqn:Hc; [|by destruct ph].
  assert (i < length (phases s)) as Hlt by by eapply lookup_lt_Some.
  destruct ph; try done.
  - (* enter *)
    destruct (collision (held s) keys) as [key|] eqn:Hcol.
    + intros [= <-]. split.
      * intros k. simpl. rewrite Hheld. split.
        -- intros (j & kj & Hj & Hk). exists j, kj. split; [|done].
           apply running_insert_other; [done|]. split; [|done].
           intros ->. destruct Hj as [Hj _]. congruence.
        -- intros (j & kj & Hj & Hk). exists j, kj.
           apply running_insert_other in Hj as [_ Hj]; done.
      * intros j1 j2 k1 k2 k H1 H2.
        apply running_insert_other in H1 as [_ H1]; [|done].
        apply running_insert_other in H2 as [_ H2]; [|done].
        by apply Hexcl.
    + intros [= <-]. pose proof (proj1 (collision_None _ _) Hcol) as Hfree.
      split.
      * intros k. simpl. rewrite elem_of_mark, Hheld. split.
        -- intros [(j & kj & Hj & Hk)|Hk].
           ++ exists j, kj. split; [|done].
              apply running_insert_running; [done|]. right. split; [|done].
              intros ->. destruct Hj as [Hj _]. congruence.
           ++ exists i, keys. split; [|done].
              apply running_insert_running; [done|]. by left.
        -- intros (j & kj & Hj & Hk).
           apply (running_insert_running _ _ _ _ _ Hlt) in Hj as [[-> Hj]|[_ Hj]].
           ++ right. congruence.
           ++ left. by exists j, kj.
      * intros j1 j2 k1 k2 k H1 H2 Hk1 Hk2.
        apply (running_insert_running _ _ _ _ _ Hlt) in H1 as [[-> H1]|[Hne1 H1]];
          apply (running_insert_running _ _ _ _ _ Hlt) in H2 as [[-> H2]|[Hne2 H2]];
          try done.
        -- exfalso. assert (k1 = keys) as -> by congruence.
           apply (Hfree k Hk1), Hheld. by exists j2, k2.
        -- exfalso. assert (k2 = keys) as -> by congruence.
           apply (Hfree k Hk2), Hheld. by exists j1, k1.
        -- by eapply Hexcl.
  - (* leave *)
    intros [= <-]. split.
    + intros k. simpl. rewrite elem_of_unmark, Hheld. split.
      * intros [(j & kj & Hj & Hk) Hnot]. exists j, kj. split; [|done].
        apply running_insert_other; [done|]. split; [|done].
        intros ->. destruct Hj as [_ Hj]. congruence.
      * intros (j & kj & Hj & Hk).
        apply running_insert_other in Hj as [Hne Hj]; [|done]. split.
        -- by exists j, kj.
        -- intros Hin. apply Hne. by apply (Hexcl j i kj keys k).
    + intros j1 j2 k1 k2 k H1 H2.
      apply running_insert_other in H1 as [_ H1]; [|done].
      apply running_insert_other in H2 as [_ H2]; [|done].
      by apply Hexcl.
Qed.

Lemma inv_schedule (schedule : list nat) (s s' : sys) :
  inv calls s → run calls schedule s = Some s' → inv calls s'.
Proof.
  revert s. induction schedule as [|i rest IH]; intros s Hinv; simpl.
  - by intros [= <-].
  - destruct (step calls i s) as [s1|] eqn:Hstep; [|done].
    apply IH. by eapply inv_step.
Qed.

Lemma inv_reachable (schedule : list nat) (s : sys) :
  run calls schedule (init calls) = Some s → inv calls s.
Proof. apply inv_schedule, inv_init. Qed.

End Calls.

End InterleavingFacts.

(** ** The exclusion lock *)

(** C1. In every state that interleaved calls of [withDedupLock] can reach,
    two calls that are both inside their critical section share no key:
    if a key belongs to the key lists of two running calls, they are the
    same call.  Moreover a key the set holds is a key of exactly one running
    call.  The check and the marking are one step of the interleaving, as
    there is no [await] between them in the code. *)
Theorem mutual_exclusion (calls : list (list string)) (schedule : list nat)
    (s : Interleaving.sys) :
  Interleaving.run calls schedule (Interleaving.init calls) = Some s →
  (∀ i j ki kj key,
      Interleaving.running calls s i ki → Interleaving.running calls s j kj →
      key ∈ ki → key ∈ kj → i = j) ∧
  (∀ key, key ∈ Interleaving.held s →
      ∃ i ki, Interleaving.running calls s i ki ∧ key ∈ ki ∧
        ∀ j kj, Interleaving.running calls s j kj → key ∈ kj → j = i).
Proof.
  intros Hrun. apply InterleavingFacts.inv_reachable in Hrun as [Hheld Hexcl].
  split; [exact Hexcl|].
  intros key (i & ki & Hi & Hk)%Hheld. exists i, ki.
  split; [done|]. split; [done|].
  intros j kj Hj Hkj. by apply (Hexcl j i kj ki key).
Qed.

Lemma mutual_exclusion_witness :
  let calls := [["email:a@b.c"; "hash:ff"]; ["hash:ff"; "phone:+15551234567"]; []] in
  let s := Interleaving.mkSys (mark ∅ ["email:a@b.c"; "hash:ff"])
             [Interleaving.Running;
              Interleaving.Rejected (in_flight_error "hash:ff");
              Interleaving.Running] in
  Interleaving.run calls [0; 1; 2] (Interleaving.init calls) = Some s ∧
  (∀ i j ki kj key,
      Interleaving.running calls s i ki → Interleaving.running calls s j kj →
      key ∈ ki → key ∈ kj → i = j) ∧
  (∀ key, key ∈ Interleaving.held s →
      ∃ i ki, Interleaving.running calls s i ki ∧ key ∈ ki ∧
        ∀ j kj, Interleaving.running calls s j kj → key ∈ kj → j = i).
Proof.
  intros calls s.
  assert (Interleaving.run calls [0; 1; 2] (Interleaving.init calls) = Some s) as Hrun
    by (vm_compute; reflexivity).
  split; [exact Hrun|].
  exact (mutual_exclusion calls [0; 1; 2] s Hrun).
Defined.



(** C3. When no key of [keys] is in the set, the operation runs in a state
    where every key of [keys] is held, its result (a value or a thrown
    error) is the result of the call, and in the state the call returns
    none of its keys is held; so a later call with the same keys finds no
    collision there and runs its own operation. *)
Theorem withDedupLock_free {W A : Type} (keys : list string) (fn : M W A)
    (st : Proc W) :
  (∀ key, key ∈ keys → key ∉ inFlightDedupKeys st) →
  let entered := mkProc (mark (inFlightDedupKeys st) keys) (world st) in
  let final := fst (withDedupLock keys fn st) in
  (∀ key, key ∈ keys → key ∈ inFlightDedupKeys entered) ∧
  withDedupLock keys fn st =
    (mkProc (unmark (inFlightDedupKeys (fst (fn entered))) keys)
            (world (fst (fn entered))),
     snd (fn entered)) ∧
  (∀ key, key ∈ keys → key ∉ inFlightDedupKeys final) ∧
  (∀ (B : Type) (fn' : M W B),
      collision (inFlightDedupKeys final) keys = None ∧
      withDedupLock keys fn' final =
        (let again := fn' (mkProc (mark (inFlightDedupKeys final) keys) (world final)) in
         (mkProc (unmark (inFlightDedupKeys (fst again)) keys) (world (fst again)),
          snd again))).
Proof.
  intros Hfree entered final.
  assert (withDedupLock keys fn st =
            (mkProc (unmark (inFlightDedupKeys (fst (fn entered))) keys)
                    (world (fst (fn entered))), snd (fn entered))) as Hrun.
  { unfold withDedupLock. rewrite (proj2 (collision_None _ _) Hfree).
    fold entered. by destruct (fn entered). }
  assert (∀ key, key ∈ keys → key ∉ inFlightDedupKeys final) as Hreleased.
  { intros key Hin. unfold final. rewrite Hrun. simpl.
    rewrite elem_of_unmark. tauto. }
  repeat split; [|done|done| |].
  - intros key Hin. simpl. apply elem_of_mark. by right.
  - by apply collision_None.
  - unfold withDedupLock at 1. rewrite (proj2 (collision_None _ _) Hreleased).
    by destruct (fn' _).
Qed.

Lemma withDedupLock_free_witness :
  let keys := ["email:a@b.c"; "hash:ff"] in
  let fn : M nat bool := λ st, (mkProc (inFlightDedupKeys st) (S (world st)),
                               inl (Error "storage is down")) in
  let st := mkProc ({["phone:+15551234567"]} : gset string) 0 in
  (∀ key, key ∈ keys → key ∉ inFlightDedupKeys st) ∧
  let entered := mkProc (mark (inFlightDedupKeys st) keys) (world st) in
  let final := fst (withDedupLock keys fn st) in
  (∀ key, key ∈ keys → key ∈ inFlightDedupKeys entered) ∧
  withDedupLock keys fn st =
    (mkProc (unmark (inFlightDedupKeys (fst (fn entered))) keys)
            (world (fst (fn entered))),
     snd (fn entered)) ∧
  (∀ key, key ∈ keys → key ∉ inFlightDedupKeys final) ∧
  (∀ (B : Type) (fn' : M nat B),
      collision (inFlightDedupKeys final) keys = None ∧
      withDedupLock keys fn' final =
        (let again := fn' (mkProc (mark (inFlightDedupKeys final) keys) (world final)) in
         (mkProc (unmark (inFlightDedupKeys (fst again)) keys) (world (fst again)),
          snd again))).
Proof.
  intros keys fn st.
  assert (∀ key, key ∈ keys → key ∉ inFlightDedupKeys st) as Hfree.
  { intros key Hin Hheld. simpl in Hheld. apply elem_of_singleton in Hheld.
    subst key. unfold keys in Hin. rewrite !elem_of_cons, elem_of_nil in Hin.
    destruct Hin as [?|[?|[]]]; discriminate. }
  split; [exact Hfree|].
  exact (withDedupLock_free keys fn st Hfree).
Defined.

(** C10. With an empty key list [withDedupLock] finds no collision, whatever
    the set holds, and does exactly what the operation does.  The keys of
    [/upload] come from the e-mail address and the phone number only, never
    from the hash: when neither normalizes to a value the list is empty, and
    the endpoint runs its operation even while the set holds the hash key of
    the same file.  Two calls without keys can be inside their critical
    sections together. *)
Theorem withDedupLock_no_keys {W A : Type} `{Store W} (fn : M W A) (st : Proc W) :
  collision (inFlightDedupKeys st) [] = None ∧
  withDedupLock [] fn st = fn st ∧
  (∀ body_email body_phone key,
      key ∈ uploadDedupKeys body_email body_phone →
      Str.split_colon_head key ∈ ["email"; "phone"]) ∧
  (∀ body_name body_email body_phone body_skills fileBuffer,
      normalizeEmail body_email = None → normalizePhone body_phone = None →
      uploadDedupKeys body_email body_phone = [] ∧
      let storagePath := buildResumeStoragePath (sha256_hex fileBuffer) "resumes" in
      let record := {| name := body_name; email := None; phone := None;
                       skills := body_skills;
                       resume_url := truthy_opt (public_url "resumes" storagePath) |} in
      upload body_name body_email body_phone body_skills fileBuffer st =
      (let* _ := uploadLocked "resumes" storagePath fileBuffer record in
       uploadInsert record) st) ∧
  (∃ s, Interleaving.run [[]; []] [0; 1] (Interleaving.init [[]; []]) = Some s ∧
        Interleaving.running [[]; []] s 0 [] ∧
        Interleaving.running [[]; []] s 1 []).
Proof.
  assert (∀ B (g : M W B) (s0 : Proc W), withDedupLock [] g s0 = g s0) as Hnone.
  { intros B g s0. unfold withDedupLock. simpl. rewrite proc_eta.
    destruct (g s0) as [s1 r]. by rewrite proc_eta. }
  split; [done|]. split; [apply Hnone|]. split; [|split].
  - intros body_email body_phone key Hin. unfold uploadDedupKeys in Hin.
    apply elem_of_buildDedupKeys in Hin as [Hk|[Hk|Hk]]; [| |done];
      apply key_of_head in Hk as [v ->]; simpl; rewrite !elem_of_cons; auto.
  - intros body_name body_email body_phone body_skills fileBuffer Hemail Hphone.
    assert (uploadDedupKeys body_email body_phone = []) as Hkeys.
    { unfold uploadDedupKeys. by rewrite Hemail, Hphone. }
    split; [done|]. unfold upload. rewrite Hkeys, Hemail, Hphone. apply Hnone.
  - eexists. split; [reflexivity|]. by split.
Qed.

Lemma withDedupLock_no_keys_witness :
  let fileBuffer := "%PDF-1.4 resume" in
  let st := mkProc ({["hash:" +:+ fileBuffer]} : gset string) MemoryStore.empty in
  normalizeEmail None = None ∧ normalizePhone (Some "n/a") = None ∧
  uploadDedupKeys None (Some "n/a") = [] ∧
  upload (Some "Ann") None (Some "n/a") [] fileBuffer st =
    (let storagePath := buildResumeStoragePath (sha256_hex fileBuffer) "resumes" in
     let record := {| name := Some "Ann"; email := None; phone := None; skills := [];
                      resume_url := truthy_opt (public_url "resumes" storagePath) |} in
     (let* _ := uploadLocked "resumes" storagePath fileBuffer record in
      uploadInsert record) st) ∧
  snd (upload (Some "Ann") None (Some "n/a") [] fileBuffer st) = inr ().
Proof.
  intros fileBuffer st.
  assert (normalizeEmail None = None) as Hemail by reflexivity.
  assert (normalizePhone (Some "n/a") = None) as Hphone by reflexivity.
  split; [exact Hemail|]. split; [exact Hphone|].
  pose proof (withDedupLock_no_keys (A := unit) (ret ()) st) as (_ & _ & _ & Hupload & _).
  destruct (Hupload (Some "Ann") None (Some "n/a") [] fileBuffer Hemail Hphone)
    as [Hkeys Hrun].
  split; [exact Hkeys|]. split; [exact Hrun|].
  vm_compute. reflexivity.
Defined.

(** ** Phone numbers *)

Lemma is_digit_decimal (c : ascii) :
  Str.is_digit c = bool_decide (c ∈ decimal_digits).
Proof. destruct c as [[] [] [] [] [] [] [] []]; reflexivity. Qed.

Lemma filter_is_digit (s : string) :
  list_ascii_of_string (Str.filter Str.is_digit s) =
  List.filter (λ c, bool_decide (c ∈ decimal_digits)) (list_ascii_of_string s).
Proof.
  induction s as [|c s IH]; [done|]. simpl.
  rewrite <- is_digit_decimal. destruct (Str.is_digit c); simpl; by rewrite IH.
Qed.

Lemma truthy_filter (p : ascii → bool) (s : string) :
  Str.truthy s = false → Str.filter p s = EmptyString.
Proof. by destruct s. Qed.

(** C9. [normalizePhone] keeps the decimal digits of its input, in order,
    and nothing else.  With no digit the result is [null]; with ten it is
    [+1] and the digits; with eleven that start with [1] it is [+] and the
    digits, and so it is for every other count.  The two example numbers
    both give [+15551234567]. *)
Theorem normalizePhone_cases (value : string) :
  let digits := Str.filter Str.is_digit value in
  list_ascii_of_string digits =
    List.filter (λ c, bool_decide (c ∈ decimal_digits)) (list_ascii_of_string value) ∧
  (digits = EmptyString → normalizePhone (Some value) = None) ∧
  (String.length digits = 10 →
     normalizePhone (Some value) = Some ("+1" +:+ digits)) ∧
  (String.length digits = 11 → Str.startsWith "1" digits = true →
     normalizePhone (Some value) = Some ("+" +:+ digits)) ∧
  (digits ≠ EmptyString → String.length digits ≠ 10 →
     normalizePhone (Some value) = Some ("+" +:+ digits)) ∧
  normalizePhone (Some "(555) 123-4567") = Some "+15551234567" ∧
  normalizePhone (Some "555.123.4567") = Some "+15551234567".
Proof.
  intros digits. split; [apply filter_is_digit|].
  assert (Str.truthy value = false → digits = EmptyString) as Hempty
    by apply truthy_filter.
  unfold normalizePhone. fold digits.
  destruct (Str.truthy value) eqn:Hvalue.
  - repeat split.
    + by intros ->.
    + intros Hlen. destruct digits; [done|]. simpl Str.truthy. simpl negb.
      cbv iota. by rewrite Hlen.
    + intros Hlen Hone. destruct digits; [done|]. simpl Str.truthy.
      simpl negb. cbv iota. rewrite Hlen, Hone. reflexivity.
    + intros Hne Hlen. destruct digits as [|c r] eqn:Hd; [done|].
      simpl Str.truthy. simpl negb. cbv iota.
      rewrite (proj2 (Nat.eqb_neq _ _) Hlen). by destruct (_ && _).
  - rewrite (Hempty eq_refl). repeat split; try done.
Qed.

Lemma normalizePhone_cases_witness :
  String.length (Str.filter Str.is_digit "+1 (555) 123-4567") = 11 ∧
  Str.startsWith "1" (Str.filter Str.is_digit "+1 (555) 123-4567") = true ∧
  normalizePhone (Some "+1 (555) 123-4567") = Some "+15551234567".
Proof.
  split; [reflexivity|]. split; [reflexivity|].
  exact (proj1 (proj2 (proj2 (proj2 (normalizePhone_cases "+1 (555) 123-4567"))))
           eq_refl eq_refl).
Defined.

(** ** Steps of the monad *)

Lemma bind_inr {W A B} (m : M W A) (k : A → M W B) (st st1 : Proc W) (a : A) :
  m st = (st1, inr a) → bind m k st = k a st1.
Proof. intros Hm. unfold bind. by rewrite Hm. Qed.

Lemma bind_inl {W A B} (m : M W A) (k : A → M W B) (st st1 : Proc W) (e : exn) :
  m st = (st1, inl e) → bind m k st = (st1, inl e).
Proof. intros Hm. unfold bind. by rewrite Hm. Qed.

Lemma call_eq {W A} (f : W → W * A) (st : Proc W) (w : W) (a : A) :
  f (world st) = (w, a) → call f st = (mkProc (inFlightDedupKeys st) w, inr a).
Proof. intros Hf. unfold call. by rewrite Hf. Qed.

(** ** The existing-record finder *)

Section Finder.

Context {W : Type} `{Store W}.

Lemma queryCandidateBy_skip (column label : string) (value : option string)
    (st : Proc W) :
  truthy_opt value = None →
  queryCandidateBy column label value st = (st, inr None).
Proof. intros Hv. unfold queryCandidateBy. by rewrite Hv. Qed.

Lemma queryCandidateBy_ask (column label : string) (value : option string)
    (v : string) (st : Proc W) :
  truthy_opt value = Some v →
  queryCandidateBy column label value st =
  (mkProc (inFlightDedupKeys st) (fst (select_eq column v (world st))),
   match snd (select_eq column v (world st)) with
   | QError message =>
       inl (Error ("Failed duplicate check by " +:+ label +:+ ": " +:+ message))
   | QData rows => inr (head rows)
   end).
Proof.
  intros Hv. unfold queryCandidateBy. rewrite Hv.
  destruct (select_eq column v (world st)) as [w r] eqn:Hsel.
  rewrite (bind_inr _ _ _ _ _ (call_eq _ _ _ _ Hsel)). by destruct r.
Qed.

Lemma queryCandidateBy_error (column label : string) (value : option string)
    (st st' : Proc W) (err : exn) :
  queryCandidateBy column label value st = (st', inl err) →
  ∃ message, err = Error ("Failed duplicate check by " +:+ label +:+ ": " +:+ message).
Proof.
  destruct (truthy_opt value) as [v|] eqn:Hv.
  - rewrite (queryCandidateBy_ask _ _ _ _ _ Hv).
    destruct (snd (select_eq column v (world st))) as [message|rows];
      intros [= _ <-]; by eexists.
  - by rewrite (queryCandidateBy_skip _ _ _ _ Hv).
Qed.

Lemma findExistingCandidate_error (email phone resumeUrl : option string)
    (st st' : Proc W) (err : exn) :
  findExistingCandidate email phone resumeUrl st = (st', inl err) →
  ∃ label message,
    err = Error ("Failed duplicate check by " +:+ label +:+ ": " +:+ message).
Proof.
  unfold findExistingCandidate, queryCandidateByEmail, queryCandidateByPhone,
    queryCandidateByResumeUrl, bind.
  destruct (queryCandidateBy "email" "email" email st) as [st1 [e1|[c1|]]] eqn:H1.
  - intros [= _ <-]. apply queryCandidateBy_error in H1 as [m ->]. by eexists _, _.
  - done.
  - destruct (queryCandidateBy "phone" "phone" phone st1) as [st2 [e2|[c2|]]] eqn:H2.
    + intros [= _ <-]. apply queryCandidateBy_error in H2 as [m ->]. by eexists _, _.
    + done.
    + destruct (queryCandidateBy "resume_url" "resume URL" resumeUrl st2)
        as [st3 [e3|[c3|]]] eqn:H3; [|done..].
      intros [= _ <-]. apply queryCandidateBy_error in H3 as [m ->]. by eexists _, _.
Qed.

End Finder.

Section FinderLookup.

Context {W : Type} `{Store W}.

Lemma query_hit (column label : string) (value : option string) (st : Proc W)
    (w : W) (c : Candidate) :
  Lookup.hit column value (world st) w c →
  queryCandidateBy column label value st =
    (mkProc (inFlightDedupKeys st) w, inr (Some c)).
Proof.
  intros (v & rows & Hv & Hsel).
  rewrite (queryCandidateBy_ask _ _ _ _ _ Hv), Hsel. done.
Qed.

Lemma query_miss (column label : string) (value : option string) (st : Proc W)
    (w : W) :
  Lookup.miss column value (world st) w →
  queryCandidateBy column label value st =
    (mkProc (inFlightDedupKeys st) w, inr None).
Proof.
  unfold Lookup.miss. destruct (truthy_opt value) as [v|] eqn:Hv.
  - intros Hsel. rewrite (queryCandidateBy_ask _ _ _ _ _ Hv), Hsel. done.
  - intros ->. rewrite (queryCandidateBy_skip _ _ _ _ Hv). by rewrite proc_eta.
Qed.

Lemma query_failure (column label : string) (value : option string) (st : Proc W)
    (w : W) (message : string) :
  Lookup.failure column value (world st) w message →
  queryCandidateBy column label value st =
    (mkProc (inFlightDedupKeys st) w,
     inl (Error ("Failed duplicate check by " +:+ label +:+ ": " +:+ message))).
Proof.
  intros (v & Hv & Hsel).
  rewrite (queryCandidateBy_ask _ _ _ _ _ Hv), Hsel. done.
Qed.

End FinderLookup.

(** C8. [findExistingCandidate] looks the e-mail address up in the column
    [email], then the phone in the column [phone], then the resume URL in
    the column [resume_url], each query starting from the world the one
    before left.  A value that is [null] or empty is not asked about: the
    world stays as it is.  The first query that returns rows ends the search
    with the first of them and the tag [email], [phone] or [resume], and no
    later query is made; when no query returns a row the result is [null],
    not an error.  A query that fails ends the search with its error. *)
Theorem findExistingCandidate_order {W : Type} `{Store W}
    (email phone resumeUrl : option string) (st : Proc W) :
  let at_world := mkProc (inFlightDedupKeys st) in
  let found := findExistingCandidate email phone resumeUrl st in
  (∀ w1 c,
      Lookup.hit "email" email (world st) w1 c →
      found = (at_world w1, inr (Some (c, "email")))) ∧
  (∀ w1 w2 c,
      Lookup.miss "email" email (world st) w1 →
      Lookup.hit "phone" phone w1 w2 c →
      found = (at_world w2, inr (Some (c, "phone")))) ∧
  (∀ w1 w2 w3 c,
      Lookup.miss "email" email (world st) w1 →
      Lookup.miss "phone" phone w1 w2 →
      Lookup.hit "resume_url" resumeUrl w2 w3 c →
      found = (at_world w3, inr (Some (c, "resume")))) ∧
  (∀ w1 w2 w3,
      Lookup.miss "email" email (world st) w1 →
      Lookup.miss "phone" phone w1 w2 →
      Lookup.miss "resume_url" resumeUrl w2 w3 →
      found = (at_world w3, inr None)) ∧
  (∀ w1 message,
      Lookup.failure "email" email (world st) w1 message →
      found = (at_world w1,
               inl (Error ("Failed duplicate check by email: " +:+ message)))) ∧
  (∀ w1 w2 message,
      Lookup.miss "email" email (world st) w1 →
      Lookup.failure "phone" phone w1 w2 message →
      found = (at_world w2,
               inl (Error ("Failed duplicate check by phone: " +:+ message)))) ∧
  (∀ w1 w2 w3 message,
      Lookup.miss "email" email (world st) w1 →
      Lookup.miss "phone" phone w1 w2 →
      Lookup.failure "resume_url" resumeUrl w2 w3 message →
      found = (at_world w3,
               inl (Error ("Failed duplicate check by resume URL: " +:+ message)))) ∧
  findExistingCandidate None None None st = (st, inr None).
Proof.
  intros at_world found. subst found.
  unfold findExistingCandidate, queryCandidateByEmail, queryCandidateByPhone,
    queryCandidateByResumeUrl.
  repeat split.
  - intros w1 c H1. by rewrite (bind_inr _ _ _ _ _ (query_hit _ "email" _ _ _ _ H1)).
  - intros w1 w2 c H1 H2.
    rewrite (bind_inr _ _ _ _ _ (query_miss _ "email" _ _ _ H1)).
    by rewrite (bind_inr _ _ _ _ _ (query_hit _ "phone" _ (at_world w1) _ _ H2)).
  - intros w1 w2 w3 c H1 H2 H3.
    rewrite (bind_inr _ _ _ _ _ (query_miss _ "email" _ _ _ H1)).
    rewrite (bind_inr _ _ _ _ _ (query_miss _ "phone" _ (at_world w1) _ H2)).
    by rewrite (bind_inr _ _ _ _ _ (query_hit _ "resume URL" _ (at_world w2) _ _ H3)).
  - intros w1 w2 w3 H1 H2 H3.
    rewrite (bind_inr _ _ _ _ _ (query_miss _ "email" _ _ _ H1)).
    rewrite (bind_inr _ _ _ _ _ (query_miss _ "phone" _ (at_world w1) _ H2)).
    by rewrite (bind_inr _ _ _ _ _ (query_miss _ "resume URL" _ (at_world w2) _ H3)).
  - intros w1 message H1.
    by rewrite (bind_inl _ _ _ _ _ (query_failure _ "email" _ _ _ _ H1)).
  - intros w1 w2 message H1 H2.
    rewrite (bind_inr _ _ _ _ _ (query_miss _ "email" _ _ _ H1)).
    by rewrite (bind_inl _ _ _ _ _ (query_failure _ "phone" _ (at_world w1) _ _ H2)).
  - intros w1 w2 w3 message H1 H2 H3.
    rewrite (bind_inr _ _ _ _ _ (query_miss _ "email" _ _ _ H1)).
    rewrite (bind_inr _ _ _ _ _ (query_miss _ "phone" _ (at_world w1) _ H2)).
    by rewrite (bind_inl _ _ _ _ _
                  (query_failure _ "resume URL" _ (at_world w2) _ _ H3)).
Qed.

Lemma findExistingCandidate_order_witness :
  let row := {| cand_id := "row-"; cand_name := Some "Ann";
                cand_email := Some "ann@old.example";
                cand_phone := Some "+15551234567";
                cand_skills := []; cand_resume_url := None |} in
  let w := MemoryStore.mkWorld [row] [] [] in
  let st := mkProc (∅ : gset string) w in
  Lookup.miss "email" (Some "ann@new.example") (world st) w ∧
  Lookup.hit "phone" (Some "+15551234567") w w row ∧
  findExistingCandidate (Some "ann@new.example") (Some "+15551234567") None st =
    (st, inr (Some (row, "phone"))).
Proof.
  intros row w st.
  assert (Lookup.miss "email" (Some "ann@new.example") (world st) w) as H1
    by (vm_compute; reflexivity).
  assert (Lookup.hit "phone" (Some "+15551234567") w w row) as H2
    by (exists "+15551234567", []; split; vm_compute; reflexivity).
  split; [exact H1|]. split; [exact H2|].
  exact (proj1 (proj2 (findExistingCandidate_order (Some "ann@new.example")
                         (Some "+15551234567") None st)) w w row H1 H2).
Defined.

(** ** The candidate writer *)

(** C6, as the code has it.  When the insert fails with code [23505] the
    finder runs again, from the world the insert left, with the payload's
    e-mail address and phone and the resume URL.  If it returns a record,
    a [DuplicateCandidateError] with that record and its matched dimension
    is thrown; if it returns [null], the error has empty details and names
    [constraint] in its message; if a query of the finder fails, that error
    is thrown.  A failure with any other code is thrown as a plain [Error],
    never as a duplicate. *)
Theorem insertCandidate_failure {W : Type} `{Store W} (payload : Payload)
    (resumeUrl : option string) (st : Proc W) (w : W) (insertError : InsertError) :
  insert_candidate payload (world st) = (w, inl insertError) →
  let st1 := mkProc (inFlightDedupKeys st) w in
  let found := findExistingCandidate (email payload) (phone payload) resumeUrl st1 in
  (isUniqueViolation insertError = true ↔ code insertError = Some "23505") ∧
  (isUniqueViolation insertError = true →
     insertCandidate payload resumeUrl st =
       (fst found,
        match snd found with
        | inr (Some (c, dimension)) =>
            inl (DuplicateCandidateError
                   ("Duplicate candidate skipped (matched by " +:+ dimension +:+ ").")
                   {| candidate := Some c; matchBy := Some dimension |})
        | inr None =>
            inl (DuplicateCandidateError
                   "Duplicate candidate skipped (matched by constraint)."
                   {| candidate := None; matchBy := None |})
        | inl err => inl err
        end)) ∧
  (isUniqueViolation insertError = false →
     insertCandidate payload resumeUrl st =
       (st1, inl (Error ("Failed to save candidate in database: "
                         +:+ show (insert_message insertError)))) ∧
     is_duplicate (Error ("Failed to save candidate in database: "
                          +:+ show (insert_message insertError))) = false).
Proof.
  intros Hins st1 found. split; [|split].
  - unfold isUniqueViolation. apply bool_decide_eq_true.
  - intros Hviolation. unfold insertCandidate.
    rewrite (bind_inr _ _ _ _ _ (call_eq _ _ _ _ Hins)), Hviolation.
    fold st1. unfold bind. fold found.
    destruct found as [st2 [err|[[c dimension]|]]]; reflexivity.
  - intros Hother. split; [|done]. unfold insertCandidate.
    by rewrite (bind_inr _ _ _ _ _ (call_eq _ _ _ _ Hins)), Hother.
Qed.

Lemma insertCandidate_failure_witness :
  let row := {| cand_id := "row-"; cand_name := Some "Ann";
                cand_email := Some "ann@b.example";
                cand_phone := None; cand_skills := []; cand_resume_url := None |} in
  let payload := {| name := Some "Ann B"; email := Some "ann@b.example";
                    phone := None; skills := []; resume_url := None |} in
  let w := MemoryStore.mkWorld [row] [] [] in
  let st := mkProc (∅ : gset string) w in
  insert_candidate payload (world st) = (w, inl MemoryStore.unique_violation) ∧
  insertCandidate payload None st =
    (st, inl (DuplicateCandidateError "Duplicate candidate skipped (matched by email)."
                {| candidate := Some row; matchBy := Some "email" |})).
Proof.
  intros row payload w st.
  assert (insert_candidate payload (world st) = (w, inl MemoryStore.unique_violation))
    as Hins by (vm_compute; reflexivity).
  split; [exact Hins|].
  exact (proj1 (proj2 (insertCandidate_failure payload None st w
                         MemoryStore.unique_violation Hins)) eq_refl).
Defined.

(** C6 as stated fails.  A row whose address differs from the payload's
    only in letter case makes the insert fail on the index over
    [lower(email)], while the finder, which compares addresses as they are,
    returns no row: the error thrown carries no record and no matched
    dimension, here through the whole of [saveCandidateFromFile]. *)
Lemma conflict_without_winner :
  let row := {| cand_id := "row-"; cand_name := Some "Ann";
                cand_email := Some "Ann@B.example";
                cand_phone := None; cand_skills := []; cand_resume_url := None |} in
  let file := {| path := "/tmp/upload-1.pdf"; originalname := "ann.pdf" |} in
  let w := MemoryStore.mkWorld [row] [] [(path file, "ann@b.example")] in
  let payload := {| name := None; email := Some "ann@b.example"; phone := None;
                    skills := [];
                    resume_url := Some "https://store.example/resumes/uploads/ann@b.example.pdf" |} in
  let st := mkProc (∅ : gset string) w in
  fst (insert_candidate payload w) = w ∧
  (code <$> sum_rect (λ _, option InsertError) Some (λ _, None)
              (snd (insert_candidate payload w))) = Some (Some "23505") ∧
  snd (insertCandidate payload (resume_url payload) st) =
    inl (DuplicateCandidateError
           "Duplicate candidate skipped (matched by constraint)." no_details) ∧
  snd (saveCandidateFromFile "resumes" file st) =
    inl (DuplicateCandidateError
           "Duplicate candidate skipped (matched by constraint)." no_details) ∧
  ¬ ∃ st' message c dimension,
      insertCandidate payload (resume_url payload) st =
        (st', inl (DuplicateCandidateError message
                     {| candidate := Some c; matchBy := Some dimension |})).
Proof.
  intros row file w payload st.
  assert (snd (insertCandidate payload (resume_url payload) st) =
            inl (DuplicateCandidateError
                   "Duplicate candidate skipped (matched by constraint)." no_details))
    as Hrun by (vm_compute; reflexivity).
  split; [vm_compute; reflexivity|]. split; [vm_compute; reflexivity|].
  split; [exact Hrun|]. split; [vm_compute; reflexivity|].
  intros (st' & message & c & dimension & Heq).
  rewrite Heq in Hrun. simpl in Hrun. discriminate Hrun.
Qed.

(** ** The resume store *)

(** C7, as the code has it.  The first check found no record and the upload
    came back with an error.  The error is taken as "already exists" exactly
    when its status code is 409 or its message, in lower case, contains
    [already exists].  Such an error is never thrown, but the attempt does
    not go on as after an upload without error: [saveCandidateFromFile]
    runs the finder once more, from the world the upload left.  Only when
    that finds no record does the attempt go on to the insert; a record
    found ends it with a [DuplicateCandidateError], a query that fails ends
    it with the error of that query.  Any other upload error ends the
    attempt with a plain [Error], before any insert.  The operation of
    [/upload] goes on to its insert at once after "already exists", and
    throws the message of any other upload error. *)
Theorem storage_error_outcome {W : Type} `{Store W}
    (bucket storagePath fileBuffer : string) (payload : Payload)
    (resumeUrl : option string) (st st0 : Proc W) (w : W)
    (storageError : StorageError) :
  storage_upload bucket storagePath fileBuffer (world st0) = (w, Some storageError) →
  let st1 := mkProc (inFlightDedupKeys st0) w in
  let again := findExistingCandidate (email payload) (phone payload) resumeUrl st1 in
  (isStorageAlreadyExistsError (Some storageError) = true ↔
     statusCode storageError = Some 409%Z ∨
     Str.includes "already exists"
       (Str.toLowerCase (default "" (storage_message storageError))) = true) ∧
  (findExistingCandidate (email payload) (phone payload) resumeUrl st = (st0, inr None) →
   (isStorageAlreadyExistsError (Some storageError) = true →
      saveCandidateLocked bucket storagePath fileBuffer payload resumeUrl st =
        match snd again with
        | inr None => insertCandidate payload resumeUrl (fst again)
        | inr (Some existing) => (fst again, inl (duplicate_skipped existing))
        | inl err => (fst again, inl err)
        end) ∧
   (isStorageAlreadyExistsError (Some storageError) = false →
      saveCandidateLocked bucket storagePath fileBuffer payload resumeUrl st =
        (st1, inl (Error ("Failed to upload resume to Supabase Storage: "
                          +:+ show (storage_message storageError)))))) ∧
  (findExistingCandidate (email payload) (phone payload) None st = (st0, inr None) →
   (isStorageAlreadyExistsError (Some storageError) = true →
      (let* _ := uploadLocked bucket storagePath fileBuffer payload in
       uploadInsert payload) st = uploadInsert payload st1) ∧
   (isStorageAlreadyExistsError (Some storageError) = false →
      (let* _ := uploadLocked bucket storagePath fileBuffer payload in
       uploadInsert payload) st =
        (st1, inl (Error (message_or_string (storage_message storageError)))))).
Proof.
  intros Hup st1 again.
  pose proof (call_eq _ _ _ _ Hup) as Hcall. fold st1 in Hcall.
  split; [|split].
  - unfold isStorageAlreadyExistsError.
    rewrite orb_true_iff, bool_decide_eq_true. done.
  - intros Hfirst. unfold saveCandidateLocked.
    rewrite (bind_inr _ _ _ _ _ Hfirst). split.
    + intros Hexists.
      assert (putResume bucket storagePath fileBuffer payload resumeUrl st0 =
                (fst again,
                 match snd again with
                 | inr None => inr ()
                 | inr (Some existing) => inl (duplicate_skipped existing)
                 | inl err => inl err
                 end)) as Hput.
      { unfold putResume. rewrite (bind_inr _ _ _ _ _ Hcall), Hexists.
        cbn [negb]. unfold bind. fold again.
        by destruct again as [st2 [err|[existing|]]]. }
      unfold bind at 1. rewrite Hput.
      by destruct again as [st2 [err|[existing|]]].
    + intros Hother.
      assert (putResume bucket storagePath fileBuffer payload resumeUrl st0 =
                (st1, inl (Error ("Failed to upload resume to Supabase Storage: "
                                  +:+ show (storage_message storageError))))) as Hput.
      { unfold putResume. by rewrite (bind_inr _ _ _ _ _ Hcall), Hother. }
      by rewrite (bind_inl _ _ _ _ _ Hput).
  - intros Hfirst. split.
    + intros Hexists.
      assert (uploadLocked bucket storagePath fileBuffer payload st = (st1, inr ()))
        as Hlocked.
      { unfold uploadLocked. rewrite (bind_inr _ _ _ _ _ Hfirst).
        unfold uploadPut. by rewrite (bind_inr _ _ _ _ _ Hcall), Hexists. }
      by rewrite (bind_inr _ _ _ _ _ Hlocked).
    + intros Hother.
      assert (uploadLocked bucket storagePath fileBuffer payload st =
                (st1, inl (Error (message_or_string (storage_message storageError)))))
        as Hlocked.
      { unfold uploadLocked. rewrite (bind_inr _ _ _ _ _ Hfirst).
        unfold uploadPut. by rewrite (bind_inr _ _ _ _ _ Hcall), Hother. }
      by rewrite (bind_inl _ _ _ _ _ Hlocked).
Qed.

Lemma storage_error_outcome_witness :
  let payload := {| name := None; email := Some "ann@b.example"; phone := None;
                    skills := []; resume_url := None |} in
  let w := MemoryStore.mkWorld [] ["resumes/uploads/ff.pdf"] [] in
  let st := mkProc (∅ : gset string) w in
  storage_upload "resumes" "uploads/ff.pdf" "%PDF" (world st) =
    (w, Some MemoryStore.already_exists) ∧
  findExistingCandidate (email payload) (phone payload) None st = (st, inr None) ∧
  isStorageAlreadyExistsError (Some MemoryStore.already_exists) = true ∧
  saveCandidateLocked "resumes" "uploads/ff.pdf" "%PDF" payload None st =
    insertCandidate payload None st.
Proof.
  intros payload w st.
  assert (storage_upload "resumes" "uploads/ff.pdf" "%PDF" (world st) =
            (w, Some MemoryStore.already_exists)) as Hup by (vm_compute; reflexivity).
  assert (findExistingCandidate (email payload) (phone payload) None st =
            (st, inr None)) as Hfirst by (vm_compute; reflexivity).
  assert (isStorageAlreadyExistsError (Some MemoryStore.already_exists) = true)
    as Hexists by (vm_compute; reflexivity).
  split; [exact Hup|]. split; [exact Hfirst|]. split; [exact Hexists|].
  exact (proj1 (proj1 (proj2 (storage_error_outcome "resumes" "uploads/ff.pdf" "%PDF"
                                payload None st st w MemoryStore.already_exists Hup))
                  Hfirst) Hexists).
Defined.

(** C7 as stated fails: "already exists" is not the same as an upload that
    worked.  The database answers the first check and times out afterwards.
    With the blob not yet stored the upload goes through and the candidate
    is inserted; with the blob already stored the upload reports 409, the
    finder is run again, and the attempt ends with the error of its query. *)
Lemma already_exists_ends_attempt :
  let payload := {| name := None; email := Some "ann@b.example"; phone := None;
                    skills := []; resume_url := None |} in
  let fresh := mkProc (∅ : gset string) (OutageStore.mkWorld 0 []) in
  let held :=
    mkProc (∅ : gset string) (OutageStore.mkWorld 0 ["resumes/uploads/ff.pdf"]) in
  snd (saveCandidateLocked "resumes" "uploads/ff.pdf" "%PDF" payload None fresh) =
    inr (MemoryStore.new_row payload 0) ∧
  findExistingCandidate (email payload) (phone payload) None held =
    (mkProc ∅ (OutageStore.mkWorld 1 ["resumes/uploads/ff.pdf"]), inr None) ∧
  storage_upload "resumes" "uploads/ff.pdf" "%PDF"
    (OutageStore.mkWorld 1 ["resumes/uploads/ff.pdf"]) =
    (OutageStore.mkWorld 1 ["resumes/uploads/ff.pdf"],
     Some MemoryStore.already_exists) ∧
  isStorageAlreadyExistsError (Some MemoryStore.already_exists) = true ∧
  snd (saveCandidateLocked "resumes" "uploads/ff.pdf" "%PDF" payload None held) =
    inl (Error "Failed duplicate check by email: timeout").
Proof.
  intros payload fresh held.
  split; [vm_compute; reflexivity|]. split; [vm_compute; reflexivity|].
  split; [vm_compute; reflexivity|]. split; vm_compute; reflexivity.
Qed.

(** ** The dispatcher: invariant of the worker pool *)

Module DispatcherFacts.
Import Dispatcher.

Section Pool.

Context {F R : Type}.
Variable files : list F.

Abbreviation pool := (@pool F R).
Abbreviation index_of := (λ t : nat * F * R, t.1.1).

Lemma claim_awaiting (n i : nat) (f : F) :
  claim files n = Awaiting i f ↔ i = n ∧ files !! n = Some f.
Proof.
  unfold claim. destruct (files !! n) as [g|]; split.
  - by intros [= <- <-].
  - by intros [-> [= ->]].
  - done.
  - by intros [_ ?].
Qed.

Lemma claim_returned (n : nat) :
  claim files n = Returned ↔ length files ≤ n.
Proof.
  unfold claim. rewrite <- lookup_ge_None.
  destruct (files !! n); split; done.
Qed.

Lemma spawn_spec (n : nat) (p : pool) :
  spawn files n p =
  mkPool (results p) (nextIndex p + n)
    (workers p ++ (claim files <$> seq (nextIndex p) n)).
Proof.
  revert p. induction n as [|n IH]; intros p; simpl.
  - rewrite Nat.add_0_r, app_nil_r. by destruct p.
  - rewrite IH. simpl. f_equal; [lia|]. by rewrite <- app_assoc.
Qed.

Lemma start_spec (concurrency : Z) :
  (start files concurrency : pool) =
  mkPool (replicate (length files) None) (workerCount files concurrency)
    (claim files <$> seq 0 (workerCount files concurrency)).
Proof. unfold start. by rewrite spawn_spec. Qed.

Lemma workerCount_bounds (concurrency : Z) :
  1 ≤ workerCount files concurrency ∧
  (1 ≤ length files → workerCount files concurrency ≤ length files) ∧
  ((0 < concurrency)%Z → workerCount files concurrency ≤ Z.to_nat concurrency).
Proof. unfold workerCount. lia. Qed.

Lemma inv_start (concurrency : Z) :
  inv files (start files concurrency : pool) [].
Proof.
  rewrite start_spec. set (k := workerCount files concurrency).
  assert (∀ w x, (claim files <$> seq 0 k) !! w = Some x →
                 w < k ∧ x = claim files w) as Hlook.
  { intros w x. rewrite list_lookup_fmap.
    destruct (seq 0 k !! w) as [j|] eqn:Hj; [|done].
    apply lookup_seq in Hj as [-> Hlt]. by intros [= <-]. }
  split; simpl.
  - apply length_replicate.
  - intros w i f [Hw Hc]%Hlook. symmetry in Hc.
    apply claim_awaiting in Hc as [-> Hf]. done.
  - intros w1 w2 i f1 f2 [_ H1]%Hlook [_ H2]%Hlook.
    symmetry in H1, H2.
    apply claim_awaiting in H1 as [-> _]. by apply claim_awaiting in H2 as [-> _].
  - intros w i f _ Hin. by apply elem_of_nil in Hin.
  - intros i f Hi Hf. left. exists i. rewrite list_lookup_fmap.
    rewrite lookup_seq_lt by done. simpl. f_equal. by apply claim_awaiting.
  - intros i f v Hin. by apply elem_of_nil in Hin.
  - intros w [Hw Hc]%Hlook. symmetry in Hc. apply claim_returned in Hc. lia.
  - constructor.
Qed.

Lemma settle_Some (w : nat) (v : R) (p p' : pool) :
  settle files w v p = Some p' →
  ∃ i f, workers p !! w = Some (Awaiting i f) ∧
         p' = mkPool (<[i := Some v]> (results p)) (S (nextIndex p))
                (<[w := claim files (nextIndex p)]> (workers p)).
Proof.
  unfold settle. destruct (workers p !! w) as [[i f|]|]; [|done..].
  intros [= <-]. by exists i, f.
Qed.


Lemma lookup_workers_insert (ws : list (@worker F)) (w w' : nat)
    (x y : @worker F) :
  <[w := x]> ws !! w' = Some y →
  (w' = w ∧ y = x) ∨ (w' ≠ w ∧ ws !! w' = Some y).
Proof.
  intros [(-> & -> & _)|[Hne Hy]]%list_lookup_insert_Some; [by left|].
  right. by split.
Qed.

Lemma inv_settle (w i : nat) (f : F) (v : R) (p : pool)
    (log : list (nat * F * R)) :
  inv files p log → workers p !! w = Some (Awaiting i f) →
  inv files (mkPool (<[i := Some v]> (results p)) (S (nextIndex p))
         (<[w := claim files (nextIndex p)]> (workers p)))
      (log ++ [(i, f, v)]).
Proof.
  intros [Hlen Hawait Huniq Hfresh Hclaimed Hlog Hret Hnodup] Hw.
  destruct (Hawait _ _ _ Hw) as [Hi Hf].
  assert (i < length (results p)) as Hir
    by (rewrite Hlen; by eapply lookup_lt_Some).
  assert (w < length (workers p)) as Hwl by by eapply lookup_lt_Some.
  assert (∀ g u, (i, g, u) ∉ log) as Hnew.
  { intros g u Hin. apply (Hfresh _ _ _ Hw).
    apply list_elem_of_fmap. by exists (i, g, u). }
  split; simpl.
  - by rewrite length_insert.
  - intros w' i' f' [[-> Hc]|[Hne Hold]]%lookup_workers_insert.
    + symmetry in Hc. apply claim_awaiting in Hc as [-> Hf']. split; [lia|done].
    + destruct (Hawait _ _ _ Hold). split; [lia|done].
  - intros w1 w2 i' f1 f2 [[-> H1]|[Hne1 H1]]%lookup_workers_insert
      [[-> H2]|[Hne2 H2]]%lookup_workers_insert; [done| | |].
    + symmetry in H1. apply claim_awaiting in H1 as [-> _].
      destruct (Hawait _ _ _ H2). lia.
    + symmetry in H2. apply claim_awaiting in H2 as [-> _].
      destruct (Hawait _ _ _ H1). lia.
    + by eapply Huniq.
  - intros w' i' f' Hw'. rewrite fmap_app, elem_of_app. simpl.
    rewrite list_elem_of_singleton.
    apply lookup_workers_insert in Hw' as [[-> Hc]|[Hne Hold]].
    + symmetry in Hc. apply claim_awaiting in Hc as [-> _].
      intros [Hin|Heq]; [|lia].
      apply list_elem_of_fmap in Hin as ([[j g] u] & Hj & Hin). simpl in Hj.
      subst j. destruct (Hlog _ _ _ Hin) as (_ & _ & ?). lia.
    + intros [Hin| ->]; [by eapply Hfresh|].
      apply Hne. by eapply Huniq.
  - intros i' f' Hi' Hf'. destruct (decide (i' = nextIndex p)) as [->|Hne].
    + left. exists w. rewrite list_lookup_insert_eq by done.
      f_equal. by apply claim_awaiting.
    + destruct (Hclaimed i' f') as [[w' Hw']|(u & Hu & Hin)]; [lia|done| |].
      * destruct (decide (w' = w)) as [->|Hneq].
        -- right. rewrite Hw in Hw'. injection Hw' as <- <-.
           exists v. rewrite list_lookup_insert_eq by done.
           split; [done|]. apply elem_of_app. right. by left.
        -- left. exists w'. by rewrite list_lookup_insert_ne.
      * right. exists u. destruct (decide (i' = i)) as [->|Hneq].
        -- by destruct (Hnew f' u).
        -- rewrite list_lookup_insert_ne by done.
           split; [done|]. apply elem_of_app. by left.
  - intros i' f' u [Hin|Hin]%elem_of_app.
    + destruct (Hlog _ _ _ Hin) as (Hu & Hf' & Hlt).
      destruct (decide (i' = i)) as [->|Hneq]; [by destruct (Hnew f' u)|].
      rewrite list_lookup_insert_ne by done. split; [done|]. split; [done|lia].
    + apply list_elem_of_singleton in Hin. injection Hin as -> -> ->.
      rewrite list_lookup_insert_eq by done. split; [done|]. split; [done|lia].
  - intros w' [[-> Hc]|[Hne Hold]]%lookup_workers_insert.
    + symmetry in Hc. apply claim_returned in Hc. lia.
    + pose proof (Hret _ Hold). lia.
  - rewrite fmap_app. apply NoDup_app. split; [done|]. split.
    + intros j Hj [->|[]%elem_of_nil]%elem_of_cons.
      by apply (Hfresh _ _ _ Hw).
    + apply NoDup_singleton.
Qed.

Lemma inv_run (events : list (nat * R)) (p p' : pool)
    (log : list (nat * F * R)) :
  inv files p log → run files events p = Some p' →
  inv files p' (log ++ resolved files events p) ∧
  length (resolved files events p) = length events.
Proof.
  revert p log. induction events as [|[w v] rest IH]; intros p log Hinv; simpl.
  - intros [= <-]. by rewrite app_nil_r.
  - destruct (settle files w v p) as [p1|] eqn:Hs; [|done].
    destruct (settle_Some _ _ _ _ Hs) as (i & f & Hw & ->).
    rewrite Hw. intros Hrun.
    destruct (IH _ (log ++ [(i, f, v)]) (inv_settle w i f v p log Hinv Hw) Hrun)
      as [Hinv' Hlen].
    rewrite <- app_assoc in Hinv'. simpl in *. by rewrite Hlen.
Qed.




Lemma all_returned_spec (p : pool) :
  all_returned p = true ↔ ∀ w x, workers p !! w = Some x → x = Returned.
Proof.
  unfold all_returned. rewrite <- Is_true_true, forallb_True, Forall_lookup.
  split; intros Hall w x Hw; specialize (Hall w x Hw); by destruct x.
Qed.


Lemma run_workers (events : list (nat * R)) (p p' : pool) :
  run files events p = Some p' → length (workers p') = length (workers p).
Proof.
  revert p. induction events as [|[w v] rest IH]; intros p; simpl.
  - by intros [= <-].
  - destruct (settle files w v p) as [p1|] eqn:Hs; [|done].
    destruct (settle_Some _ _ _ _ Hs) as (i & f & Hw & ->).
    intros Hrun. rewrite (IH _ Hrun). simpl. apply length_insert.
Qed.

Lemma start_workers (concurrency : Z) :
  length (workers (start files concurrency : pool)) = workerCount files concurrency.
Proof. rewrite start_spec. simpl. by rewrite length_fmap, length_seq. Qed.

(** Once every worker has returned, every file has its value. *)
Lemma results_complete (p : pool) (log : list (nat * F * R)) :
  inv files p log → 0 < length (workers p) → all_returned p = true →
  ∀ i f, files !! i = Some f →
    ∃ v, results p !! i = Some (Some v) ∧ (i, f, v) ∈ log.
Proof.
  intros Hinv Hpos Hall i f Hf.
  pose proof (proj1 (all_returned_spec p) Hall) as Hret.
  destruct (lookup_lt_is_Some_2 _ _ Hpos) as [x Hx].
  pose proof (Hret _ _ Hx) as ->.
  pose proof (inv_ret files _ _ Hinv _ Hx) as Hnext.
  apply lookup_lt_Some in Hf as Hi.
  destruct (inv_claimed files _ _ Hinv i f) as [[w Hw]|Hv]; [lia|done| |done].
  by specialize (Hret _ _ Hw).
Qed.





End Pool.

End DispatcherFacts.



(** ** The aggregate report *)

Lemma getConfig_concurrency (maxFiles concurrency : option Q) (bucket : option string) :
  (0 ≤ bulkUploadConcurrency (getConfig maxFiles concurrency bucket))%Z.
Proof.
  unfold getConfig. simpl. destruct concurrency as [q|]; [|done].
  destruct (Qle_bool q 0) eqn:Hq; [done|].
  assert (¬ (q <= 0)%Q) as Hpos.
  { intros Hle. apply Qle_bool_iff in Hle. congruence. }
  apply Qnot_le_lt in Hpos.
  pose proof (Qfloor_resp_le 0 q (Qlt_le_weak _ _ Hpos)) as Hfloor.
  exact Hfloor.
Qed.

(** C5, as the code has it.  The report of a batch gives as
    [concurrencyUsed] the configured limit, the value handed to
    [processFilesWithConcurrency], and as [totalFiles] the number of files.
    The number of workers is that limit clamped to at least one and at most
    the number of files, so the two agree exactly when the limit lies
    between one and the number of files. *)
Theorem concurrencyUsed_reported (config : Config) (files : list File)
    (events : list (nat * Outcome)) (p : Dispatcher.pool) :
  files ≠ [] →
  Dispatcher.run files events (Dispatcher.start files (bulkUploadConcurrency config))
    = Some p →
  ∃ body,
    uploadResumes config files (Dispatcher.results p) = Report body ∧
    concurrencyUsed body = bulkUploadConcurrency config ∧
    totalFiles body = length files ∧
    Z.of_nat (length (Dispatcher.workers p)) =
      Z.max 1 (Z.min (bulkUploadConcurrency config) (Z.of_nat (length files))) ∧
    (concurrencyUsed body = Z.of_nat (length (Dispatcher.workers p)) ↔
     (1 ≤ bulkUploadConcurrency config ≤ Z.of_nat (length files))%Z).
Proof.
  intros Hfiles Hrun.
  exists (bulkReport config files (Dispatcher.results p)).
  assert (length (Dispatcher.workers p) =
            Dispatcher.workerCount files (bulkUploadConcurrency config)) as Hworkers.
  { rewrite (DispatcherFacts.run_workers files events _ p Hrun).
    apply DispatcherFacts.start_workers. }
  assert (0 < length files) as Hpos by (destruct files; [done|simpl; lia]).
  split; [by destruct files|]. split; [done|]. split; [done|].
  rewrite Hworkers. unfold Dispatcher.workerCount. simpl. lia.
Qed.

Lemma concurrencyUsed_reported_witness :
  let files := [{| path := "/tmp/1.pdf"; originalname := "ann.pdf" |};
                {| path := "/tmp/2.pdf"; originalname := "bob.pdf" |}] in
  let config := getConfig None (Some (5 # 2)%Q) None in
  let events := [(0, Failed "ann.pdf" "Duplicate candidate is already being processed.");
                 (1, Failed "bob.pdf" "Duplicate candidate is already being processed.")] in
  let p := Dispatcher.mkPool
             [Some (Failed "ann.pdf" "Duplicate candidate is already being processed.");
              Some (Failed "bob.pdf" "Duplicate candidate is already being processed.")]
             4 [Dispatcher.Returned; Dispatcher.Returned] in
  files ≠ [] ∧
  Dispatcher.run files events (Dispatcher.start files (bulkUploadConcurrency config))
    = Some p ∧
  ∃ body,
    uploadResumes config files (Dispatcher.results p) = Report body ∧
    concurrencyUsed body = bulkUploadConcurrency config ∧
    totalFiles body = length files ∧
    Z.of_nat (length (Dispatcher.workers p)) =
      Z.max 1 (Z.min (bulkUploadConcurrency config) (Z.of_nat (length files))) ∧
    (concurrencyUsed body = Z.of_nat (length (Dispatcher.workers p)) ↔
     (1 ≤ bulkUploadConcurrency config ≤ Z.of_nat (length files))%Z).
Proof.
  intros files config events p.
  assert (files ≠ []) as Hfiles by discriminate.
  assert (Dispatcher.run files events
            (Dispatcher.start files (bulkUploadConcurrency config)) = Some p) as Hrun
    by reflexivity.
  split; [exact Hfiles|]. split; [exact Hrun|].
  exact (concurrencyUsed_reported config files events p Hfiles Hrun).
Defined.

(** C5 as stated fails.  With the default limit of eight and one file, one
    worker processes the file and the report says eight. *)
Lemma concurrencyUsed_not_worker_count :
  let files := [{| path := "/tmp/1.pdf"; originalname := "ann.pdf" |}] in
  let config := getConfig None None None in
  let outcome := Failed "ann.pdf" "Only PDF files are allowed." in
  let p := Dispatcher.mkPool [Some outcome] 2 [Dispatcher.Returned] in
  Dispatcher.run files [(0, outcome)]
    (Dispatcher.start files (bulkUploadConcurrency config)) = Some p ∧
  Dispatcher.all_returned p = true ∧
  length (Dispatcher.workers p) = 1 ∧
  Dispatcher.workerCount files (bulkUploadConcurrency config) = 1 ∧
  (∃ body, uploadResumes config files (Dispatcher.results p) = Report body ∧
           concurrencyUsed body = 8%Z) ∧
  ¬ (∃ body, uploadResumes config files (Dispatcher.results p) = Report body ∧
             concurrencyUsed body =
             Z.of_nat (Dispatcher.workerCount files (bulkUploadConcurrency config))).
Proof.
  intros files config outcome p. repeat split.
  - by eexists.
  - intros (body & [= <-] & Hused). simpl in Hused. discriminate Hused.
Qed.

(** * Further properties *)

(** ** Strings *)

Module TextFacts.

Lemma chars_inj (a b : string) :
  list_ascii_of_string a = list_ascii_of_string b → a = b.
Proof.
  intros Heq. rewrite <- (string_of_list_ascii_of_string a),
    <- (string_of_list_ascii_of_string b). by rewrite Heq.
Qed.

Lemma chars_app (a b : string) :
  list_ascii_of_string (a +:+ b) = list_ascii_of_string a ++ list_ascii_of_string b.
Proof. induction a as [|c a IH]; simpl; [done|]. by rewrite IH. Qed.

Lemma chars_rev_app (s t : string) :
  list_ascii_of_string (String.rev_app s t) =
  reverse (list_ascii_of_string s) ++ list_ascii_of_string t.
Proof.
  revert t. induction s as [|c s IH]; intros t; simpl; [done|].
  rewrite IH, reverse_cons. simpl. by rewrite <- app_assoc.
Qed.

Lemma chars_rev (s : string) :
  list_ascii_of_string (String.rev s) = reverse (list_ascii_of_string s).
Proof. unfold String.rev. rewrite chars_rev_app. simpl. by rewrite app_nil_r. Qed.

Lemma chars_map (f : ascii → ascii) (s : string) :
  list_ascii_of_string (Str.map f s) = f <$> list_ascii_of_string s.
Proof. induction s as [|c s IH]; simpl; [done|]. by rewrite IH. Qed.

Lemma rev_app_distr (a b : string) :
  String.rev (a +:+ b) = String.rev b +:+ String.rev a.
Proof. apply chars_inj. by rewrite chars_rev, !chars_app, !chars_rev, reverse_app. Qed.

Lemma rev_involutive (s : string) : String.rev (String.rev s) = s.
Proof. apply chars_inj. by rewrite !chars_rev, reverse_involutive. Qed.

Lemma map_rev (f : ascii → ascii) (s : string) :
  Str.map f (String.rev s) = String.rev (Str.map f s).
Proof.
  apply chars_inj. by rewrite chars_map, !chars_rev, chars_map, fmap_reverse.
Qed.

Lemma app_cons (c : ascii) (a b : string) :
  String c a +:+ b = String c (a +:+ b).
Proof. reflexivity. Qed.

Lemma app_empty_r (s : string) : s +:+ EmptyString = s.
Proof. induction s as [|c s IH]; [done|]. rewrite app_cons. by f_equal. Qed.

Lemma app_assoc (a b c : string) : (a +:+ b) +:+ c = a +:+ b +:+ c.
Proof. induction a as [|x a IH]; [done|]. rewrite !app_cons. by f_equal. Qed.

Lemma length_app (a b : string) :
  String.length (a +:+ b) = String.length a + String.length b.
Proof. induction a as [|x a IH]; [done|]. rewrite app_cons. simpl. by f_equal. Qed.


Lemma all_app (p : ascii → bool) (a b : string) :
  Text.all p (a +:+ b) = Text.all p a && Text.all p b.
Proof.
  induction a as [|c a IH]; [done|]. rewrite app_cons. simpl.
  by rewrite IH, andb_assoc.
Qed.

Lemma all_rev (p : ascii → bool) (s : string) :
  Text.all p (String.rev s) = Text.all p s.
Proof.
  induction s as [|c s IH]; [done|].
  change (String c s) with (String c EmptyString +:+ s) at 1.
  rewrite rev_app_distr, all_app, IH. simpl.
  rewrite andb_true_r. apply andb_comm.
Qed.

Lemma all_filter (p : ascii → bool) (s : string) : Text.all p (Str.filter p s) = true.
Proof.
  induction s as [|c s IH]; simpl; [done|].
  destruct (p c) eqn:Hc; simpl; [by rewrite Hc|done].
Qed.

Lemma filter_all (p : ascii → bool) (s : string) :
  Text.all p s = true → Str.filter p s = s.
Proof.
  induction s as [|c s IH]; simpl; [done|].
  intros [Hc Hs]%andb_true_iff. by rewrite Hc, IH.
Qed.

Lemma filter_app (p : ascii → bool) (a b : string) :
  Str.filter p (a +:+ b) = Str.filter p a +:+ Str.filter p b.
Proof.
  induction a as [|c a IH]; [done|]. rewrite app_cons. simpl.
  destruct (p c); rewrite ?app_cons; by rewrite IH.
Qed.

Lemma is_space_lower (c : ascii) : Str.is_space (Str.lower_char c) = Str.is_space c.
Proof. destruct c as [[] [] [] [] [] [] [] []]; reflexivity. Qed.

Lemma lower_char_idem (c : ascii) :
  Str.lower_char (Str.lower_char c) = Str.lower_char c.
Proof. destruct c as [[] [] [] [] [] [] [] []]; reflexivity. Qed.

Lemma is_upper_lower (c : ascii) : Str.is_upper (Str.lower_char c) = false.
Proof. destruct c as [[] [] [] [] [] [] [] []]; reflexivity. Qed.

Lemma lower_char_fixed (c : ascii) :
  Str.is_upper c = false → Str.lower_char c = c.
Proof. destruct c as [[] [] [] [] [] [] [] []]; (reflexivity || discriminate). Qed.

Lemma toLowerCase_idem (s : string) :
  Str.toLowerCase (Str.toLowerCase s) = Str.toLowerCase s.
Proof.
  unfold Str.toLowerCase. induction s as [|c s IH]; simpl; [done|].
  by rewrite lower_char_idem, IH.
Qed.

Lemma toLowerCase_no_upper (s : string) :
  Text.all (λ c, negb (Str.is_upper c)) (Str.toLowerCase s) = true.
Proof.
  unfold Str.toLowerCase. induction s as [|c s IH]; simpl; [done|].
  by rewrite is_upper_lower, IH.
Qed.

Lemma toLowerCase_trimStart (s : string) :
  Str.toLowerCase (Str.trimStart s) = Str.trimStart (Str.toLowerCase s).
Proof.
  unfold Str.toLowerCase. induction s as [|c s IH]; simpl; [done|].
  rewrite is_space_lower. by destruct (Str.is_space c).
Qed.

Lemma toLowerCase_trim (s : string) :
  Str.toLowerCase (Str.trim s) = Str.trim (Str.toLowerCase s).
Proof.
  unfold Str.trim, Str.toLowerCase.
  rewrite map_rev. fold Str.toLowerCase. rewrite toLowerCase_trimStart.
  unfold Str.toLowerCase. rewrite map_rev. fold Str.toLowerCase.
  by rewrite toLowerCase_trimStart.
Qed.

Lemma trimStart_spaces (sp s : string) :
  Text.all Str.is_space sp = true → Str.trimStart (sp +:+ s) = Str.trimStart s.
Proof.
  induction sp as [|c sp IH]; [done|]. rewrite app_cons. simpl.
  intros [Hc Hsp]%andb_true_iff. rewrite Hc. by apply IH.
Qed.

Lemma trimStart_all (sp : string) :
  Text.all Str.is_space sp = true → Str.trimStart sp = EmptyString.
Proof.
  intros Hsp. rewrite <- (app_empty_r sp). by rewrite trimStart_spaces.
Qed.

Lemma trimStart_split (s : string) :
  ∃ sp, Text.all Str.is_space sp = true ∧ s = sp +:+ Str.trimStart s.
Proof.
  induction s as [|c s (sp & Hsp & IH)]; [by exists EmptyString|]. simpl.
  destruct (Str.is_space c) eqn:Hc.
  - exists (String c sp). simpl. rewrite Hc, Hsp. split; [done|].
    rewrite app_cons. by f_equal.
  - by exists EmptyString.
Qed.

Lemma trimStart_starts (s : string) :
  Text.starts Str.is_space (Str.trimStart s) = false.
Proof.
  induction s as [|c s IH]; simpl; [done|].
  destruct (Str.is_space c) eqn:Hc; [done|]. simpl. done.
Qed.

Lemma trimStart_fixed (s : string) :
  Text.starts Str.is_space s = false → Str.trimStart s = s.
Proof. destruct s as [|c s]; simpl; [done|]. by intros ->. Qed.

Lemma trimStart_app (v x : string) :
  Str.trimStart v ≠ EmptyString → Str.trimStart (v +:+ x) = Str.trimStart v +:+ x.
Proof.
  induction v as [|c v IH]; [done|]. rewrite app_cons. simpl.
  destruct (Str.is_space c); [apply IH|done].
Qed.

Lemma starts_app (p : ascii → bool) (a b : string) :
  a ≠ EmptyString → Text.starts p (a +:+ b) = Text.starts p a.
Proof. by destruct a. Qed.

Lemma rev_empty (s : string) : String.rev s = EmptyString → s = EmptyString.
Proof.
  intros Hrev. apply (f_equal String.rev) in Hrev. by rewrite rev_involutive in Hrev.
Qed.

Lemma trim_trimmed (s : string) : Text.trimmed (Str.trim s) = true.
Proof.
  unfold Text.trimmed, Str.trim. rewrite rev_involutive, trimStart_starts.
  rewrite andb_true_r. apply negb_true_iff.
  set (t := Str.trimStart s). set (u := Str.trimStart (String.rev t)).
  destruct (trimStart_split (String.rev t)) as (sp & Hsp & Hsplit). fold u in Hsplit.
  destruct (String.rev u) as [|c r] eqn:Hu; [done|].
  assert (t = String.rev u +:+ String.rev sp) as Ht.
  { rewrite <- rev_app_distr, <- Hsplit. by rewrite rev_involutive. }
  pose proof (trimStart_starts s) as Hstart. fold t in Hstart.
  rewrite Ht, Hu in Hstart. simpl in Hstart. by simpl.
Qed.

Lemma trim_fixed (s : string) : Text.trimmed s = true → Str.trim s = s.
Proof.
  unfold Text.trimmed. intros [H1 H2]%andb_true_iff.
  apply negb_true_iff in H1, H2. unfold Str.trim.
  by rewrite (trimStart_fixed s H1), (trimStart_fixed _ H2), rev_involutive.
Qed.

Lemma trim_idem (s : string) : Str.trim (Str.trim s) = Str.trim s.
Proof. apply trim_fixed, trim_trimmed. Qed.

Lemma trim_padding (pre v post : string) :
  Text.all Str.is_space pre = true → Text.all Str.is_space post = true →
  Str.trim (pre +:+ v +:+ post) = Str.trim v.
Proof.
  intros Hpre Hpost. unfold Str.trim. f_equal.
  rewrite (trimStart_spaces pre _ Hpre).
  destruct (Str.trimStart v) as [|c r] eqn:Hv.
  - destruct (trimStart_split v) as (sp & Hsp & Hsplit).
    rewrite Hv, app_empty_r in Hsplit. subst v.
    rewrite (trimStart_spaces sp _ Hsp), (trimStart_all post Hpost). done.
  - rewrite trimStart_app by (by rewrite Hv). rewrite Hv.
    rewrite rev_app_distr. apply trimStart_spaces. by rewrite all_rev.
Qed.

End TextFacts.

(** ** The identity normalizer, continued *)

Lemma normalizeEmail_eq (v : string) :
  normalizeEmail (Some v) =
  (if Str.truthy (Str.toLowerCase (Str.trim v))
   then Some (Str.toLowerCase (Str.trim v)) else None).
Proof. unfold normalizeEmail. by destruct v. Qed.

(** X1. E-mail addresses that differ only in letter case and in white space
    around them normalize to the same value. *)
Theorem normalizeEmail_variants (pre v v' post : string) :
  Text.all Str.is_space pre = true → Text.all Str.is_space post = true →
  Str.toLowerCase v' = Str.toLowerCase v →
  normalizeEmail (Some (pre +:+ v' +:+ post)) = normalizeEmail (Some v).
Proof.
  intros Hpre Hpost Hcase. rewrite !normalizeEmail_eq.
  rewrite (TextFacts.trim_padding pre v' post Hpre Hpost).
  by rewrite !TextFacts.toLowerCase_trim, Hcase.
Qed.

Lemma normalizeEmail_variants_witness :
  Text.all Str.is_space "  " = true ∧ Text.all Str.is_space " " = true ∧
  Str.toLowerCase "Ann.Lee@Example.COM" = Str.toLowerCase "ann.lee@example.com" ∧
  normalizeEmail (Some ("  " +:+ "Ann.Lee@Example.COM" +:+ " ")) =
  normalizeEmail (Some "ann.lee@example.com").
Proof.
  assert (Str.toLowerCase "Ann.Lee@Example.COM" = Str.toLowerCase "ann.lee@example.com")
    as Hcase by (vm_compute; reflexivity).
  split; [reflexivity|]. split; [reflexivity|]. split; [exact Hcase|].
  exact (normalizeEmail_variants "  " "ann.lee@example.com" "Ann.Lee@Example.COM" " "
           eq_refl eq_refl Hcase).
Defined.

(** X2. A value returned by [normalizeEmail] is not empty, has no white
    space at either end and no upper-case letter, and normalizes to itself. *)
Theorem normalizeEmail_canonical (value : option string) (r : string) :
  normalizeEmail value = Some r →
  r ≠ EmptyString ∧ Text.trimmed r = true ∧
  Text.all (λ c, negb (Str.is_upper c)) r = true ∧
  normalizeEmail (Some r) = Some r.
Proof.
  destruct value as [v|]; [|done]. rewrite normalizeEmail_eq.
  destruct (Str.truthy (Str.toLowerCase (Str.trim v))) eqn:Htruthy; [|done].
  intros [= <-].
  assert (Str.trim (Str.toLowerCase (Str.trim v)) = Str.toLowerCase (Str.trim v))
    as Htrim by (by rewrite <- TextFacts.toLowerCase_trim, TextFacts.trim_idem).
  split; [by intros Hempty; rewrite Hempty in Htruthy|]. split; [|split].
  - rewrite <- Htrim. apply TextFacts.trim_trimmed.
  - apply TextFacts.toLowerCase_no_upper.
  - rewrite normalizeEmail_eq, Htrim, TextFacts.toLowerCase_idem. by rewrite Htruthy.
Qed.

Lemma normalizeEmail_canonical_witness :
  normalizeEmail (Some " Ann@B.Example ") = Some "ann@b.example" ∧
  "ann@b.example" ≠ EmptyString ∧ Text.trimmed "ann@b.example" = true ∧
  Text.all (λ c, negb (Str.is_upper c)) "ann@b.example" = true ∧
  normalizeEmail (Some "ann@b.example") = Some "ann@b.example".
Proof.
  assert (normalizeEmail (Some " Ann@B.Example ") = Some "ann@b.example") as Hrun
    by (vm_compute; reflexivity).
  split; [exact Hrun|].
  exact (normalizeEmail_canonical (Some " Ann@B.Example ") "ann@b.example" Hrun).
Defined.

Lemma normalizePhone_eq (v : string) :
  normalizePhone (Some v) =
  (let digits := Str.filter Str.is_digit v in
   if negb (Str.truthy digits) then None
   else if String.length digits =? 10 then Some ("+1" +:+ digits)
   else Some ("+" +:+ digits)).
Proof.
  unfold normalizePhone. destruct v as [|c v]; [done|].
  cbn [Str.truthy]. cbv zeta.
  destruct (negb _); [done|]. destruct (_ =? 10); [done|]. by destruct (_ && _).
Qed.

(** X3. [normalizePhone] looks at the digits only: two inputs with the same
    digits in the same order give the same result, whatever else they
    contain. *)
Theorem normalizePhone_same_digits (a b : string) :
  Str.filter Str.is_digit a = Str.filter Str.is_digit b →
  normalizePhone (Some a) = normalizePhone (Some b).
Proof. intros Hdigits. rewrite !normalizePhone_eq. cbv zeta. by rewrite Hdigits. Qed.

Lemma normalizePhone_same_digits_witness :
  Str.filter Str.is_digit "+44 (20) 7946-0958" = Str.filter Str.is_digit "44.20.7946.0958 ext" ∧
  normalizePhone (Some "+44 (20) 7946-0958") = normalizePhone (Some "44.20.7946.0958 ext").
Proof.
  assert (Str.filter Str.is_digit "+44 (20) 7946-0958" =
          Str.filter Str.is_digit "44.20.7946.0958 ext") as Hdigits
    by (vm_compute; reflexivity).
  split; [exact Hdigits|].
  exact (normalizePhone_same_digits "+44 (20) 7946-0958" "44.20.7946.0958 ext" Hdigits).
Defined.

Lemma is_digit_plus : Str.is_digit "+" = false.
Proof. reflexivity. Qed.

(** X4. A value returned by [normalizePhone] is a plus sign followed by one
    or more digits and nothing else, and normalizes to itself. *)
Theorem normalizePhone_canonical (value : option string) (r : string) :
  normalizePhone value = Some r →
  ∃ digits, r = "+" +:+ digits ∧ digits ≠ EmptyString ∧
            Text.all Str.is_digit digits = true ∧
            normalizePhone (Some r) = Some r.
Proof.
  destruct value as [v|]; [|done]. rewrite normalizePhone_eq. cbv zeta.
  set (d := Str.filter Str.is_digit v).
  assert (Text.all Str.is_digit d = true) as Hall by apply TextFacts.all_filter.
  destruct d as [|c d'] eqn:Hd; [done|]. cbn [Str.truthy negb].
  assert (∀ x, Text.all Str.is_digit x = true →
               Str.filter Str.is_digit ("+" +:+ x) = x) as Hplus.
  { intros x Hx. rewrite TextFacts.app_cons. cbn [Str.filter].
    rewrite is_digit_plus. by apply TextFacts.filter_all. }
  destruct (String.length (String c d') =? 10) eqn:Hlen; intros [= <-].
  - exists ("1" +:+ String c d'). split; [done|]. split; [done|].
    assert (Text.all Str.is_digit ("1" +:+ String c d') = true) as Hall1.
    { rewrite TextFacts.all_app. by rewrite Hall. }
    split; [done|].
    change ("+1" +:+ String c d') with ("+" +:+ "1" +:+ String c d').
    rewrite normalizePhone_eq. cbv zeta. rewrite (Hplus _ Hall1).
    rewrite TextFacts.app_cons. cbn [Str.truthy negb].
    rewrite <- TextFacts.app_cons.
    replace (String.length ("1" +:+ String c d') =? 10) with false; [done|].
    symmetry. apply Nat.eqb_neq. rewrite TextFacts.length_app.
    apply Nat.eqb_eq in Hlen. simpl in *. lia.
  - exists (String c d'). split; [done|]. split; [done|]. split; [done|].
    rewrite normalizePhone_eq. cbv zeta. rewrite (Hplus _ Hall).
    cbn [Str.truthy negb]. by rewrite Hlen.
Qed.

Lemma normalizePhone_canonical_witness :
  normalizePhone (Some "(555) 123-4567") = Some "+15551234567" ∧
  ∃ digits, "+15551234567" = "+" +:+ digits ∧ digits ≠ EmptyString ∧
            Text.all Str.is_digit digits = true ∧
            normalizePhone (Some "+15551234567") = Some "+15551234567".
Proof.
  assert (normalizePhone (Some "(555) 123-4567") = Some "+15551234567") as Hrun
    by (vm_compute; reflexivity).
  split; [exact Hrun|].
  exact (normalizePhone_canonical (Some "(555) 123-4567") "+15551234567" Hrun).
Defined.

(** X5. A number with ten digits and the same number written with the
    country code 1 in front, with or without a plus sign, are one identity. *)
Theorem normalizePhone_country_code (v : string) :
  String.length (Str.filter Str.is_digit v) = 10 →
  normalizePhone (Some ("1" +:+ v)) = normalizePhone (Some v) ∧
  normalizePhone (Some ("+1 " +:+ v)) = normalizePhone (Some v) ∧
  normalizePhone (Some v) = Some ("+1" +:+ Str.filter Str.is_digit v).
Proof.
  intros Hlen.
  assert (normalizePhone (Some v) = Some ("+1" +:+ Str.filter Str.is_digit v)) as Hv.
  { rewrite normalizePhone_eq. cbv zeta.
    destruct (Str.filter Str.is_digit v); [done|]. cbn [Str.truthy negb].
    by rewrite Hlen. }
  assert (∀ pre, Str.filter Str.is_digit pre = "1" →
            normalizePhone (Some (pre +:+ v)) = Some ("+1" +:+ Str.filter Str.is_digit v))
    as Hpre.
  { intros pre Hone. rewrite normalizePhone_eq. cbv zeta.
    rewrite TextFacts.filter_app, Hone, TextFacts.app_cons. cbn [Str.truthy negb].
    rewrite <- TextFacts.app_cons.
    replace (String.length ("1" +:+ Str.filter Str.is_digit v) =? 10) with false; [done|].
    symmetry. apply Nat.eqb_neq. rewrite TextFacts.length_app. simpl. lia. }
  rewrite Hv. split; [by apply Hpre|]. split; [by apply Hpre|done].
Qed.

Lemma normalizePhone_country_code_witness :
  String.length (Str.filter Str.is_digit "555-123-4567") = 10 ∧
  normalizePhone (Some ("1" +:+ "555-123-4567")) = normalizePhone (Some "555-123-4567") ∧
  normalizePhone (Some ("+1 " +:+ "555-123-4567")) = normalizePhone (Some "555-123-4567") ∧
  normalizePhone (Some "555-123-4567") = Some ("+1" +:+ Str.filter Str.is_digit "555-123-4567").
Proof.
  assert (String.length (Str.filter Str.is_digit "555-123-4567") = 10) as Hlen
    by (vm_compute; reflexivity).
  split; [exact Hlen|].
  exact (normalizePhone_country_code "555-123-4567" Hlen).
Defined.

Lemma collapse_single_spaced (b : bool) (s : string) :
  Spacing.single_spaced b (Str.collapse_spaces b s) = true.
Proof.
  revert b. induction s as [|c s IH]; intros b; simpl; [done|].
  destruct (Str.is_space c) eqn:Hc.
  - destruct b; [apply IH|]. simpl. by rewrite IH.
  - simpl. by rewrite Hc, IH.
Qed.

Lemma collapse_fixed (b : bool) (s : string) :
  Spacing.single_spaced b s = true → Str.collapse_spaces b s = s.
Proof.
  revert b. induction s as [|c s IH]; intros b; simpl; [done|].
  destruct (Str.is_space c) eqn:Hc.
  - intros [[Heq Hb]%andb_true_iff Hs]%andb_true_iff.
    apply negb_true_iff in Hb. subst b. apply Ascii.eqb_eq in Heq. subst c.
    f_equal. by apply IH.
  - intros Hs. f_equal. by apply IH.
Qed.

Lemma collapse_snoc (b : bool) (s : string) (x : ascii) :
  Str.is_space x = false →
  Str.collapse_spaces b (s +:+ String x EmptyString) =
  Str.collapse_spaces b s +:+ String x EmptyString.
Proof.
  intros Hx. revert b. induction s as [|c s IH]; intros b.
  - simpl. by rewrite Hx.
  - rewrite TextFacts.app_cons. simpl.
    destruct (Str.is_space c); [destruct b|]; rewrite ?TextFacts.app_cons, IH; done.
Qed.

Lemma collapse_trimmed (s : string) :
  Text.trimmed s = true → Text.trimmed (Str.collapse_spaces false s) = true.
Proof.
  unfold Text.trimmed. intros [Hstart Hend]%andb_true_iff.
  apply negb_true_iff in Hstart, Hend. apply andb_true_iff. split; apply negb_true_iff.
  - destruct s as [|c s]; [done|]. simpl in *. by rewrite Hstart.
  - destruct (String.rev s) as [|x t] eqn:Hrev.
    + apply TextFacts.rev_empty in Hrev. by subst s.
    + simpl in Hend.
      assert (s = String.rev t +:+ String x EmptyString) as ->.
      { rewrite <- (TextFacts.rev_involutive s), Hrev.
        change (String x t) with (String x EmptyString +:+ t).
        by rewrite TextFacts.rev_app_distr. }
      rewrite (collapse_snoc _ _ _ Hend), TextFacts.rev_app_distr. done.
Qed.

Lemma normalizeName_eq (v : string) :
  normalizeName (Some v) =
  (if Str.truthy (Str.collapse_spaces false (Str.trim v))
   then Some (Str.collapse_spaces false (Str.trim v)) else None).
Proof. unfold normalizeName. by destruct v. Qed.

(** X6. A value returned by [normalizeName] is not empty, has no white space
    at either end, has single spaces as its only white space, and
    normalizes to itself. *)
Theorem normalizeName_canonical (value : option string) (r : string) :
  normalizeName value = Some r →
  r ≠ EmptyString ∧ Text.trimmed r = true ∧
  Spacing.single_spaced false r = true ∧
  normalizeName (Some r) = Some r.
Proof.
  destruct value as [v|]; [|done]. rewrite normalizeName_eq.
  destruct (Str.truthy (Str.collapse_spaces false (Str.trim v))) eqn:Htruthy; [|done].
  intros [= <-].
  pose proof (collapse_trimmed _ (TextFacts.trim_trimmed v)) as Htrimmed.
  pose proof (collapse_single_spaced false (Str.trim v)) as Hspaced.
  split; [by intros Hempty; rewrite Hempty in Htruthy|].
  split; [done|]. split; [done|].
  rewrite normalizeName_eq, (TextFacts.trim_fixed _ Htrimmed).
  by rewrite (collapse_fixed _ _ Hspaced), Htruthy.
Qed.

Lemma normalizeName_canonical_witness :
  normalizeName (Some "  Ann   B.  Lee ") = Some "Ann B. Lee" ∧
  "Ann B. Lee" ≠ EmptyString ∧ Text.trimmed "Ann B. Lee" = true ∧
  Spacing.single_spaced false "Ann B. Lee" = true ∧
  normalizeName (Some "Ann B. Lee") = Some "Ann B. Lee".
Proof.
  assert (normalizeName (Some "  Ann   B.  Lee ") = Some "Ann B. Lee") as Hrun
    by (vm_compute; reflexivity).
  split; [exact Hrun|].
  exact (normalizeName_canonical (Some "  Ann   B.  Lee ") "Ann B. Lee" Hrun).
Defined.

Lemma elem_of_dedup_first (seen xs : list string) (x : string) :
  x ∈ dedup_first seen xs ↔ x ∈ xs ∧ x ∉ seen.
Proof.
  revert seen. induction xs as [|y xs IH]; intros seen; simpl.
  - rewrite elem_of_nil. tauto.
  - case_bool_decide as Hy.
    + rewrite IH, elem_of_cons. split; [tauto|].
      intros [[->|Hin] Hnot]; [done|tauto].
    + rewrite elem_of_cons, IH, !elem_of_cons. split.
      * intros [->|[Hin Hnot]]; [tauto|]. split; [tauto|]. tauto.
      * intros [[->|Hin] Hnot]; [tauto|].
        destruct (decide (x = y)) as [->|Hne]; [tauto|]. right. tauto.
Qed.

Lemma NoDup_dedup_first (seen xs : list string) : NoDup (dedup_first seen xs).
Proof.
  revert seen. induction xs as [|y xs IH]; intros seen; simpl; [constructor|].
  case_bool_decide as Hy; [apply IH|].
  constructor; [|apply IH]. rewrite elem_of_dedup_first, elem_of_cons. tauto.
Qed.

(** X7. [normalizeSkills] returns no skill twice.  A text is in the result
    exactly when it is not empty and is the trimmed, lower-case form of a
    string entry of the input; entries that are not strings are dropped, and
    an input that is not an array gives the empty list.  Every skill
    returned is trimmed and has no upper-case letter. *)
Theorem normalizeSkills_result (skills : option (list (option string))) :
  NoDup (normalizeSkills skills) ∧
  (∀ x, x ∈ normalizeSkills skills ↔
        x ≠ EmptyString ∧
        ∃ entries s, skills = Some entries ∧ Some s ∈ entries ∧
                     x = Str.toLowerCase (Str.trim s)) ∧
  (∀ x, x ∈ normalizeSkills skills →
        Text.trimmed x = true ∧ Text.all (λ c, negb (Str.is_upper c)) x = true) ∧
  normalizeSkills None = [].
Proof.
  assert (∀ x, x ∈ normalizeSkills skills ↔
        x ≠ EmptyString ∧
        ∃ entries s, skills = Some entries ∧ Some s ∈ entries ∧
                     x = Str.toLowerCase (Str.trim s)) as Hmem.
  { intros x. destruct skills as [entries|]; simpl.
    - rewrite elem_of_dedup_first, list_elem_of_In, List.filter_In, List.in_map_iff.
      split.
      + intros [[([s|] & <- & Hin) Htruthy] _]; [|done].
        split; [by intros Hempty; rewrite Hempty in Htruthy|].
        exists entries, s. by rewrite list_elem_of_In.
      + intros [Hne (entries' & s & [= <-] & Hin & ->)]. split; [|apply not_elem_of_nil].
        split; [exists (Some s); by rewrite <- list_elem_of_In|].
        by destruct (Str.toLowerCase (Str.trim s)).
    - rewrite elem_of_nil. split; [done|]. by intros [_ (? & ? & ? & _)]. }
  split; [|split; [done|split; [|done]]].
  - destruct skills; [apply NoDup_dedup_first|constructor].
  - intros x [_ (entries & s & _ & _ & ->)]%Hmem. split.
    + rewrite TextFacts.toLowerCase_trim. apply TextFacts.trim_trimmed.
    + apply TextFacts.toLowerCase_no_upper.
Qed.

(** ** Dedup keys, continued *)

Lemma key_of_Some (tag : string) (value : option string) (key : string) :
  key_of tag value = Some key ↔
  ∃ v, truthy_opt value = Some v ∧ key = tag +:+ ":" +:+ v.
Proof.
  unfold key_of, truthy_opt. destruct value as [v|]; [|split; [done|by intros (? & ? & _)]].
  destruct (Str.truthy v); split.
  - intros [= <-]. by exists v.
  - by intros (v' & [= <-] & ->).
  - done.
  - by intros (? & ? & _).
Qed.

(** X8. The key list is always in the order e-mail, hash, phone, whatever
    the values are, with the keys of missing or empty values left out; it
    never holds a key twice. *)
Theorem buildDedupKeys_order (email phone resumeHash : option string) :
  buildDedupKeys email phone resumeHash =
    omap id [key_of "email" email; key_of "hash" resumeHash; key_of "phone" phone] ∧
  NoDup (buildDedupKeys email phone resumeHash).
Proof.
  assert (buildDedupKeys email phone resumeHash =
    omap id [key_of "email" email; key_of "hash" resumeHash; key_of "phone" phone])
    as Horder.
  { unfold buildDedupKeys.
    destruct (key_of "email" email) as [ke|] eqn:He;
      [apply key_of_head in He as [ve ->]|];
      (destruct (key_of "phone" phone) as [kp|] eqn:Hp;
         [apply key_of_head in Hp as [vp ->]|]);
      (destruct (key_of "hash" resumeHash) as [kh|] eqn:Hh;
         [apply key_of_head in Hh as [vh ->]|]); reflexivity. }
  split; [done|]. rewrite Horder.
  destruct (key_of "email" email) as [ke|] eqn:He;
    [apply key_of_head in He as [ve ->]|];
    (destruct (key_of "phone" phone) as [kp|] eqn:Hp;
       [apply key_of_head in Hp as [vp ->]|]);
    (destruct (key_of "hash" resumeHash) as [kh|] eqn:Hh;
       [apply key_of_head in Hh as [vh ->]|]); simpl;
    repeat (constructor; [rewrite ?elem_of_cons, elem_of_nil; intuition discriminate|]);
    constructor.
Qed.

(** X9. The key lists of two attempts have a key in common exactly when the
    attempts have the same non-empty e-mail address, the same non-empty
    phone number or the same non-empty hash. *)
Theorem buildDedupKeys_overlap (e p h e' p' h' : option string) :
  (∃ key, key ∈ buildDedupKeys e p h ∧ key ∈ buildDedupKeys e' p' h') ↔
  (∃ v, truthy_opt e = Some v ∧ truthy_opt e' = Some v) ∨
  (∃ v, truthy_opt p = Some v ∧ truthy_opt p' = Some v) ∨
  (∃ v, truthy_opt h = Some v ∧ truthy_opt h' = Some v).
Proof.
  assert (∀ tag v v', tag +:+ ":" +:+ v = tag +:+ ":" +:+ v' → v = v') as Hinj.
  { intros tag v v' Heq. by do 2 apply (inj (String.append _)) in Heq. }
  split.
  - intros (key & H1 & H2).
    apply elem_of_buildDedupKeys in H1, H2.
    rewrite !key_of_Some in H1, H2.
    destruct H1 as [(v & Hv & ->)|[(v & Hv & ->)|(v & Hv & ->)]];
      destruct H2 as [(v' & Hv' & Heq)|[(v' & Hv' & Heq)|(v' & Hv' & Heq)]];
      try discriminate Heq; apply Hinj in Heq; subst v'; eauto.
  - intros [(v & H1 & H2)|[(v & H1 & H2)|(v & H1 & H2)]].
    + exists ("email" +:+ ":" +:+ v). rewrite !elem_of_buildDedupKeys, !key_of_Some.
      split; left; by exists v.
    + exists ("phone" +:+ ":" +:+ v). rewrite !elem_of_buildDedupKeys, !key_of_Some.
      split; right; left; by exists v.
    + exists ("hash" +:+ ":" +:+ v). rewrite !elem_of_buildDedupKeys, !key_of_Some.
      split; right; right; by exists v.
Qed.


(** ** The lock, continued *)

Lemma unmark_mark (held : gset string) (keys : list string) :
  (∀ key, key ∈ keys → key ∉ held) → unmark (mark held keys) keys = held.
Proof.
  intros Hfree. apply set_eq. intros key.
  rewrite elem_of_unmark, elem_of_mark. split; [tauto|].
  intros Hheld. split; [by left|]. intros Hin. by apply (Hfree key).
Qed.

Lemma keeps_lock {W A : Type} (keys : list string) (fn : M W A) :
  keeps_keys fn → keeps_keys (withDedupLock keys fn).
Proof.
  intros Hfn st. unfold withDedupLock.
  destruct (collision (inFlightDedupKeys st) keys) as [key|] eqn:Hcol; [done|].
  specialize (Hfn (mkProc (mark (inFlightDedupKeys st) keys) (world st))).
  destruct (fn _) as [st' r]. simpl in *. rewrite Hfn.
  apply unmark_mark. by apply collision_None.
Qed.

(** X11. [withDedupLock] leaves the set of held keys exactly as it found it,
    whether it rejects the call, the operation returns or the operation
    throws, provided the operation itself leaves the set as it found it. *)
Theorem withDedupLock_keeps_keys {W A : Type} (keys : list string) (fn : M W A)
    (st : Proc W) :
  keeps_keys fn →
  inFlightDedupKeys (fst (withDedupLock keys fn st)) = inFlightDedupKeys st.
Proof. intros Hfn. by apply keeps_lock. Qed.

Lemma withDedupLock_keeps_keys_witness :
  let fn : M nat bool := λ st, (mkProc (inFlightDedupKeys st) (S (world st)),
                               inl (Error "storage is down")) in
  let st := mkProc ({["phone:+15551234567"]} : gset string) 0 in
  keeps_keys fn ∧
  inFlightDedupKeys (fst (withDedupLock ["email:a@b.c"; "hash:ff"] fn st)) =
  inFlightDedupKeys st.
Proof.
  intros fn st.
  assert (keeps_keys fn) as Hfn by (intros s; reflexivity).
  split; [exact Hfn|].
  exact (withDedupLock_keeps_keys ["email:a@b.c"; "hash:ff"] fn st Hfn).
Defined.

Section KeepsKeys.

Context {W : Type} `{Store W}.

Lemma keeps_ret {A} (a : A) : keeps_keys (ret (W := W) a).
Proof. by intros st. Qed.

Lemma keeps_throw {A} (e : exn) : keeps_keys (throw (W := W) (A := A) e).
Proof. by intros st. Qed.

Lemma keeps_call {A} (f : W → W * A) : keeps_keys (call f).
Proof. intros st. unfold call. by destruct (f (world st)). Qed.

Lemma keeps_attempt {A} (f : W → W * (exn + A)) : keeps_keys (attempt f).
Proof. intros st. unfold attempt. by destruct (f (world st)). Qed.

Lemma keeps_bind {A B} (m : M W A) (k : A → M W B) :
  keeps_keys m → (∀ a, keeps_keys (k a)) → keeps_keys (bind m k).
Proof.
  intros Hm Hk st. unfold bind. specialize (Hm st).
  destruct (m st) as [st1 [e|a]]; simpl in *; [done|].
  by rewrite Hk.
Qed.

Lemma keeps_query (column label : string) (value : option string) :
  keeps_keys (queryCandidateBy column label value).
Proof.
  unfold queryCandidateBy. destruct (truthy_opt value); [|apply keeps_ret].
  apply keeps_bind; [apply keeps_call|].
  intros [message|rows]; [apply keeps_throw|apply keeps_ret].
Qed.

Lemma keeps_find (email phone resumeUrl : option string) :
  keeps_keys (findExistingCandidate email phone resumeUrl).
Proof.
  unfold findExistingCandidate.
  apply keeps_bind; [apply keeps_query|]. intros [c|]; [apply keeps_ret|].
  apply keeps_bind; [apply keeps_query|]. intros [c|]; [apply keeps_ret|].
  apply keeps_bind; [apply keeps_query|]. intros [c|]; apply keeps_ret.
Qed.

Lemma keeps_insert (payload : Payload) (resumeUrl : option string) :
  keeps_keys (insertCandidate payload resumeUrl).
Proof.
  unfold insertCandidate. apply keeps_bind; [apply keeps_call|].
  intros [e|c]; [|apply keeps_ret].
  destruct (isUniqueViolation e); [|apply keeps_throw].
  apply keeps_bind; [apply keeps_find|]. intros ?. apply keeps_throw.
Qed.

Lemma keeps_put (bucket storagePath fileBuffer : string) (payload : Payload)
    (resumeUrl : option string) :
  keeps_keys (putResume bucket storagePath fileBuffer payload resumeUrl).
Proof.
  unfold putResume. apply keeps_bind; [apply keeps_call|].
  intros [e|]; [|apply keeps_ret].
  destruct (negb _); [apply keeps_throw|].
  apply keeps_bind; [apply keeps_find|]. intros [ex|]; [apply keeps_throw|apply keeps_ret].
Qed.

Lemma keeps_saveLocked (bucket storagePath fileBuffer : string) (payload : Payload)
    (resumeUrl : option string) :
  keeps_keys (saveCandidateLocked bucket storagePath fileBuffer payload resumeUrl).
Proof.
  unfold saveCandidateLocked. apply keeps_bind; [apply keeps_find|].
  intros [ex|]; [apply keeps_throw|].
  apply keeps_bind; [apply keeps_put|]. intros _. apply keeps_insert.
Qed.

Lemma keeps_save (bucket : string) (file : File) :
  keeps_keys (saveCandidateFromFile bucket file).
Proof.
  unfold saveCandidateFromFile. apply keeps_bind; [apply keeps_attempt|].
  intros fileBuffer. apply keeps_bind; [apply keeps_attempt|]. intros parsed.
  cbv zeta. apply keeps_lock, keeps_saveLocked.
Qed.

Lemma keeps_handler (bucket : string) (file : File) :
  keeps_keys (uploadHandler bucket file).
Proof.
  intros st. unfold uploadHandler. pose proof (keeps_save bucket file st) as Hsave.
  by destruct (saveCandidateFromFile bucket file st).
Qed.

Lemma keeps_upload (body_name body_email body_phone : option string)
    (body_skills : list string) (fileBuffer : string) :
  keeps_keys (upload body_name body_email body_phone body_skills fileBuffer).
Proof.
  unfold upload. cbv zeta. apply keeps_lock.
  apply keeps_bind.
  - unfold uploadLocked. apply keeps_bind; [apply keeps_find|].
    intros [ex|]; [apply keeps_throw|].
    unfold uploadPut. apply keeps_bind; [apply keeps_call|].
    intros [e|]; [|apply keeps_ret]. destruct (negb _); [apply keeps_throw|apply keeps_ret].
  - intros _. unfold uploadInsert. apply keeps_bind; [apply keeps_call|].
    intros [e|c]; [|apply keeps_ret].
    destruct (isUniqueViolation e); [|apply keeps_throw].
    apply keeps_bind; [apply keeps_find|]. intros ?. apply keeps_throw.
Qed.

End KeepsKeys.

(** X12. An ingestion attempt never leaves a key behind: after
    [saveCandidateFromFile], after the bulk route's handler and after the
    operation of [/upload], the set of held keys is the one before the
    call, for every store and whatever the outcome. *)
Theorem ingestion_keeps_keys {W : Type} `{Store W} (st : Proc W) :
  (∀ bucket file,
     inFlightDedupKeys (fst (saveCandidateFromFile bucket file st)) = inFlightDedupKeys st ∧
     inFlightDedupKeys (fst (uploadHandler bucket file st)) = inFlightDedupKeys st) ∧
  (∀ body_name body_email body_phone body_skills fileBuffer,
     inFlightDedupKeys
       (fst (upload body_name body_email body_phone body_skills fileBuffer st)) =
     inFlightDedupKeys st).
Proof.
  split.
  - intros bucket file. split; [apply keeps_save|apply keeps_handler].
  - intros. apply keeps_upload.
Qed.

(** ** Interleaved calls, continued *)

(** X13. In a reachable state in which no call is inside its critical
    section, the set of held keys is empty: nothing is left held once the
    calls have ended. *)
Theorem quiescent_empty (calls : list (list string)) (schedule : list nat)
    (s : Interleaving.sys) :
  Interleaving.run calls schedule (Interleaving.init calls) = Some s →
  (∀ i, Interleaving.phases s !! i ≠ Some Interleaving.Running) →
  Interleaving.held s = ∅.
Proof.
  intros Hrun Hnone. apply InterleavingFacts.inv_reachable in Hrun as [Hheld _].
  apply elem_of_equiv_empty_L. intros key (i & keys & [Hi _] & _)%Hheld.
  by apply (Hnone i).
Qed.

Lemma quiescent_empty_witness :
  let calls := [["email:a@b.c"; "hash:ff"]; ["hash:ff"]; ["phone:+15551234567"]] in
  let s := Interleaving.mkSys ∅
             [Interleaving.Done;
              Interleaving.Rejected (in_flight_error "hash:ff");
              Interleaving.Done] in
  Interleaving.run calls [0; 2; 1; 2; 0] (Interleaving.init calls) = Some s ∧
  (∀ i, Interleaving.phases s !! i ≠ Some Interleaving.Running) ∧
  Interleaving.held s = ∅.
Proof.
  intros calls s.
  assert (Interleaving.run calls [0; 2; 1; 2; 0] (Interleaving.init calls) = Some s)
    as Hrun by (vm_compute; reflexivity).
  assert (∀ i, Interleaving.phases s !! i ≠ Some Interleaving.Running) as Hnone.
  { intros [|[|[|i]]]; discriminate. }
  split; [exact Hrun|]. split; [exact Hnone|].
  exact (quiescent_empty calls [0; 2; 1; 2; 0] s Hrun Hnone).
Defined.

(** X14. A call that is about to start enters its critical section when no
    running call has one of its keys, whatever other calls are running; and
    when it is rejected instead, some other running call has the key named
    in the error, and the set of held keys does not change. *)
Theorem enter_or_rejected (calls : list (list string)) (schedule : list nat)
    (s : Interleaving.sys) (i : nat) (keys : list string) :
  Interleaving.run calls schedule (Interleaving.init calls) = Some s →
  Interleaving.phases s !! i = Some Interleaving.Pending →
  calls !! i = Some keys →
  ((∀ j kj key, Interleaving.running calls s j kj → key ∈ keys → key ∉ kj) →
   Interleaving.step calls i s =
   Some (Interleaving.mkSys (mark (Interleaving.held s) keys)
           (<[i := Interleaving.Running]> (Interleaving.phases s)))) ∧
  (∀ s', Interleaving.step calls i s = Some s' →
         Interleaving.phases s' !! i ≠ Some Interleaving.Running →
         ∃ key j kj, Interleaving.running calls s j kj ∧ j ≠ i ∧
                     key ∈ keys ∧ key ∈ kj ∧
                     Interleaving.phases s' !! i =
                       Some (Interleaving.Rejected (in_flight_error key)) ∧
                     Interleaving.held s' = Interleaving.held s).
Proof.
  intros Hrun Hi Hc. apply InterleavingFacts.inv_reachable in Hrun as [Hheld _].
  assert (i < length (Interleaving.phases s)) as Hlt by by eapply lookup_lt_Some.
  unfold Interleaving.step. rewrite Hi, Hc. split.
  - intros Hfree.
    rewrite (proj2 (collision_None _ _)); [done|].
    intros key Hin (j & kj & Hj & Hkj)%Hheld. by apply (Hfree j kj key).
  - intros s'. destruct (collision (Interleaving.held s) keys) as [key|] eqn:Hcol.
    + intros [= <-] _. destruct (collision_Some _ _ _ Hcol) as (Hk & before & after & -> & _).
      apply Hheld in Hk as (j & kj & Hj & Hkj). exists key, j, kj.
      split; [done|]. split; [intros ->; destruct Hj as [Hj _]; congruence|].
      split; [rewrite elem_of_app, elem_of_cons; auto|]. split; [done|].
      simpl. by rewrite list_lookup_insert_eq.
    + intros [= <-] Hnot. exfalso. apply Hnot. simpl. by rewrite list_lookup_insert_eq.
Qed.

Lemma enter_or_rejected_witness :
  let calls := [["email:a@b.c"; "hash:ff"]; ["hash:ff"; "phone:+15551234567"]] in
  let s := Interleaving.mkSys (mark ∅ ["email:a@b.c"; "hash:ff"])
             [Interleaving.Running; Interleaving.Pending] in
  Interleaving.run calls [0] (Interleaving.init calls) = Some s ∧
  Interleaving.phases s !! 1 = Some Interleaving.Pending ∧
  calls !! 1 = Some ["hash:ff"; "phone:+15551234567"] ∧
  ∃ key j kj, Interleaving.running calls s j kj ∧ j ≠ 1 ∧
              key ∈ ["hash:ff"; "phone:+15551234567"] ∧ key ∈ kj.
Proof.
  intros calls s.
  assert (Interleaving.run calls [0] (Interleaving.init calls) = Some s) as Hrun
    by (vm_compute; reflexivity).
  split; [exact Hrun|]. split; [reflexivity|]. split; [reflexivity|].
  destruct (enter_or_rejected calls [0] s 1 ["hash:ff"; "phone:+15551234567"]
              Hrun eq_refl eq_refl) as [_ Hrej].
  destruct (Hrej (Interleaving.mkSys (Interleaving.held s)
                    [Interleaving.Running;
                     Interleaving.Rejected (in_flight_error "hash:ff")]))
    as (key & j & kj & Hj & Hne & Hin & Hkj & _).
  - vm_compute. reflexivity.
  - discriminate.
  - by exists key, j, kj.
Defined.

(** ** The pipeline, continued *)

Section Outcomes.

Context {W : Type} `{Store W}.

Lemma findExistingCandidate_tag (email phone resumeUrl : option string)
    (st st' : Proc W) (c : Candidate) (dimension : string) :
  findExistingCandidate email phone resumeUrl st = (st', inr (Some (c, dimension))) →
  dimension ∈ ["email"; "phone"; "resume"].
Proof.
  unfold findExistingCandidate, bind.
  destruct (queryCandidateByEmail email st) as [st1 [e1|[c1|]]]; [done| |].
  { intros [= _ _ <-]. rewrite !elem_of_cons. auto. }
  destruct (queryCandidateByPhone phone st1) as [st2 [e2|[c2|]]]; [done| |].
  { intros [= _ _ <-]. rewrite !elem_of_cons. auto. }
  destruct (queryCandidateByResumeUrl resumeUrl st2) as [st3 [e3|[c3|]]]; [done| |done].
  intros [= _ _ <-]. rewrite !elem_of_cons. auto.
Qed.

Lemma pipeline_error_find (email phone resumeUrl : option string)
    (st st' : Proc W) (e : exn) :
  findExistingCandidate email phone resumeUrl st = (st', inl e) → pipeline_error e.
Proof.
  intros (label & m & ->)%findExistingCandidate_error. simpl.
  exists (label +:+ ": " +:+ m). by left.
Qed.

Lemma pipeline_error_skipped (email phone resumeUrl : option string)
    (st st' : Proc W) (ex : Candidate * string) :
  findExistingCandidate email phone resumeUrl st = (st', inr (Some ex)) →
  pipeline_error (duplicate_skipped ex).
Proof.
  destruct ex as [c dimension]. intros Htag%findExistingCandidate_tag.
  simpl. right. by exists c, dimension.
Qed.

Lemma insertCandidate_result (payload : Payload) (resumeUrl : option string)
    (st : Proc W) :
  match snd (insertCandidate payload resumeUrl st) with
  | inr c => ∃ w w', insert_candidate payload w = (w', inr c) ∧
                     world (fst (insertCandidate payload resumeUrl st)) = w'
  | inl e => pipeline_error e
  end.
Proof.
  unfold insertCandidate, bind, call.
  destruct (insert_candidate payload (world st)) as [w [e|c]] eqn:Hins; simpl.
  - destruct (isUniqueViolation e).
    + destruct (findExistingCandidate (email payload) (phone payload) resumeUrl _)
        as [st2 [err|[ex|]]] eqn:Hfind; simpl.
      * by eapply pipeline_error_find.
      * by eapply pipeline_error_skipped.
      * by left.
    + exists (show (insert_message e)). by right; right.
  - by exists (world st), w.
Qed.

Lemma putResume_result (bucket storagePath fileBuffer : string) (payload : Payload)
    (resumeUrl : option string) (st : Proc W) :
  match snd (putResume bucket storagePath fileBuffer payload resumeUrl st) with
  | inr _ => True
  | inl e => pipeline_error e
  end.
Proof.
  unfold putResume, bind, call.
  destruct (storage_upload bucket storagePath fileBuffer (world st)) as [w [e|]]; simpl;
    [|done].
  destruct (negb _); simpl.
  - exists (show (storage_message e)). by right; left.
  - destruct (findExistingCandidate (email payload) (phone payload) resumeUrl _)
      as [st2 [err|[ex|]]] eqn:Hfind; simpl; [|
      |done].
    + by eapply pipeline_error_find.
    + by eapply pipeline_error_skipped.
Qed.

End Outcomes.

(** X15. Whatever the store answers, the operation that
    [saveCandidateFromFile] runs inside the lock ends in one of three ways.
    It returns the very record the store's insert returned; or it throws a
    [DuplicateCandidateError], either naming a record found by e-mail,
    phone or resume with that dimension, or with empty details after a
    constraint conflict nobody was found for; or it throws an [Error] whose
    message starts with the duplicate-check, the upload or the save
    failure text. *)
Theorem saveCandidateLocked_outcomes {W : Type} `{Store W}
    (bucket storagePath fileBuffer : string) (payload : Payload)
    (resumeUrl : option string) (st : Proc W) :
  let run := saveCandidateLocked bucket storagePath fileBuffer payload resumeUrl st in
  match snd run with
  | inr c => ∃ w w', insert_candidate payload w = (w', inr c) ∧ world (fst run) = w'
  | inl (DuplicateCandidateError message details) =>
      (message = "Duplicate candidate skipped (matched by constraint)." ∧
       details = no_details) ∨
      (∃ c dimension,
          dimension ∈ ["email"; "phone"; "resume"] ∧
          message = "Duplicate candidate skipped (matched by " +:+ dimension +:+ ")." ∧
          details = {| candidate := Some c; matchBy := Some dimension |})
  | inl (Error message) =>
      ∃ rest, message = "Failed duplicate check by " +:+ rest ∨
              message = "Failed to upload resume to Supabase Storage: " +:+ rest ∨
              message = "Failed to save candidate in database: " +:+ rest
  end.
Proof.
  cbv zeta.
  assert (match snd (saveCandidateLocked bucket storagePath fileBuffer payload resumeUrl st) with
          | inr c => ∃ w w', insert_candidate payload w = (w', inr c) ∧
               world (fst (saveCandidateLocked bucket storagePath fileBuffer payload
                             resumeUrl st)) = w'
          | inl e => pipeline_error e
          end) as Hall.
  { unfold saveCandidateLocked, bind.
    destruct (findExistingCandidate (email payload) (phone payload) resumeUrl st)
      as [st1 [err|[ex|]]] eqn:Hfind; simpl.
    - by eapply pipeline_error_find.
    - by eapply pipeline_error_skipped.
    - pose proof (putResume_result bucket storagePath fileBuffer payload resumeUrl st1)
        as Hput.
      destruct (putResume bucket storagePath fileBuffer payload resumeUrl st1)
        as [st2 [err|[]]]; simpl in *; [done|].
      apply insertCandidate_result. }
  destruct (snd (saveCandidateLocked _ _ _ _ _ _)) as [[message details|message]|c];
    exact Hall.
Qed.

(** ** The dispatcher, continued *)

Lemma run_nextIndex {F R : Type} (files : list F) (events : list (nat * R))
    (p p' : Dispatcher.pool) :
  Dispatcher.run files events p = Some p' →
  Dispatcher.nextIndex p' = Dispatcher.nextIndex p + length events.
Proof.
  revert p. induction events as [|[w v] rest IH]; intros p; simpl.
  - intros [= <-]. lia.
  - destruct (Dispatcher.settle files w v p) as [p1|] eqn:Hs; [|done].
    destruct (DispatcherFacts.settle_Some _ _ _ _ _ Hs) as (i & f & Hw & ->).
    intros Hrun. rewrite (IH _ Hrun). simpl. lia.
Qed.

Lemma filter_length_bound {A : Type} (f : A → bool) (l : list A) :
  length (List.filter f l) ≤ length l.
Proof. induction l as [|x l IH]; simpl; [done|]. destruct (f x); simpl; lia. Qed.

(** X16. At every moment of a run the handler calls in progress are on
    different files, each on the file at its index, and there are no more of
    them than workers, that is no more than the larger of one and the
    concurrency; indices are taken in order, one by each worker at the start
    and one each time a call resolves. *)
Theorem pending_calls_bounded {F R : Type} (files : list F) (concurrency : Z)
    (events : list (nat * R)) (p : Dispatcher.pool) :
  Dispatcher.run files events (Dispatcher.start files concurrency) = Some p →
  length (List.filter (λ x, negb (Dispatcher.is_returned x)) (Dispatcher.workers p))
    ≤ Dispatcher.workerCount files concurrency ∧
  (Z.of_nat (Dispatcher.workerCount files concurrency) ≤ Z.max 1 concurrency)%Z ∧
  (∀ w1 w2 i f1 f2,
      Dispatcher.workers p !! w1 = Some (Dispatcher.Awaiting i f1) →
      Dispatcher.workers p !! w2 = Some (Dispatcher.Awaiting i f2) → w1 = w2) ∧
  (∀ w i f, Dispatcher.workers p !! w = Some (Dispatcher.Awaiting i f) →
            files !! i = Some f ∧ i < Dispatcher.nextIndex p) ∧
  Dispatcher.nextIndex p = Dispatcher.workerCount files concurrency + length events.
Proof.
  intros Hrun.
  pose proof (DispatcherFacts.inv_start (R := R) files concurrency) as Hinv0.
  destruct (DispatcherFacts.inv_run files events _ p [] Hinv0 Hrun) as [Hinv _].
  split; [|split; [|split; [|split]]].
  - etrans; [apply filter_length_bound|].
    rewrite (DispatcherFacts.run_workers files events _ p Hrun).
    by rewrite DispatcherFacts.start_workers.
  - unfold Dispatcher.workerCount. lia.
  - apply (Dispatcher.inv_uniq _ _ _ Hinv).
  - intros w i f Hw. destruct (Dispatcher.inv_await _ _ _ Hinv _ _ _ Hw). done.
  - rewrite (run_nextIndex files events _ p Hrun).
    by rewrite DispatcherFacts.start_spec.
Qed.

Lemma pending_calls_bounded_witness :
  let files := ["a.pdf"; "b.pdf"; "c.pdf"; "d.pdf"] in
  let p := Dispatcher.mkPool [None; Some 20; None; None] 3
             [Dispatcher.Awaiting 0 "a.pdf"; Dispatcher.Awaiting 2 "c.pdf"] in
  Dispatcher.run files [(1, 20)] (Dispatcher.start files 2) = Some p ∧
  length (List.filter (λ x, negb (Dispatcher.is_returned x)) (Dispatcher.workers p)) ≤ 2 ∧
  Dispatcher.nextIndex p = 2 + 1.
Proof.
  intros files p.
  assert (Dispatcher.run files [(1, 20)] (Dispatcher.start files 2) = Some p) as Hrun
    by (vm_compute; reflexivity).
  split; [exact Hrun|].
  destruct (pending_calls_bounded files 2 [(1, 20)] p Hrun) as (Hpending & _ & _ & _ & Hnext).
  split; [exact Hpending|exact Hnext].
Defined.

(** ** The aggregate report, continued *)

Lemma omap_split_length (outcomes : list (option Outcome)) :
  Forall is_Some outcomes →
  length (omap (λ result, match result with
                          | Some (Uploaded fileName c) => Some (fileName, c)
                          | _ => None
                          end) outcomes) +
  length (omap (λ result, match result with
                          | Some (Failed fileName error) => Some (fileName, error)
                          | _ => None
                          end) outcomes) = length outcomes.
Proof.
  induction 1 as [|x l [o ->] _ IH]; [done|].
  destruct o; cbn in *; lia.
Qed.

(** X17. When the dispatcher has returned, the report accounts for every
    file: [uploadedCount] and [failedCount] add up to [totalFiles], which is
    the number of files sent; the status is 201 exactly when nothing failed
    and 207 otherwise. *)
Theorem bulkReport_counts (config : Config) (files : list File)
    (events : list (nat * Outcome)) (p : Dispatcher.pool) :
  Dispatcher.run files events (Dispatcher.start files (bulkUploadConcurrency config))
    = Some p →
  Dispatcher.all_returned p = true →
  let body := bulkReport config files (Dispatcher.results p) in
  uploadedCount body + failedCount body = totalFiles body ∧
  totalFiles body = length files ∧
  uploadedCount body = length (uploaded body) ∧
  failedCount body = length (failed body) ∧
  (status body = 201 ↔ failedCount body = 0) ∧
  (status body = 207 ↔ 0 < failedCount body).
Proof.
  intros Hrun Hall body.
  pose proof (DispatcherFacts.inv_start (R := Outcome) files (bulkUploadConcurrency config))
    as Hinv0.
  destruct (DispatcherFacts.inv_run files events _ p [] Hinv0 Hrun) as [Hinv _].
  assert (0 < length (Dispatcher.workers p)) as Hpos.
  { rewrite (DispatcherFacts.run_workers files events _ p Hrun).
    rewrite DispatcherFacts.start_workers.
    pose proof (DispatcherFacts.workerCount_bounds files (bulkUploadConcurrency config)).
    lia. }
  assert (Forall is_Some (Dispatcher.results p)) as Hsome.
  { apply Forall_lookup. intros i x Hx.
    assert (i < length files) as Hi.
    { rewrite <- (Dispatcher.inv_len _ _ _ Hinv). by eapply lookup_lt_Some. }
    destruct (lookup_lt_is_Some_2 files i Hi) as [f Hf].
    destruct (DispatcherFacts.results_complete files p _ Hinv Hpos Hall i f Hf)
      as (v & Hv & _).
    rewrite Hv in Hx. injection Hx as <-. by eexists. }
  pose proof (omap_split_length _ Hsome) as Hsum.
  rewrite (Dispatcher.inv_len _ _ _ Hinv) in Hsum.
  unfold body, bulkReport. cbn [uploadedCount failedCount totalFiles uploaded failed status].
  split; [exact Hsum|]. split; [done|]. split; [done|]. split; [done|].
  destruct (length (omap _ (Dispatcher.results p)) =? 0) eqn:Hzero at 1 2.
  - apply Nat.eqb_eq in Hzero. simpl. split; split; intros; (done || lia).
  - apply Nat.eqb_neq in Hzero. simpl. split; split; intros; (done || lia).
Qed.

Lemma bulkReport_counts_witness :
  let files := [{| path := "/tmp/1.pdf"; originalname := "ann.pdf" |};
                {| path := "/tmp/2.pdf"; originalname := "bob.pdf" |}] in
  let config := getConfig None None None in
  let row := {| cand_id := "row-"; cand_name := Some "Ann"; cand_email := None;
                cand_phone := None; cand_skills := []; cand_resume_url := None |} in
  let events := [(1, Failed "bob.pdf" "Duplicate candidate is already being processed.");
                 (0, Uploaded "ann.pdf" row)] in
  let p := Dispatcher.mkPool
             [Some (Uploaded "ann.pdf" row);
              Some (Failed "bob.pdf" "Duplicate candidate is already being processed.")]
             4 [Dispatcher.Returned; Dispatcher.Returned] in
  Dispatcher.run files events (Dispatcher.start files (bulkUploadConcurrency config))
    = Some p ∧
  Dispatcher.all_returned p = true ∧
  uploadedCount (bulkReport config files (Dispatcher.results p)) +
  failedCount (bulkReport config files (Dispatcher.results p)) = 2.
Proof.
  intros files config row events p.
  assert (Dispatcher.run files events
            (Dispatcher.start files (bulkUploadConcurrency config)) = Some p) as Hrun
    by (vm_compute; reflexivity).
  split; [exact Hrun|]. split; [reflexivity|].
  exact (proj1 (bulkReport_counts config files events p Hrun eq_refl)).
Defined.

(** ** Configuration *)

(** X18. Whatever the environment holds, the configured concurrency and the
    configured file limit are whole numbers that are not negative, and the
    bucket name is not empty.  The concurrency is 8 when the variable is
    missing, not a number or not above zero; it is at least one when the
    variable is at least one, and zero when the variable lies strictly
    between zero and one. *)
Theorem getConfig_bounds (maxFiles concurrency : option Q) (bucket : option string) :
  let config := getConfig maxFiles concurrency bucket in
  (0 ≤ bulkUploadConcurrency config)%Z ∧
  (0 ≤ maxFilesPerRequest config)%Z ∧
  resumeBucket config ≠ EmptyString ∧
  (concurrency = None → bulkUploadConcurrency config = 8%Z) ∧
  (∀ q, concurrency = Some q → (q <= 0)%Q → bulkUploadConcurrency config = 8%Z) ∧
  (∀ q, concurrency = Some q → (1 <= q)%Q → (1 ≤ bulkUploadConcurrency config)%Z) ∧
  (∀ q, concurrency = Some q → (0 < q)%Q → (q < 1)%Q →
        bulkUploadConcurrency config = 0%Z).
Proof.
  intros config.
  split; [apply getConfig_concurrency|]. split; [|split; [|split; [|split; [|split]]]].
  - unfold config, getConfig. simpl. destruct maxFiles as [q|]; [|done].
    destruct (Qle_bool 0 q) eqn:Hq; [|done].
    apply Qle_bool_iff in Hq. exact (Qfloor_resp_le 0 q Hq).
  - unfold config, getConfig. simpl. destruct bucket as [[|c b]|]; done.
  - by intros ->.
  - intros q -> Hq. unfold config, getConfig. simpl.
    by rewrite (proj2 (Qle_bool_iff q 0) Hq).
  - intros q -> Hq. unfold config, getConfig. simpl.
    destruct (Qle_bool q 0) eqn:Hle; [done|].
    exact (Qfloor_resp_le 1 q Hq).
  - intros q -> Hpos Hlt. unfold config, getConfig. simpl.
    destruct (Qle_bool q 0) eqn:Hle.
    + apply Qle_bool_iff in Hle. exfalso. by apply (Qlt_not_le _ _ Hpos).
    + pose proof (Qfloor_resp_le 0 q (Qlt_le_weak _ _ Hpos)) as Hlow.
      change (Qfloor 0) with 0%Z in Hlow.
      assert (Qfloor q < 1)%Z as Hhigh; [|lia].
      apply Z.lt_nge. intros Hge. apply (Qlt_not_le _ _ Hlt).
      eapply Qle_trans; [|apply Qfloor_le].
      change 1%Q with (inject_Z 1). by rewrite <- Zle_Qle.
Qed.

(** ** The search route *)

Module SearchFacts.
Import Search.

Lemma split_nonempty (sep : ascii) (s : string) : split sep s ≠ [].
Proof.
  destruct s as [|c s]; simpl; [done|].
  destruct (Ascii.eqb c sep); [done|]. by destruct (split sep s).
Qed.

Lemma split_no_sep (sep : ascii) (s x : string) :
  x ∈ split sep s → Text.all (λ c, negb (Ascii.eqb c sep)) x = true.
Proof.
  revert x. induction s as [|c s IH]; intros x; simpl.
  - by intros ->%list_elem_of_singleton.
  - destruct (Ascii.eqb c sep) eqn:Hc.
    + intros [->|Hin]%elem_of_cons; [done|by apply IH].
    + destruct (split sep s) as [|y ys] eqn:Hsplit.
      * intros ->%list_elem_of_singleton. simpl. by rewrite Hc.
      * intros [->|Hin]%elem_of_cons.
        -- simpl. rewrite Hc. simpl. apply IH. by left.
        -- apply IH. by right.
Qed.

Lemma all_trimStart (p : ascii → bool) (s : string) :
  Text.all p s = true → Text.all p (Str.trimStart s) = true.
Proof.
  induction s as [|c s IH]; simpl; [done|].
  intros [Hc Hs]%andb_true_iff. destruct (Str.is_space c); [by apply IH|].
  simpl. by rewrite Hc, Hs.
Qed.

Lemma all_trim (p : ascii → bool) (s : string) :
  Text.all p s = true → Text.all p (Str.trim s) = true.
Proof.
  intros Hs. unfold Str.trim. rewrite TextFacts.all_rev. apply all_trimStart.
  rewrite TextFacts.all_rev. by apply all_trimStart.
Qed.

Lemma lower_char_comma (c : ascii) :
  Ascii.eqb (Str.lower_char c) "," = Ascii.eqb c ",".
Proof. destruct c as [[] [] [] [] [] [] [] []]; reflexivity. Qed.

Lemma all_no_comma_lower (s : string) :
  Text.all (λ c, negb (Ascii.eqb c ",")) s = true →
  Text.all (λ c, negb (Ascii.eqb c ",")) (Str.toLowerCase s) = true.
Proof.
  unfold Str.toLowerCase. induction s as [|c s IH]; simpl; [done|].
  intros [Hc Hs]%andb_true_iff. by rewrite lower_char_comma, Hc, IH.
Qed.


Lemma after_prefix_sound (term s rest : string) :
  after_prefix term s = Some rest →
  ∃ found, s = found +:+ rest ∧ Str.toLowerCase found = Str.toLowerCase term.
Proof.
  revert s. induction term as [|a term IH]; intros s; simpl.
  - intros [= <-]. by exists EmptyString.
  - destruct s as [|b s]; [done|].
    destruct (Ascii.eqb _ _) eqn:Hab; [|done].
    intros (found & -> & Hfound)%IH. exists (String b found).
    split; [done|]. apply Ascii.eqb_eq in Hab. unfold Str.toLowerCase in *. simpl.
    by rewrite Hab, Hfound.
Qed.

Lemma pattern_test_sound (b : bool) (term s : string) :
  pattern_test b term s = true →
  ∃ before found after,
    s = before +:+ found +:+ after ∧
    Str.toLowerCase found = Str.toLowerCase term ∧
    ends_word after = true ∧
    (before = EmptyString ∧ b = true ∨
     Text.starts (λ c, negb (word_char c)) (String.rev before) = true).
Proof.
  revert b. induction s as [|c s IH]; intros b; simpl.
  - rewrite orb_false_r. intros [-> Hhere]%andb_true_iff.
    destruct (after_prefix term EmptyString) as [rest|] eqn:Hrest; [|done].
    apply after_prefix_sound in Hrest as (found & Hs & Hfound).
    exists EmptyString, found, rest. repeat split; [done..|]. by left.
  - intros [[-> Hhere]%andb_true_iff|Hlater]%orb_true_iff.
    + destruct (after_prefix term (String c s)) as [rest|] eqn:Hrest; [|done].
      apply after_prefix_sound in Hrest as (found & Hs & Hfound).
      exists EmptyString, found, rest. repeat split; [done..|]. by left.
    + apply IH in Hlater as (before & found & after & -> & Hfound & Hafter & Hbefore).
      exists (String c before), found, after. split; [done|]. split; [done|].
      split; [done|]. right.
      change (String c before) with (String c EmptyString +:+ before).
      rewrite TextFacts.rev_app_distr.
      destruct Hbefore as [[-> Hc]|Hbefore]; [by simpl|].
      destruct (String.rev before); [done|]. done.
Qed.

Lemma map_set_keys (key : string) (value : Candidate)
    (m : list (string * Candidate)) (k : string) :
  k ∈ (map_set key value m).*1 ↔ k = key ∨ k ∈ m.*1.
Proof.
  induction m as [|[k' v'] m IH]; simpl.
  - rewrite list_elem_of_singleton, elem_of_nil. tauto.
  - destruct (String.eqb k' key) eqn:Heq.
    + apply String.eqb_eq in Heq. subst k'. simpl. rewrite !elem_of_cons. tauto.
    + simpl. rewrite !elem_of_cons, IH. tauto.
Qed.

Lemma map_set_NoDup (key : string) (value : Candidate) (m : list (string * Candidate)) :
  NoDup m.*1 → NoDup (map_set key value m).*1.
Proof.
  induction m as [|[k' v'] m IH]; simpl; [intros _; apply NoDup_singleton|].
  intros [Hnot Hm]%NoDup_cons. destruct (String.eqb k' key) eqn:Heq; simpl.
  - by apply NoDup_cons.
  - apply NoDup_cons. split; [|by apply IH].
    rewrite map_set_keys. apply String.eqb_neq in Heq. intros [->|?]; done.
Qed.

Lemma map_set_elem (key : string) (value : Candidate) (m : list (string * Candidate))
    (k : string) (v : Candidate) :
  NoDup m.*1 → (k, v) ∈ map_set key value m →
  (k = key ∧ v = value) ∨ (k ≠ key ∧ (k, v) ∈ m).
Proof.
  induction m as [|[k' v'] m IH]; simpl.
  - intros _ [= -> ->]%list_elem_of_singleton. by left.
  - intros [Hnot Hm]%NoDup_cons. destruct (String.eqb k' key) eqn:Heq.
    + apply String.eqb_eq in Heq. subst k'.
      intros [[= -> ->]|Hin]%elem_of_cons; [by left|]. right. split; [|by right].
      intros ->. apply Hnot. apply list_elem_of_fmap. by exists (key, v).
    + apply String.eqb_neq in Heq.
      intros [[= -> ->]|Hin]%elem_of_cons; [right; split; [done|by left]|].
      destruct (IH Hm Hin) as [?|[? ?]]; [by left|right; split; [done|by right]].
Qed.

Lemma merged_step (m : list (string * Candidate)) (rows : list Candidate) (c : Candidate) :
  merged m rows → merged (map_set (cand_id c) c m) (rows ++ [c]).
Proof.
  intros [Hnodup Hlast Hall]. split.
  - by apply map_set_NoDup.
  - intros k v Hkv.
    destruct (map_set_elem _ _ _ _ _ Hnodup Hkv) as [[-> ->]|[Hne Hin]].
    + split; [done|]. exists rows, []. split; [done|]. by intros x ?%elem_of_nil.
    + destruct (Hlast k v Hin) as (Hid & before & after & -> & Hafter).
      split; [done|]. exists before, (after ++ [c]).
      split; [by rewrite <- app_assoc|].
      intros x [?| ->%list_elem_of_singleton]%elem_of_app; [by apply Hafter|done].
  - intros x [Hx| ->%list_elem_of_singleton]%elem_of_app; apply map_set_keys; auto.
Qed.

Lemma merged_fold (l : list Candidate) (m : list (string * Candidate))
    (rows : list Candidate) :
  merged m rows →
  merged (foldl (λ m candidate, map_set (cand_id candidate) candidate m) m l) (rows ++ l).
Proof.
  revert m rows. induction l as [|c l IH]; intros m rows Hm; simpl.
  - by rewrite app_nil_r.
  - replace (rows ++ c :: l) with ((rows ++ [c]) ++ l) by by rewrite <- app_assoc.
    by apply IH, merged_step.
Qed.

Lemma merged_all_rows (rows : list Candidate) :
  merged (foldl (λ m candidate, map_set (cand_id candidate) candidate m) [] rows) rows.
Proof.
  apply (merged_fold rows [] []). split.
  - constructor.
  - by intros k v ?%elem_of_nil.
  - by intros x ?%elem_of_nil.
Qed.

Lemma mergeById_last (rows : list Candidate) (c : Candidate) :
  c ∈ mergeById rows →
  ∃ before after, rows = before ++ c :: after ∧
                  ∀ x, x ∈ after → cand_id x ≠ cand_id c.
Proof.
  unfold mergeById. rewrite list_elem_of_In, List.in_map_iff.
  intros ([k v] & <- & Hin). apply list_elem_of_In in Hin.
  destruct (merged_last _ _ (merged_all_rows rows) k v Hin) as (<- & Hlast). done.
Qed.

End SearchFacts.

(** X19. [parseSkillsParam] returns only terms that are not empty, have no
    white space at either end, no upper-case letter and no comma; a missing
    or empty parameter gives no term, and so does a parameter whose pieces
    between commas are all blank (the route then answers 400). *)
Theorem parseSkillsParam_terms (rawSkills : option string) :
  (∀ term, term ∈ Search.parseSkillsParam rawSkills →
     term ≠ EmptyString ∧ Text.trimmed term = true ∧
     Text.all (λ c, negb (Str.is_upper c)) term = true ∧
     Text.all (λ c, negb (Ascii.eqb c ",")) term = true ∧
     ∃ raw piece, rawSkills = Some raw ∧ piece ∈ Search.split "," raw ∧
                  term = Str.toLowerCase (Str.trim piece)) ∧
  Search.parseSkillsParam None = [] ∧
  Search.parseSkillsParam (Some EmptyString) = [] ∧
  (∀ raw, (∀ piece, piece ∈ Search.split "," raw → Str.trim piece = EmptyString) →
          Search.parseSkillsParam (Some raw) = []).
Proof.
  split; [|split; [done|split; [done|]]].
  - intros term. destruct rawSkills as [raw|]; simpl; [|by intros ?%elem_of_nil].
    destruct (Str.truthy raw); [|by intros ?%elem_of_nil].
    rewrite list_elem_of_In, List.filter_In, List.in_map_iff.
    intros [(piece & <- & Hpiece) Htruthy]. apply list_elem_of_In in Hpiece.
    split; [by intros Hempty; rewrite Hempty in Htruthy|]. split; [|split; [|split]].
    + rewrite TextFacts.toLowerCase_trim. apply TextFacts.trim_trimmed.
    + apply TextFacts.toLowerCase_no_upper.
    + apply SearchFacts.all_no_comma_lower, SearchFacts.all_trim.
      by apply (SearchFacts.split_no_sep "," raw).
    + by exists raw, piece.
  - intros raw Hblank. simpl. destruct (Str.truthy raw); [|done].
    induction (Search.split "," raw) as [|piece pieces IH]; [done|]. simpl.
    rewrite (Hblank piece) by by left. simpl. apply IH.
    intros x Hx. apply Hblank. by right.
Qed.

Lemma lower_trim_lower (s : string) :
  Str.toLowerCase (Str.trim (Str.toLowerCase s)) = Str.toLowerCase (Str.trim s).
Proof. by rewrite <- TextFacts.toLowerCase_trim, TextFacts.toLowerCase_idem. Qed.



(** X21. A candidate passes [candidateHasAllTerms] only with at least one
    skill and only if every term occurs in one of the skills, letter case
    aside, as a whole word: at the start of the trimmed skill or after a
    character that is not a letter, a digit, [+], [#] or [.], and at its end
    or before such a character. *)
Theorem candidateHasAllTerms_sound (candidate : Candidate) (terms : list string) :
  Search.candidateHasAllTerms candidate terms = true →
  cand_skills candidate ≠ [] ∧
  ∀ term, term ∈ terms →
    term ≠ EmptyString ∧
    ∃ skill before found after,
      skill ∈ cand_skills candidate ∧
      Str.toLowerCase (Str.trim skill) = before +:+ found +:+ after ∧
      Str.toLowerCase found = Str.toLowerCase term ∧
      Search.ends_word after = true ∧
      (before = EmptyString ∨
       Text.starts (λ c, negb (Search.word_char c)) (String.rev before) = true).
Proof.
  unfold Search.candidateHasAllTerms. cbv zeta.
  destruct (length (List.map Str.toLowerCase (cand_skills candidate)) =? 0) eqn:Hlen;
    [done|].
  intros Hall. split; [by intros Hs; rewrite Hs in Hlen|].
  intros term Hterm%list_elem_of_In.
  pose proof (proj1 (List.forallb_forall _ _) Hall term Hterm) as Hsome.
  apply List.existsb_exists in Hsome as (lowered & Hin & Hmatch).
  apply List.in_map_iff in Hin as (skill & <- & Hin%list_elem_of_In).
  unfold Search.skillMatchesTerm in Hmatch.
  destruct (Str.truthy (Str.toLowerCase skill)); [|done].
  destruct (Str.truthy term) eqn:Hterm_truthy; [|done]. cbn [andb] in Hmatch.
  rewrite lower_trim_lower in Hmatch.
  destruct (Str.truthy (Str.toLowerCase (Str.trim skill))); [|done].
  apply SearchFacts.pattern_test_sound in Hmatch
    as (before & found & after & Heq & Hfound & Hafter & Hbefore).
  split; [by intros ->|]. exists skill, before, found, after.
  split; [done|]. split; [done|]. split; [done|]. split; [done|].
  destruct Hbefore as [[-> _]|?]; auto.
Qed.

Lemma candidateHasAllTerms_sound_witness :
  let candidate := {| cand_id := "row-"; cand_name := None; cand_email := None;
                      cand_phone := None; cand_skills := ["Node.js / Express"];
                      cand_resume_url := None |} in
  Search.candidateHasAllTerms candidate ["express"] = true ∧
  Search.candidateHasAllTerms candidate ["node"] = false ∧
  cand_skills candidate ≠ [].
Proof.
  intros candidate.
  assert (Search.candidateHasAllTerms candidate ["express"] = true) as Hrun
    by (vm_compute; reflexivity).
  split; [exact Hrun|]. split; [vm_compute; reflexivity|].
  exact (proj1 (candidateHasAllTerms_sound candidate ["express"] Hrun)).
Defined.

(** X22. After the merge no identifier occurs twice; every row of either
    query result is represented by a row with its identifier; and the row
    kept for an identifier is the last one with that identifier in the
    partial matches followed by the overlap matches, so a row of the
    overlap result replaces a partial match with the same identifier.  When
    the partial query failed or returned nothing the overlap result is used
    as it is. *)
Theorem mergedResults_rows (overlapMatches : list Candidate)
    (partialMatches : option (list Candidate)) :
  (partialMatches = None ∨ partialMatches = Some [] →
   Search.mergedResults overlapMatches partialMatches = overlapMatches) ∧
  (∀ rows, partialMatches = Some rows → rows ≠ [] →
     let merged := Search.mergedResults overlapMatches partialMatches in
     NoDup (cand_id <$> merged) ∧
     (∀ x, x ∈ rows ++ overlapMatches →
           ∃ c, c ∈ merged ∧ cand_id c = cand_id x) ∧
     (∀ c, c ∈ merged →
           ∃ before after,
             rows ++ overlapMatches = before ++ c :: after ∧
             ∀ x, x ∈ after → cand_id x ≠ cand_id c) ∧
     (∀ c x, c ∈ merged → x ∈ overlapMatches → cand_id x = cand_id c →
             c ∈ overlapMatches)).
Proof.
  split.
  - by intros [->| ->].
  - intros rows -> Hrows. destruct rows as [|first others]; [done|].
    cbn [Search.mergedResults]. set (all := (first :: others) ++ overlapMatches).
    pose proof (SearchFacts.merged_all_rows all) as [Hnodup Hlast Hall].
    set (m := foldl _ [] all) in *.
    assert (cand_id <$> Search.mergeById all = m.*1) as Hids.
    { unfold Search.mergeById. fold m. change (List.map snd m) with (snd <$> m).
      rewrite <- list_fmap_compose. apply list_fmap_ext.
      intros i [k v] Hkv. simpl. apply list_elem_of_lookup_2 in Hkv.
      by destruct (Hlast k v Hkv). }
    split; [by rewrite Hids|]. split; [|split].
    + intros x Hx. apply Hall in Hx.
      apply list_elem_of_fmap in Hx as ([k v] & Hk & Hkv). simpl in Hk. subst k.
      exists v. split; [|by destruct (Hlast _ _ Hkv)].
      unfold Search.mergeById. fold m. apply list_elem_of_In, List.in_map_iff.
      exists (cand_id x, v). split; [done|]. by apply list_elem_of_In.
    + apply SearchFacts.mergeById_last.
    + intros c x Hc Hx Hid.
      apply SearchFacts.mergeById_last in Hc as (before & after & Heq & Hafter).
      unfold all in Heq. apply app_eq_inv in Heq as [(k & Hk1 & Hk2)|(k & Hk1 & Hk2)].
      * destruct k as [|y k].
        -- rewrite app_nil_l in Hk2. rewrite <- Hk2. by left.
        -- injection Hk2 as -> ->. exfalso. apply (Hafter x); [|done].
           apply elem_of_app. by right.
      * rewrite Hk2. apply elem_of_app. right. by left.
Qed.

Lemma mergedResults_rows_witness :
  let old := {| cand_id := "7"; cand_name := Some "Ann (stale)"; cand_email := None;
                cand_phone := None; cand_skills := ["java"]; cand_resume_url := None |} in
  let new := {| cand_id := "7"; cand_name := Some "Ann"; cand_email := None;
                cand_phone := None; cand_skills := ["java"; "go"];
                cand_resume_url := None |} in
  Some [old] = Some [old] ∧ [old] ≠ [] ∧
  Search.mergedResults [new] (Some [old]) = [new] ∧
  NoDup (cand_id <$> Search.mergedResults [new] (Some [old])).
Proof.
  intros old new.
  assert ([old] ≠ []) as Hrows by discriminate.
  split; [reflexivity|]. split; [exact Hrows|]. split; [vm_compute; reflexivity|].
  exact (proj1 (proj2 (mergedResults_rows [new] (Some [old])) [old] eq_refl Hrows)).
Defined.

(** ** Paging *)

(** X23. Whatever the [limit] parameter is, the page size is a finite number
    from 1 to 200, and it is 50 when the parameter is missing, not a number
    or zero; the offset is never [NaN] and never negative, and is 0 when the
    parameter is missing, not a number or negative. *)
Theorem paging_bounds (raw : Paging.number) :
  (∃ q, Paging.limit raw = Paging.Finite q ∧ (1 <= q)%Q ∧ (q <= 200)%Q) ∧
  (raw = Paging.NaN ∨ raw = Paging.Finite 0 → Paging.limit raw = Paging.Finite 50) ∧
  (Paging.offset raw = Paging.PosInf ∨
   ∃ q, Paging.offset raw = Paging.Finite q ∧ (0 <= q)%Q) ∧
  (raw = Paging.NaN ∨ raw = Paging.NegInf ∨
   (∃ q, raw = Paging.Finite q ∧ (q <= 0)%Q) →
   Paging.offset raw = Paging.Finite 0).
Proof.
  assert (∀ q, ∃ r, Paging.min (Paging.max (Paging.Finite q) (Paging.Finite 1))
                      (Paging.Finite 200) = Paging.Finite r ∧
                    (1 <= r)%Q ∧ (r <= 200)%Q) as Hclamp.
  { intros q. simpl. destruct (Qle_bool q 1) eqn:H1; simpl.
    - exists 1%Q. by repeat split.
    - destruct (Qle_bool q 200) eqn:H2.
      + exists q. split; [done|]. split; [|by apply Qle_bool_iff].
        apply Qlt_le_weak, Qnot_le_lt. intros Hle%Qle_bool_iff. congruence.
      + exists 200%Q. by repeat split. }
  split; [|split; [|split]].
  - unfold Paging.limit. destruct raw as [| | |q]; simpl Paging.or_else.
    + apply Hclamp.
    + exists 1%Q. by repeat split.
    + exists 200%Q. by repeat split.
    + destruct (Qeq_bool q 0); apply Hclamp.
  - intros [->| ->]; reflexivity.
  - unfold Paging.offset. destruct raw as [| | |q]; simpl.
    + right. exists 0%Q. by split.
    + right. exists 0%Q. by split.
    + by left.
    + right. destruct (Qeq_bool q 0); simpl.
      * exists 0%Q. by split.
      * destruct (Qle_bool q 0) eqn:Hq; [exists 0%Q; by split|].
        exists q. split; [done|].
        apply Qlt_le_weak, Qnot_le_lt. intros Hle%Qle_bool_iff. congruence.
  - unfold Paging.offset. intros [->|[->|(q & -> & Hq)]]; [done..|]. simpl.
    destruct (Qeq_bool q 0); simpl; [done|].
    by rewrite (proj2 (Qle_bool_iff q 0) Hq).
Qed.

(** ** One worker *)

Lemma one_worker_run {F R : Type} (files : list F) (events : list (nat * R))
    (results : list (option R)) (n : nat) (p : Dispatcher.pool) :
  Dispatcher.run files events
    (Dispatcher.mkPool results (S n) [Dispatcher.claim files n]) = Some p →
  (λ t : nat * F * R, t.1.1) <$>
    Dispatcher.resolved files events
      (Dispatcher.mkPool results (S n) [Dispatcher.claim files n]) =
    seq n (length events) ∧
  Forall (λ e, e.1 = 0) events.
Proof.
  revert results n. induction events as [|[w v] rest IH]; intros results n; simpl.
  - by intros _.
  - destruct (Dispatcher.settle files w v _) as [p1|] eqn:Hs; [|done].
    destruct (DispatcherFacts.settle_Some _ _ _ _ _ Hs) as (i & f & Hw & ->).
    simpl in Hw. destruct w as [|w]; [|by destruct w]. simpl in Hw.
    injection Hw as Hclaim. rewrite Hclaim. simpl.
    apply DispatcherFacts.claim_awaiting in Hclaim as [-> _].
    intros Hrun. destruct (IH _ _ Hrun) as [Hlog Hall].
    split; [f_equal; exact Hlog|by constructor].
Qed.

(** X24. With a concurrency of at most one, or with at most one file, there
    is a single worker and the files are handled strictly in the order
    given: the call that resolves as the [k]-th is the one on the file at
    index [k]. *)
Theorem one_worker_in_order {F R : Type} (files : list F) (concurrency : Z)
    (events : list (nat * R)) (p : Dispatcher.pool) :
  (concurrency ≤ 1)%Z ∨ length files ≤ 1 →
  Dispatcher.run files events (Dispatcher.start files concurrency) = Some p →
  Dispatcher.workerCount files concurrency = 1 ∧
  (λ t : nat * F * R, t.1.1) <$>
    Dispatcher.resolved files events (Dispatcher.start files concurrency) =
    seq 0 (length events) ∧
  Forall (λ e, e.1 = 0) events.
Proof.
  intros Hone.
  assert (Dispatcher.workerCount files concurrency = 1) as Hcount
    by (unfold Dispatcher.workerCount; lia).
  rewrite DispatcherFacts.start_spec, Hcount. simpl. intros Hrun.
  split; [done|]. by apply (one_worker_run files events _ 0 p).
Qed.

Lemma one_worker_in_order_witness :
  let files := ["a.pdf"; "b.pdf"; "c.pdf"] in
  let p := Dispatcher.mkPool [Some 1; Some 2; None] 3 [Dispatcher.Awaiting 2 "c.pdf"] in
  ((1 ≤ 1)%Z ∨ length files ≤ 1) ∧
  Dispatcher.run files [(0, 1); (0, 2)] (Dispatcher.start files 1) = Some p ∧
  (λ t : nat * string * nat, t.1.1) <$>
    Dispatcher.resolved files [(0, 1); (0, 2)] (Dispatcher.start files 1) = [0; 1].
Proof.
  intros files p.
  assert ((1 ≤ 1)%Z ∨ length files ≤ 1) as Hone by (left; lia).
  assert (Dispatcher.run files [(0, 1); (0, 2)] (Dispatcher.start files 1) = Some p)
    as Hrun by (vm_compute; reflexivity).
  split; [exact Hone|]. split; [exact Hrun|].
  exact (proj1 (proj2 (one_worker_in_order files 1 [(0, 1); (0, 2)] p Hone Hrun))).
Defined.

(** ** Duplicates found in the store *)

(** X25. When the store has a record with the payload's e-mail address, the
    operation inside the lock stops there: it throws the duplicate error
    matched by e-mail with that record, and the world is the one the e-mail
    query left, so nothing was uploaded and nothing inserted.  With no
    e-mail address in the payload the same holds for the phone number. *)
Theorem saveCandidateLocked_known {W : Type} `{Store W}
    (bucket storagePath fileBuffer : string) (payload : Payload)
    (resumeUrl : option string) (st : Proc W) (v : string) (w : W)
    (c : Candidate) (rows : list Candidate) :
  Str.truthy v = true →
  (email payload = Some v →
   select_eq "email" v (world st) = (w, QData (c :: rows)) →
   saveCandidateLocked bucket storagePath fileBuffer payload resumeUrl st =
     (mkProc (inFlightDedupKeys st) w,
      inl (DuplicateCandidateError "Duplicate candidate skipped (matched by email)."
             {| candidate := Some c; matchBy := Some "email" |}))) ∧
  (email payload = None → phone payload = Some v →
   select_eq "phone" v (world st) = (w, QData (c :: rows)) →
   saveCandidateLocked bucket storagePath fileBuffer payload resumeUrl st =
     (mkProc (inFlightDedupKeys st) w,
      inl (DuplicateCandidateError "Duplicate candidate skipped (matched by phone)."
             {| candidate := Some c; matchBy := Some "phone" |}))).
Proof.
  intros Hv.
  assert (truthy_opt (Some v) = Some v) as Hopt by (simpl; by rewrite Hv).
  split.
  - intros Hemail Hsel. unfold saveCandidateLocked, findExistingCandidate, bind.
    unfold queryCandidateByEmail. rewrite Hemail.
    rewrite (queryCandidateBy_ask _ _ _ _ _ Hopt), Hsel. done.
  - intros Hemail Hphone Hsel. unfold saveCandidateLocked, findExistingCandidate, bind.
    unfold queryCandidateByEmail, queryCandidateByPhone. rewrite Hemail, Hphone.
    rewrite (queryCandidateBy_skip _ _ None st eq_refl).
    rewrite (queryCandidateBy_ask _ _ _ _ _ Hopt), Hsel. done.
Qed.

Lemma saveCandidateLocked_known_witness :
  let row := {| cand_id := "row-"; cand_name := Some "Ann";
                cand_email := Some "ann@b.example"; cand_phone := None;
                cand_skills := []; cand_resume_url := None |} in
  let payload := {| name := Some "Ann B"; email := Some "ann@b.example";
                    phone := None; skills := []; resume_url := None |} in
  let w := MemoryStore.mkWorld [row] [] [] in
  let st := mkProc (∅ : gset string) w in
  Str.truthy "ann@b.example" = true ∧
  select_eq "email" "ann@b.example" (world st) = (w, QData [row]) ∧
  saveCandidateLocked "resumes" "uploads/ff.pdf" "%PDF" payload None st =
    (st, inl (DuplicateCandidateError "Duplicate candidate skipped (matched by email)."
                {| candidate := Some row; matchBy := Some "email" |})).
Proof.
  intros row payload w st.
  assert (select_eq "email" "ann@b.example" (world st) = (w, QData [row])) as Hsel
    by (vm_compute; reflexivity).
  split; [reflexivity|]. split; [exact Hsel|].
  exact (proj1 (saveCandidateLocked_known "resumes" "uploads/ff.pdf" "%PDF" payload None
                  st "ann@b.example" w row [] eq_refl) eq_refl Hsel).
Defined.

Lemma findExistingCandidate_no_url {W : Type} `{Store W} (email phone : option string)
    (st st' : Proc W) (c : Candidate) (dimension : string) :
  findExistingCandidate email phone None st = (st', inr (Some (c, dimension))) →
  dimension ∈ ["email"; "phone"].
Proof.
  unfold findExistingCandidate, bind.
  destruct (queryCandidateByEmail email st) as [st1 [e1|[c1|]]]; [done| |].
  { intros [= _ _ <-]. rewrite !elem_of_cons. auto. }
  destruct (queryCandidateByPhone phone st1) as [st2 [e2|[c2|]]]; [done| |].
  { intros [= _ _ <-]. rewrite !elem_of_cons. auto. }
  unfold queryCandidateByResumeUrl. by rewrite (queryCandidateBy_skip _ _ None st2 eq_refl).
Qed.

Lemma upload_found_dup {W : Type} `{Store W} (email phone : option string)
    (s s' : Proc W) (ex : Candidate * string) (message : string) (details : Details) :
  findExistingCandidate email phone None s = (s', inr (Some ex)) →
  duplicate_skipped ex = DuplicateCandidateError message details →
  ∃ c dimension,
    dimension ∈ ["email"; "phone"] ∧
    message = "Duplicate candidate skipped (matched by " +:+ dimension +:+ ")." ∧
    details = {| candidate := Some c; matchBy := Some dimension |}.
Proof.
  destruct ex as [c dimension]. intros Htag%findExistingCandidate_no_url [= <- <-].
  by exists c, dimension.
Qed.

Lemma upload_find_not_dup {W : Type} `{Store W} (email phone : option string)
    (s s' : Proc W) (err : exn) (message : string) (details : Details) :
  findExistingCandidate email phone None s = (s', inl err) →
  err ≠ DuplicateCandidateError message details.
Proof. intros (label & m & ->)%findExistingCandidate_error. done. Qed.

Lemma uploadLocked_dup {W : Type} `{Store W} (bucket storagePath fileBuffer : string)
    (record : Payload) (st : Proc W) (message : string) (details : Details) :
  snd (uploadLocked bucket storagePath fileBuffer record st) =
    inl (DuplicateCandidateError message details) →
  ∃ c dimension,
    dimension ∈ ["email"; "phone"] ∧
    message = "Duplicate candidate skipped (matched by " +:+ dimension +:+ ")." ∧
    details = {| candidate := Some c; matchBy := Some dimension |}.
Proof.
  unfold uploadLocked, uploadPut, bind, call.
  destruct (findExistingCandidate (email record) (phone record) None st)
    as [st1 [err|[ex|]]] eqn:Hfirst; simpl.
  - intros [= ->]. by destruct (upload_find_not_dup _ _ _ _ _ message details Hfirst).
  - intros Heq. apply (upload_found_dup _ _ _ _ _ _ _ Hfirst). congruence.
  - destruct (storage_upload bucket storagePath fileBuffer (world st1)) as [w1 [e|]];
      simpl; [|done].
    by destruct (negb _).
Qed.

Lemma uploadInsert_dup {W : Type} `{Store W} (record : Payload) (st : Proc W)
    (message : string) (details : Details) :
  snd (uploadInsert record st) = inl (DuplicateCandidateError message details) →
  (message = "Duplicate candidate skipped (matched by constraint)." ∧
   details = no_details) ∨
  (∃ c dimension,
      dimension ∈ ["email"; "phone"] ∧
      message = "Duplicate candidate skipped (matched by " +:+ dimension +:+ ")." ∧
      details = {| candidate := Some c; matchBy := Some dimension |}).
Proof.
  unfold uploadInsert, bind, call.
  destruct (insert_candidate record (world st)) as [w2 [ie|c]]; simpl; [|done].
  destruct (isUniqueViolation ie); [|done].
  destruct (findExistingCandidate (email record) (phone record) None _)
    as [st3 [err|[ex|]]] eqn:Hlast; simpl.
  - intros [= ->]. by destruct (upload_find_not_dup _ _ _ _ _ message details Hlast).
  - intros Heq. right. apply (upload_found_dup _ _ _ _ _ _ _ Hlast). congruence.
  - intros [= <- <-]. by left.
Qed.

(** X26. The operation of [/upload] looks for an existing record by e-mail
    address and phone only: a duplicate error it throws either names a
    record matched by [email] or by [phone], or has empty details after a
    constraint conflict; it never reports a match by resume. *)
Theorem upload_duplicates {W : Type} `{Store W} (bucket storagePath fileBuffer : string)
    (record : Payload) (st : Proc W) (message : string) (details : Details) :
  snd ((let* _ := uploadLocked bucket storagePath fileBuffer record in
        uploadInsert record) st) = inl (DuplicateCandidateError message details) →
  (message = "Duplicate candidate skipped (matched by constraint)." ∧
   details = no_details) ∨
  (∃ c dimension,
      dimension ∈ ["email"; "phone"] ∧
      message = "Duplicate candidate skipped (matched by " +:+ dimension +:+ ")." ∧
      details = {| candidate := Some c; matchBy := Some dimension |}).
Proof.
  unfold bind.
  destruct (uploadLocked bucket storagePath fileBuffer record st) as [st1 [e|[]]]
    eqn:Hlocked; simpl.
  - intros [= ->]. right.
    apply (uploadLocked_dup bucket storagePath fileBuffer record st).
    by rewrite Hlocked.
  - apply uploadInsert_dup.
Qed.

Lemma upload_duplicates_witness :
  let row := {| cand_id := "row-"; cand_name := Some "Ann"; cand_email := None;
                cand_phone := Some "+15551234567"; cand_skills := [];
                cand_resume_url := None |} in
  let record := {| name := Some "Ann B"; email := None; phone := Some "+15551234567";
                   skills := []; resume_url := None |} in
  let st := mkProc (∅ : gset string) (MemoryStore.mkWorld [row] [] []) in
  snd ((let* _ := uploadLocked "resumes" "resumes/ff.pdf" "%PDF" record in
        uploadInsert record) st) =
    inl (DuplicateCandidateError "Duplicate candidate skipped (matched by phone)."
           {| candidate := Some row; matchBy := Some "phone" |}) ∧
  ((("Duplicate candidate skipped (matched by phone)." : string) =
    "Duplicate candidate skipped (matched by constraint)." ∧
    {| candidate := Some row; matchBy := Some "phone" |} = no_details) ∨
   (∃ c dimension,
      dimension ∈ ["email"; "phone"] ∧
      ("Duplicate candidate skipped (matched by phone)." : string) =
        "Duplicate candidate skipped (matched by " +:+ dimension +:+ ")." ∧
      {| candidate := Some row; matchBy := Some "phone" |} =
        {| candidate := Some c; matchBy := Some dimension |})).
Proof.
  intros row record st.
  assert (snd ((let* _ := uploadLocked "resumes" "resumes/ff.pdf" "%PDF" record in
                uploadInsert record) st) =
          inl (DuplicateCandidateError "Duplicate candidate skipped (matched by phone)."
                 {| candidate := Some row; matchBy := Some "phone" |})) as Hrun
    by (vm_compute; reflexivity).
  split; [exact Hrun|].
  exact (upload_duplicates "resumes" "resumes/ff.pdf" "%PDF" record st _ _ Hrun).
Defined.

(** ** The resume parser *)

Module ResumeFacts.
Import Resume.

Lemma cleaned_char_lower (c : ascii) :
  name_char c && (negb (Str.is_space c) || Ascii.eqb c " ") = true →
  word_tail (Str.lower_char c) || Ascii.eqb (Str.lower_char c) " " = true.
Proof. destruct c as [[] [] [] [] [] [] [] []]; vm_compute; done. Qed.

Lemma word_tail_no_space (c : ascii) :
  word_tail c = true → Str.is_space c = false.
Proof. destruct c as [[] [] [] [] [] [] [] []]; vm_compute; done. Qed.

Lemma word_tail_only (c : ascii) :
  (word_tail c || Ascii.eqb c " ") && negb (Ascii.eqb c " ") = true →
  word_tail c = true.
Proof. destruct c as [[] [] [] [] [] [] [] []]; vm_compute; done. Qed.

Lemma upper_char_initial (c : ascii) :
  word_tail c = true →
  is_capital (upper_char c) || Ascii.eqb (upper_char c) "'"
  || Ascii.eqb (upper_char c) "." || Ascii.eqb (upper_char c) "-" = true.
Proof. destruct c as [[] [] [] [] [] [] [] []]; vm_compute; done. Qed.

Lemma initial_no_space (c : ascii) :
  is_capital c || Ascii.eqb c "'" || Ascii.eqb c "." || Ascii.eqb c "-" = true →
  Str.is_space c = false.
Proof. destruct c as [[] [] [] [] [] [] [] []]; vm_compute; done. Qed.

Lemma lower_char_blank (c : ascii) :
  Ascii.eqb (Str.lower_char c) " " = Ascii.eqb c " ".
Proof. destruct c as [[] [] [] [] [] [] [] []]; reflexivity. Qed.

Lemma word_char_lower (c : ascii) :
  Search.word_char (Str.lower_char c) = Search.word_char c.
Proof. destruct c as [[] [] [] [] [] [] [] []]; reflexivity. Qed.

Lemma all_weaken (p q : ascii → bool) (s : string) :
  (∀ c, p c = true → q c = true) → Text.all p s = true → Text.all q s = true.
Proof.
  intros Hpq. induction s as [|c s IH]; simpl; [done|].
  intros [Hc Hs]%andb_true_iff. by rewrite (Hpq c Hc), IH.
Qed.

Lemma all_both (p q : ascii → bool) (s : string) :
  Text.all p s = true → Text.all q s = true →
  Text.all (λ c, p c && q c) s = true.
Proof.
  induction s as [|c s IH]; simpl; [done|].
  intros [Hp Hps]%andb_true_iff [Hq Hqs]%andb_true_iff. by rewrite Hp, Hq, IH.
Qed.

Lemma all_map_char (p q : ascii → bool) (f : ascii → ascii) (s : string) :
  (∀ c, p c = true → q (f c) = true) →
  Text.all p s = true → Text.all q (Str.map f s) = true.
Proof.
  intros Hpq. induction s as [|c s IH]; simpl; [done|].
  intros [Hc Hs]%andb_true_iff. by rewrite (Hpq c Hc), IH.
Qed.

Lemma all_collapse (p : ascii → bool) (b : bool) (s : string) :
  p " "%char = true → Text.all p s = true →
  Text.all p (Str.collapse_spaces b s) = true.
Proof.
  intros Hblank. revert b. induction s as [|c s IH]; intros b; simpl; [done|].
  intros [Hc Hs]%andb_true_iff.
  destruct (Str.is_space c); [destruct b|]; simpl; rewrite ?Hblank, ?Hc; by apply IH.
Qed.

Lemma spaced_blank (b : bool) (s : string) :
  Spacing.single_spaced b s = true →
  Text.all (λ c, negb (Str.is_space c) || Ascii.eqb c " ") s = true.
Proof.
  revert b. induction s as [|c s IH]; intros b; simpl; [done|].
  destruct (Str.is_space c) eqn:Hc; simpl.
  - intros [[-> _]%andb_true_iff Hs]%andb_true_iff. by apply (IH true).
  - apply IH.
Qed.

Lemma all_starts (p : ascii → bool) (s : string) :
  Text.all (λ c, negb (p c)) s = true → Text.starts p s = false.
Proof.
  destruct s as [|c s]; simpl; [done|].
  intros [Hc _]%andb_true_iff. by apply negb_true_iff.
Qed.

Lemma all_split (p : ascii → bool) (sep : ascii) (s x : string) :
  Text.all p s = true → x ∈ Search.split sep s → Text.all p x = true.
Proof.
  revert x. induction s as [|c s IH]; intros x; simpl.
  - by intros _ ->%list_elem_of_singleton.
  - intros [Hc Hs]%andb_true_iff. destruct (Ascii.eqb c sep).
    + intros [->|Hin]%elem_of_cons; [done|by apply IH].
    + destruct (Search.split sep s) as [|y ys] eqn:Hsplit.
      * intros ->%list_elem_of_singleton. simpl. by rewrite Hc.
      * intros [->|Hin]%elem_of_cons.
        -- simpl. rewrite Hc. apply IH; [done|by left].
        -- apply IH; [done|by right].
Qed.

Lemma split_map_char (f : ascii → ascii) (sep : ascii) (s : string) :
  (∀ c, Ascii.eqb (f c) sep = Ascii.eqb c sep) →
  Search.split sep (Str.map f s) = List.map (Str.map f) (Search.split sep s).
Proof.
  intros Hf. induction s as [|c s IH]; simpl; [done|].
  rewrite Hf, IH. destruct (Ascii.eqb c sep); [done|].
  by destruct (Search.split sep s).
Qed.

Lemma filter_truthy_map (f : ascii → ascii) (l : list string) :
  List.filter Str.truthy (List.map (Str.map f) l) =
  List.map (Str.map f) (List.filter Str.truthy l).
Proof.
  induction l as [|x l IH]; simpl; [done|].
  destruct x as [|c x]; simpl; [done|]. by rewrite IH.
Qed.

Lemma cleaned_chars (line : string) :
  Text.all (λ c, name_char c && (negb (Str.is_space c) || Ascii.eqb c " "))
    (Str.trim (Str.collapse_spaces false (Str.filter name_char line))) = true.
Proof.
  apply SearchFacts.all_trim, all_both.
  - apply all_collapse; [done|]. apply TextFacts.all_filter.
  - apply (spaced_blank false), collapse_single_spaced.
Qed.

Lemma lower_words (cleaned w : string) :
  Text.all (λ c, name_char c && (negb (Str.is_space c) || Ascii.eqb c " "))
    cleaned = true →
  w ∈ List.filter Str.truthy (Search.split " " (Str.toLowerCase cleaned)) →
  w ≠ EmptyString ∧ Text.all word_tail w = true.
Proof.
  intros Hcleaned. rewrite list_elem_of_In, List.filter_In, <- list_elem_of_In.
  intros [Hin Htruthy]. split; [by intros ->|].
  apply (all_weaken _ _ _ word_tail_only), all_both.
  - apply (all_split _ " " (Str.toLowerCase cleaned)); [|done].
    by apply (all_map_char _ _ _ _ cleaned_char_lower).
  - by apply (SearchFacts.split_no_sep " " (Str.toLowerCase cleaned)).
Qed.

Lemma capitalize_titled (l : list string) :
  (∀ w, w ∈ l → w ≠ EmptyString ∧ Text.all word_tail w = true) →
  Forall (λ w, titled w = true) (List.map capitalize l).
Proof.
  induction l as [|x l IH]; intros Hl; simpl; [constructor|].
  constructor.
  - destruct (Hl x) as [Hx Hall]; [by left|]. destruct x as [|c x]; [done|].
    simpl in *. apply andb_true_iff in Hall as [Hc Hall].
    by rewrite (upper_char_initial c Hc), Hall.
  - apply IH. intros w Hw. apply Hl. by right.
Qed.

Lemma word_count (cleaned : string) :
  length (List.filter Str.truthy (Search.split " " (Str.toLowerCase cleaned))) =
  length (List.filter Str.truthy (Search.split " " cleaned)).
Proof.
  unfold Str.toLowerCase.
  rewrite (split_map_char _ _ _ lower_char_blank), filter_truthy_map.
  apply List.length_map.
Qed.

Lemma name_of_line_words (line r : string) :
  name_of_line line = Some r →
  ∃ words, r = String.concat " " words ∧ 2 ≤ length words ≤ 4 ∧
           Forall (λ w, titled w = true) words.
Proof.
  unfold name_of_line.
  destruct (_ || _); [done|]. destruct (Str.includes _ _); [done|].
  destruct (three_digits 0 line); [done|]. cbv zeta.
  set (cleaned := Str.trim _).
  destruct (_ && _) eqn:Hcount; [|done]. intros [= <-].
  apply andb_true_iff in Hcount as [Hmin%Nat.leb_le Hmax%Nat.leb_le].
  eexists. split; [reflexivity|]. rewrite List.length_map, word_count.
  split; [lia|]. apply capitalize_titled. intros w. apply lower_words, cleaned_chars.
Qed.

Lemma first_name_words (lines : list string) :
  first_name lines = "Unknown" ∨
  ∃ words, first_name lines = String.concat " " words ∧ 2 ≤ length words ≤ 4 ∧
           Forall (λ w, titled w = true) words.
Proof.
  induction lines as [|line rest IH]; simpl; [by left|].
  destruct (name_of_line line) as [r|] eqn:Hline; [|done].
  right. by apply name_of_line_words in Hline.
Qed.

Lemma titled_chars (w : string) :
  titled w = true →
  w ≠ EmptyString ∧ Text.starts Str.is_space w = false ∧
  Text.all (λ c, negb (Str.is_space c)) w = true.
Proof.
  destruct w as [|c r]; simpl; [done|].
  intros [Hc Hr]%andb_true_iff. rewrite (initial_no_space c Hc).
  split; [done|]. split; [done|]. simpl.
  apply (all_weaken word_tail); [|done].
  intros x Hx. by rewrite (word_tail_no_space x Hx).
Qed.

Lemma spaced_word (b : bool) (x s : string) :
  Text.starts Str.is_space x = false →
  Text.all (λ c, negb (Str.is_space c)) x = true →
  Spacing.single_spaced b (x +:+ s) =
  Spacing.single_spaced (if Str.truthy x then false else b) s.
Proof.
  revert b. induction x as [|c x IH]; intros b; [done|].
  rewrite TextFacts.app_cons. simpl. intros Hc [_ Hx]%andb_true_iff. rewrite Hc.
  destruct x as [|d x]; [done|]. rewrite IH; [done| |done].
  simpl in *. apply andb_true_iff in Hx as [Hd _]. by apply negb_true_iff.
Qed.

Lemma joined_words (words : list string) :
  words ≠ [] → Forall (λ w, titled w = true) words →
  String.concat " " words ≠ EmptyString ∧
  Text.starts Str.is_space (String.concat " " words) = false ∧
  Text.starts Str.is_space (String.rev (String.concat " " words)) = false ∧
  Spacing.single_spaced false (String.concat " " words) = true.
Proof.
  induction words as [|x rest IH]; [done|]. intros _ Hall.
  apply Forall_cons in Hall as [Hx Hrest].
  destruct (titled_chars x Hx) as (Hne & Hstart & Hchars).
  destruct rest as [|y rest].
  - simpl. split; [done|]. split; [done|]. split.
    + apply all_starts. by rewrite TextFacts.all_rev.
    + rewrite <- (TextFacts.app_empty_r x), spaced_word by done. by destruct x.
  - destruct IH as (Hne' & Hstart' & Hend' & Hspaced'); [done..|].
    change (String.concat " " (x :: y :: rest))
      with (x +:+ " " +:+ String.concat " " (y :: rest)).
    set (t := String.concat " " (y :: rest)) in *.
    split; [by destruct x|]. split; [by rewrite TextFacts.starts_app|]. split.
    + rewrite !TextFacts.rev_app_distr, TextFacts.app_assoc.
      rewrite TextFacts.starts_app; [done|]. by intros ?%TextFacts.rev_empty.
    + rewrite spaced_word by done. destruct x as [|c x]; [done|].
      destruct t as [|d t]; [done|]. simpl in *. by rewrite Hstart' in *.
Qed.

Lemma extractName_canonical (text : string) :
  normalizeName (Some (extractName text)) = Some (extractName text).
Proof.
  unfold extractName.
  destruct (first_name_words
              (take 20 (List.filter Str.truthy (List.map Str.trim (split_lines text)))))
    as [->|(words & -> & [Hmin _] & Htitled)]; [by vm_compute|].
  destruct (joined_words words) as (Hne & Hstart & Hend & Hspaced);
    [intros ->; simpl in Hmin; lia|done|].
  rewrite normalizeName_eq, TextFacts.trim_fixed, (collapse_fixed _ _ Hspaced).
  - by destruct (String.concat " " words).
  - unfold Text.trimmed. by rewrite Hstart, Hend.
Qed.

Lemma skill_list_canonical (skill : string) :
  skill ∈ SKILL_LIST →
  Str.toLowerCase skill = skill ∧ Str.toLowerCase (Str.trim skill) = skill ∧
  Str.truthy skill = true.
Proof.
  assert (forallb (λ s, String.eqb (Str.toLowerCase s) s
                        && String.eqb (Str.toLowerCase (Str.trim s)) s
                        && Str.truthy s) SKILL_LIST = true) as Hall
    by (vm_compute; reflexivity).
  rewrite List.forallb_forall in Hall. intros Hin%list_elem_of_In.
  apply Hall in Hin. apply andb_true_iff in Hin as [Hin Htruthy].
  apply andb_true_iff in Hin as [Hlower%String.eqb_eq Htrim%String.eqb_eq]. done.
Qed.

Lemma skill_list_NoDup : NoDup SKILL_LIST.
Proof. apply (bool_decide_unpack _). by vm_compute. Qed.

Lemma found_in_list {A : Type} (f : A → bool) (l : list A) (x : A) :
  x ∈ List.filter f l ↔ x ∈ l ∧ f x = true.
Proof. by rewrite !list_elem_of_In, List.filter_In. Qed.

Lemma found_sublist {A : Type} (f : A → bool) (l : list A) :
  sublist (List.filter f l) l.
Proof.
  induction l as [|x l IH]; simpl; [constructor|].
  destruct (f x); by constructor.
Qed.

Lemma map_fixed {A : Type} (f : A → A) (l : list A) :
  (∀ x, x ∈ l → f x = x) → List.map f l = l.
Proof.
  induction l as [|x l IH]; intros Hl; simpl; [done|].
  rewrite Hl by (by left). f_equal. apply IH. intros y Hy. apply Hl. by right.
Qed.

Lemma dedup_first_fixed (seen xs : list string) :
  NoDup xs → (∀ x, x ∈ xs → x ∉ seen) → dedup_first seen xs = xs.
Proof.
  revert seen. induction xs as [|x xs IH]; intros seen Hnodup Hseen; simpl; [done|].
  apply NoDup_cons in Hnodup as [Hx Hnodup].
  rewrite bool_decide_eq_false_2 by (apply Hseen; by left).
  f_equal. apply IH; [done|]. intros y Hy [->|Hin]%elem_of_cons; [done|].
  by apply (Hseen y); [right|].
Qed.

Lemma extractSkills_found (text : string) :
  extractSkills text =
  List.filter (λ skill, Search.pattern_test true skill (Str.toLowerCase text))
    SKILL_LIST.
Proof.
  unfold extractSkills. cbv zeta. rewrite map_fixed.
  - apply dedup_first_fixed; [|intros x _; apply not_elem_of_nil].
    apply (sublist_NoDup _ SKILL_LIST); [apply skill_list_NoDup|apply found_sublist].
  - intros x [Hx _]%found_in_list. by apply skill_list_canonical.
Qed.

Lemma after_prefix_lower (term s : string) :
  Search.after_prefix term (Str.toLowerCase s) =
  Str.toLowerCase <$> Search.after_prefix term s.
Proof.
  revert s. induction term as [|a term IH]; intros s; simpl; [done|].
  destruct s as [|b s]; simpl; [done|].
  rewrite TextFacts.lower_char_idem. destruct (Ascii.eqb _ _); [apply IH|done].
Qed.

Lemma ends_word_lower (s : string) :
  Search.ends_word (Str.toLowerCase s) = Search.ends_word s.
Proof. destruct s as [|c s]; simpl; [done|]. by rewrite word_char_lower. Qed.

Lemma pattern_test_lower (b : bool) (term s : string) :
  Search.pattern_test b term (Str.toLowerCase s) = Search.pattern_test b term s.
Proof.
  revert b. induction s as [|c s IH]; intros b.
  - done.
  - change (Str.toLowerCase (String c s))
      with (String (Str.lower_char c) (Str.toLowerCase s)).
    cbn [Search.pattern_test].
    change (String (Str.lower_char c) (Str.toLowerCase s))
      with (Str.toLowerCase (String c s)).
    rewrite after_prefix_lower, word_char_lower, IH.
    destruct (Search.after_prefix term (String c s)) as [rest|]; simpl; [|done].
    by rewrite ends_word_lower.
Qed.

Lemma normalizeSkills_fixed (l : list string) :
  NoDup l →
  (∀ s, s ∈ l → Str.toLowerCase (Str.trim s) = s ∧ Str.truthy s = true) →
  normalizeSkills (Some (Some <$> l)) = l.
Proof.
  intros Hnodup Hl. unfold normalizeSkills.
  assert (List.filter Str.truthy
            (List.map (λ skill : option string,
                         match skill with
                         | Some s => Str.toLowerCase (Str.trim s)
                         | None => EmptyString
                         end) (Some <$> l)) = l) as ->.
  { clear Hnodup. induction l as [|x l IH]; simpl; [done|].
    destruct (Hl x) as [-> ->]; [by left|]. f_equal. apply IH.
    intros s Hs. apply Hl. by right. }
  apply dedup_first_fixed; [done|]. intros x _. apply not_elem_of_nil.
Qed.

End ResumeFacts.

(** X27. The name [extractName] finds is either ["Unknown"] or two to four
    words joined by single spaces, each word not empty, with a capital
    letter [A-Z], an apostrophe, a dot or a hyphen in front and only letters
    [a-z], apostrophes, dots and hyphens after its first character. *)
Theorem extractName_shape (text : string) :
  Resume.extractName text = "Unknown" ∨
  ∃ words, Resume.extractName text = String.concat " " words ∧
           2 ≤ length words ≤ 4 ∧
           Forall (λ w, Resume.titled w = true) words.
Proof. apply ResumeFacts.first_name_words. Qed.

(** X28. The skills [extractSkills] finds are entries of [SKILL_LIST], in
    the order of that list and none twice.  An entry is found exactly when
    the pattern built from it matches the text, whatever the letter case of
    the text; it then occurs in the text, letter case aside, with the start
    of the text or a character outside [[a-z0-9+#.]] before it and the end
    of the text or such a character after it. *)
Theorem extractSkills_listed (text : string) :
  sublist (Resume.extractSkills text) Resume.SKILL_LIST ∧
  NoDup (Resume.extractSkills text) ∧
  (∀ skill, skill ∈ Resume.extractSkills text ↔
            skill ∈ Resume.SKILL_LIST ∧ Search.pattern_test true skill text = true) ∧
  (∀ skill, skill ∈ Resume.extractSkills text →
     ∃ before found after,
       text = before +:+ found +:+ after ∧
       Str.toLowerCase found = skill ∧
       Search.ends_word after = true ∧
       (before = EmptyString ∨
        Text.starts (λ c, negb (Search.word_char c)) (String.rev before) = true)).
Proof.
  rewrite ResumeFacts.extractSkills_found.
  assert (∀ skill,
            skill ∈ List.filter
              (λ skill, Search.pattern_test true skill (Str.toLowerCase text))
              Resume.SKILL_LIST ↔
            skill ∈ Resume.SKILL_LIST ∧ Search.pattern_test true skill text = true)
    as Hmem.
  { intros skill. by rewrite ResumeFacts.found_in_list, ResumeFacts.pattern_test_lower. }
  split; [apply ResumeFacts.found_sublist|]. split.
  { apply (sublist_NoDup _ Resume.SKILL_LIST);
      [apply ResumeFacts.skill_list_NoDup|apply ResumeFacts.found_sublist]. }
  split; [exact Hmem|].
  intros skill [Hlisted Htest]%Hmem.
  apply SearchFacts.pattern_test_sound in Htest
    as (before & found & after & -> & Hfound & Hafter & Hbefore).
  exists before, found, after. split; [done|].
  destruct (ResumeFacts.skill_list_canonical skill Hlisted) as (Hlower & _ & _).
  split; [by rewrite Hfound|]. split; [done|].
  destruct Hbefore as [[-> _]|Hbefore]; [by left|by right].
Qed.

(** X29. Normalization leaves the name and the skills of a parsed resume as
    the parser found them: the payload built from [parseResumeText] has the
    extracted name, which is therefore never null, and the extracted
    skills, whatever the e-mail address and the phone number are. *)
Theorem payload_of_resume (extractEmail extractPhone : string → option string)
    (text : string) (resumeUrl : option string) :
  let payload :=
    normalizeCandidatePayload
      (Resume.parseResumeText extractEmail extractPhone text) resumeUrl in
  name payload = Some (Resume.extractName text) ∧
  skills payload = Resume.extractSkills text.
Proof.
  cbv zeta. unfold normalizeCandidatePayload, Resume.parseResumeText.
  cbn [name skills parsed_name parsed_skills].
  split; [apply ResumeFacts.extractName_canonical|].
  apply ResumeFacts.normalizeSkills_fixed.
  - rewrite ResumeFacts.extractSkills_found.
    apply (sublist_NoDup _ Resume.SKILL_LIST);
      [apply ResumeFacts.skill_list_NoDup|apply ResumeFacts.found_sublist].
  - intros s. rewrite ResumeFacts.extractSkills_found.
    intros [Hs _]%ResumeFacts.found_in_list.
    by destruct (ResumeFacts.skill_list_canonical s Hs) as (_ & ? & ?).
Qed.
